(** * 3DAO: the evaluation-and-evolution core

    A shallow embedding of the TypeScript sources
    [client/src/lib/genetic.ts] (the genetic optimizer),
    [client/src/lib/geometry.ts] (the parametric mesh generators),
    [client/src/lib/cfd.ts] (the panel-method solver) and of the objective
    function of the page component, with the properties the specification
    states about them.

    Numbers.  A JavaScript [number] is an IEEE-754 binary64 value.
    - The optimizer and the objective mapping are embedded over exact
      rationals ([Q], compared with [==]): the properties stated there
      are about the order of effects, throws, copies, comparisons and
      the subtraction of penalties, none of which depends on rounding.
    - The steps of the optimizer whose outcome does depend on rounding,
      or on a division by zero, are embedded a second time over the
      kernel's binary64 floats (module [Genetic64]): the blend of
      [crossover], the clamp of [mutate] and the mean of
      [getAverageFitness].
    - The mesh generators use [Math.sqrt], [Math.cos], [Math.sin]; their
      vertex coordinates are embedded over the real numbers, their index
      buffers over [nat].  What is stated about coordinates is whether
      vertices coincide and whether a triangle has zero area, for the
      dimensions the page and the catalog give.
    - The solver is embedded over the kernel's binary64 floats, because the
      property stated about it is about NaN and Infinity, which exist only
      there. *)

(** Beside the properties of the specification, the development covers
    whole runs of the optimizer (initialisation followed by generations),
    its selection, crossover and mutation steps, the constraint registry,
    the scenario catalog of [client/src/lib/scenarios.ts] with the
    optimizer the page builds, the shapes the generators produce, the
    force loop and the coefficients of the solver, the STL export and the
    vertex colours of the viewer.  The catalog and the colours are
    embedded over [Q], the STL text over strings. *)

From Stdlib Require Import List Bool Arith ZArith Lia String Ascii Sorted.
From Stdlib Require Import QArith Qabs Qminmax Qround Lqa.
From Stdlib Require Import Reals Lra Qreals.
From Stdlib Require Floats.
Import ListNotations.

(** ** Rational helpers *)

Module QHelp.

Local Open Scope Q_scope.

(** [x < y] on JavaScript numbers, as a boolean. *)
Definition Qlt_bool (x y : Q) : bool := negb (Qle_bool y x).

(** The number of iterations of [for (let i = 0; i < n; i++)], and the least
    array length at which [while (a.length < n)] stops: the count of naturals
    below [n]. *)
Definition loop_count (n : Q) : nat := Z.to_nat (Qceiling n).

(** [Math.max(lo, Math.min(hi, x))]. *)
Definition clamp (lo hi x : Q) : Q := Qmax lo (Qmin hi x).

End QHelp.

(** ** The genetic optimizer ([genetic.ts]) *)

Module Genetic.

Import QHelp.
Local Open Scope Q_scope.

(** [interface Gene]. *)
Record Gene : Type := mkGene {
  name : string;
  value : Q;
  min : Q;
  max : Q
}.

(** [Constraint.type]: ['min' | 'max' | 'equal']. *)
Inductive ConstraintType : Type := CMin | CMax | CEqual.

(** [interface GAConfig]. *)
Record GAConfig : Type := mkGAConfig {
  populationSize : Q;
  mutationRate : Q;
  crossoverRate : Q;
  elitismCount : Q;
  tournamentSize : Q
}.

(** [Partial<GAConfig>]: every field may be absent. *)
Record PartialGAConfig : Type := mkPartial {
  p_populationSize : option Q;
  p_mutationRate : option Q;
  p_crossoverRate : option Q;
  p_elitismCount : option Q;
  p_tournamentSize : option Q
}.

(** [x || d] on an optional number: [undefined] and [0] are falsy. *)
Definition or_default (x : option Q) (d : Q) : Q :=
  match x with
  | Some v => if Qeq_bool v 0 then d else v
  | None => d
  end.

(** [constructor(config: Partial<GAConfig> = {})]: the [config] field it
    builds. *)
Definition constructor_config (config : PartialGAConfig) : GAConfig :=
  {| populationSize := or_default (p_populationSize config) 50;
     mutationRate := or_default (p_mutationRate config) 0.1;
     crossoverRate := or_default (p_crossoverRate config) 0.7;
     elitismCount := or_default (p_elitismCount config) 2;
     tournamentSize := or_default (p_tournamentSize config) 3 |}.

(** *** Randomness

    [Math.random()] returns a number in [[0, 1)]; the ambient generator is
    an infinite stream of such draws read through a cursor. *)

Record Draw : Type := mkDraw {
  draw :> Q;
  draw_range : Qle_bool 0 draw && Qlt_bool draw 1 = true
}.

Record Rng : Type := mkRng {
  stream : nat -> Draw;
  cursor : nat
}.

(** Computations that draw random numbers and may throw a [TypeError]
    ([None]). *)
Definition M (A : Type) : Type := Rng -> option (A * Rng).

Definition ret {A : Type} (a : A) : M A := fun r => Some (a, r).

Definition throw {A : Type} : M A := fun _ => None.

Definition bind {A B : Type} (m : M A) (k : A -> M B) : M B :=
  fun r => match m r with
           | Some (a, r') => k a r'
           | None => None
           end.

Definition random : M Draw :=
  fun r => Some (stream r (cursor r),
                 {| stream := stream r; cursor := S (cursor r) |}).

Notation "x <- m ;; k" := (bind m (fun x => k))
  (at level 61, m at next level, right associativity).

(** The generator after [k] more draws. *)
Definition advance (k : nat) (rng : Rng) : Rng :=
  {| stream := stream rng; cursor := (k + cursor rng)%nat |}.

Section Optimizer.

(** [THREE.BufferGeometry]: the optimizer stores it and never looks inside. *)
Variable BufferGeometry : Type.

(** [interface Individual]. *)
Record Individual : Type := mkIndividual {
  genes : list Gene;
  fitness : Q;
  geometry : option BufferGeometry;
  drag : option Q;
  lift : option Q
}.

(** [interface Constraint]. *)
Record Constraint : Type := mkConstraint {
  c_name : string;
  c_type : ConstraintType;
  c_value : Q;
  evaluate : Individual -> Q;
  penalty : Q
}.

(** What an objective function returns. *)
Record ObjectiveResult : Type := mkResult {
  r_fitness : Q;
  r_geometry : option BufferGeometry;
  r_drag : option Q;
  r_lift : option Q
}.

(** The state of a [GeneticAlgorithm] instance. *)
Record GeneticAlgorithm : Type := mkGA {
  config : GAConfig;
  population : list Individual;
  generation : nat;
  bestIndividual : option Individual;
  fitnessHistory : list Q;
  constraints : list Constraint
}.

(** [new GeneticAlgorithm(config)]. *)
Definition constructor (cfg : PartialGAConfig) : GeneticAlgorithm :=
  {| config := constructor_config cfg;
     population := [];
     generation := 0;
     bestIndividual := None;
     fitnessHistory := [];
     constraints := [] |}.

(** The [switch] of [evaluateFitness]. *)
Definition violation (c : Constraint) (v : Q) : Q :=
  match c_type c with
  | CMin => Qmax 0 (c_value c - v)
  | CMax => Qmax 0 (v - c_value c)
  | CEqual => Qabs (v - c_value c)
  end.

(** One turn of the loop over [this.constraints] in [evaluateFitness]. *)
Definition apply_constraint (individual : Individual) (fit : Q)
  (c : Constraint) : Q :=
  let v := evaluate c individual in
  let viol := violation c v in
  if Qlt_bool 0 viol then fit - viol * penalty c else fit.

(** [evaluateFitness(individual, objectiveFunction)]: the individual after
    the call. *)
Definition evaluateFitness (cs : list Constraint) (individual : Individual)
  (objectiveFunction : list Gene -> ObjectiveResult) : Individual :=
  let result := objectiveFunction (genes individual) in
  let fit := fold_left (apply_constraint individual) cs (r_fitness result) in
  {| genes := genes individual;
     fitness := fit;
     geometry := r_geometry result;
     drag := r_drag result;
     lift := r_lift result |}.

(** [getAverageFitness()].  Over [Q] a division by zero is 0, so the guard
    of the empty population cannot be told from its absence here;
    [Genetic64.getAverageFitness] is the same function over binary64. *)
Definition getAverageFitness (ga : GeneticAlgorithm) : Q :=
  match population ga with
  | [] => 0
  | _ :: _ =>
      let sum := fold_left (fun acc ind => acc + fitness ind) (population ga) 0 in
      sum / inject_Z (Z.of_nat (List.length (population ga)))
  end.

(** [array.map(f)] with an effectful callback: elements are visited in
    order. *)
Fixpoint mapM {A B : Type} (f : A -> M B) (l : list A) : M (list B) :=
  match l with
  | [] => ret []
  | a :: l' => b <- f a ;; bs <- mapM f l' ;; ret (b :: bs)
  end.

(** The callback of [geneTemplate.map] in [initializePopulation]:
    [{ ...gene, value: gene.min + Math.random() * (gene.max - gene.min) }]. *)
Definition random_gene (gene : Gene) : M Gene :=
  r <- random ;;
  ret {| name := name gene;
         value := min gene + r * (max gene - min gene);
         min := min gene;
         max := max gene |}.

(** The [for] loop of [initializePopulation], [n] turns left. *)
Fixpoint init_loop (n : nat) (geneTemplate : list Gene)
  (pop : list Individual) : M (list Individual) :=
  match n with
  | O => ret pop
  | S n' =>
      gs <- mapM random_gene geneTemplate ;;
      init_loop n' geneTemplate
        (pop ++ [{| genes := gs; fitness := 0; geometry := None;
                    drag := None; lift := None |}])
  end.

(** [initializePopulation(geneTemplate)].  The method assigns [population],
    [generation] and [fitnessHistory]; it does not assign [bestIndividual]. *)
Definition initializePopulation (geneTemplate : list Gene)
  (ga : GeneticAlgorithm) : M GeneticAlgorithm :=
  pop <- init_loop (loop_count (populationSize (config ga))) geneTemplate [] ;;
  ret {| config := config ga;
         population := pop;
         generation := 0;
         bestIndividual := bestIndividual ga;
         fitnessHistory := [];
         constraints := constraints ga |}.

(** [addConstraint(constraint)]. *)
Definition addConstraint (c : Constraint) (ga : GeneticAlgorithm)
  : GeneticAlgorithm :=
  {| config := config ga;
     population := population ga;
     generation := generation ga;
     bestIndividual := bestIndividual ga;
     fitnessHistory := fitnessHistory ga;
     constraints := constraints ga ++ [c] |}.

(** [clearConstraints()]. *)
Definition clearConstraints (ga : GeneticAlgorithm) : GeneticAlgorithm :=
  {| config := config ga;
     population := population ga;
     generation := generation ga;
     bestIndividual := bestIndividual ga;
     fitnessHistory := fitnessHistory ga;
     constraints := [] |}.

(** [Math.floor(Math.random() * this.population.length)] as an array index. *)
Definition random_index (r : Draw) (len : nat) : nat :=
  Z.to_nat (Qfloor (r * inject_Z (Z.of_nat len))).

(** The loop of [tournamentSelection], [n] turns left.  [best] starts as
    [null]; an index outside the array reads [undefined] ([None]), which
    replaces a falsy [best] silently and throws at [candidate.fitness]
    otherwise. *)
Fixpoint tournament_loop (n : nat) (pop : list Individual)
  (best : option Individual) : M (option Individual) :=
  match n with
  | O => ret best
  | S n' =>
      r <- random ;;
      let candidate := nth_error pop (random_index r (List.length pop)) in
      match best, candidate with
      | None, _ => tournament_loop n' pop candidate
      | Some b, Some c =>
          tournament_loop n' pop
            (if Qlt_bool (fitness b) (fitness c) then Some c else Some b)
      | Some _, None => throw
      end
  end.

(** [tournamentSelection()]: [best!] may still be [null]. *)
Definition tournamentSelection (cfg : GAConfig) (pop : list Individual)
  : M (option Individual) :=
  tournament_loop (loop_count (tournamentSize cfg)) pop None.

(** The body of the loop of [crossover] for the gene [g1 = parent1.genes[i]];
    [g2] is [parent2.genes[i]], read only inside the blend branch.  The
    blend is exact here; [Genetic64.crossover_gene] rounds it as the
    source does. *)
Definition crossover_gene (cfg : GAConfig) (g1 : Gene) (g2 : option Gene)
  : M Gene :=
  r <- random ;;
  if Qlt_bool r (crossoverRate cfg) then
    alpha <- random ;;
    match g2 with
    | Some g2' =>
        ret {| name := name g1;
               value := alpha * value g1 + (1 - alpha) * value g2';
               min := min g1;
               max := max g1 |}
    | None => throw
    end
  else ret g1.

(** The loop of [crossover], from index [i] on. *)
Fixpoint crossover_loop (cfg : GAConfig) (i : nat) (genes1 : list Gene)
  (genes2 : option (list Gene)) : M (list Gene) :=
  match genes1 with
  | [] => ret []
  | g1 :: rest =>
      g <- crossover_gene cfg g1
             (match genes2 with
              | Some gs2 => nth_error gs2 i
              | None => None
              end) ;;
      gs <- crossover_loop cfg (S i) rest genes2 ;;
      ret (g :: gs)
  end.

(** [crossover(parent1, parent2)]: a [null] first parent throws at
    [parent1.genes.length], a [null] second parent at [parent2.genes[i]]. *)
Definition crossover (cfg : GAConfig) (parent1 parent2 : option Individual)
  : M Individual :=
  match parent1 with
  | None => throw
  | Some p1 =>
      gs <- crossover_loop cfg 0 (genes p1) (option_map genes parent2) ;;
      ret {| genes := gs; fitness := 0; geometry := None;
             drag := None; lift := None |}
  end.

(** The perturbation of [mutate]:
    [(Math.random() - 0.5) * range * 0.2] with [range = gene.max - gene.min]. *)
Definition mutation (gene : Gene) (r : Q) : Q :=
  (r - 0.5) * (max gene - min gene) * 0.2.

(** The body of the loop of [mutate] for one gene. *)
Definition mutate_gene (cfg : GAConfig) (gene : Gene) : M Gene :=
  r <- random ;;
  if Qlt_bool r (mutationRate cfg) then
    r' <- random ;;
    ret {| name := name gene;
           value := Qmax (min gene)
                      (Qmin (max gene) (value gene + mutation gene r'));
           min := min gene;
           max := max gene |}
  else ret gene.

(** [mutate(individual)]: the individual after the call. *)
Definition mutate (cfg : GAConfig) (individual : Individual) : M Individual :=
  gs <- mapM (mutate_gene cfg) (genes individual) ;;
  ret {| genes := gs;
         fitness := fitness individual;
         geometry := geometry individual;
         drag := drag individual;
         lift := lift individual |}.

(** [this.population.sort((a, b) => b.fitness - a.fitness)]: a stable sort,
    descending by fitness. *)
Fixpoint insert_desc (x : Individual) (l : list Individual)
  : list Individual :=
  match l with
  | [] => [x]
  | y :: l' =>
      if Qlt_bool (fitness x) (fitness y) then y :: insert_desc x l'
      else x :: l
  end.

Definition sort_desc (l : list Individual) : list Individual :=
  fold_right insert_desc [] l.

(** One turn of the elitism loop of [evolve]: [this.population[i]] must
    exist. *)
Definition elite (pop : list Individual) (i : nat) : M Individual :=
  match nth_error pop i with
  | Some ind =>
      ret {| genes := genes ind; fitness := fitness ind; geometry := None;
             drag := None; lift := None |}
  | None => throw
  end.

(** The [while (nextGeneration.length < populationSize)] loop of [evolve],
    [n] offspring still to produce. *)
Fixpoint offspring_loop (n : nat) (cfg : GAConfig) (pop : list Individual)
  (nextGeneration : list Individual) : M (list Individual) :=
  match n with
  | O => ret nextGeneration
  | S n' =>
      parent1 <- tournamentSelection cfg pop ;;
      parent2 <- tournamentSelection cfg pop ;;
      offspring <- crossover cfg parent1 parent2 ;;
      offspring' <- mutate cfg offspring ;;
      offspring_loop n' cfg pop (nextGeneration ++ [offspring'])
  end.

(** The update of [this.bestIndividual] in [evolve]:
    [{ ...top, genes: [...top.genes] }] replaces the record when there is
    none or when [top.fitness > bestIndividual.fitness]. *)
Definition track_best (best : option Individual) (top : Individual)
  : option Individual :=
  let snapshot :=
    {| genes := genes top; fitness := fitness top; geometry := geometry top;
       drag := drag top; lift := lift top |} in
  match best with
  | None => Some snapshot
  | Some b => if Qlt_bool (fitness b) (fitness top) then Some snapshot
              else Some b
  end.

(** [evolve(objectiveFunction)].  Reading [this.population[0]] of an empty
    population throws. *)
Definition evolve (objectiveFunction : list Gene -> ObjectiveResult)
  (ga : GeneticAlgorithm) : M GeneticAlgorithm :=
  let cfg := config ga in
  let evaluated :=
    map (fun ind => evaluateFitness (constraints ga) ind objectiveFunction)
        (population ga) in
  let sorted := sort_desc evaluated in
  match sorted with
  | [] => throw
  | top :: _ =>
      let best := track_best (bestIndividual ga) top in
      let history := fitnessHistory ga ++ [fitness top] in
      elites <- mapM (elite sorted) (seq 0 (loop_count (elitismCount cfg))) ;;
      nextGeneration <-
        offspring_loop
          (loop_count (populationSize cfg) - List.length elites)
          cfg sorted elites ;;
      ret {| config := cfg;
             population := nextGeneration;
             generation := S (generation ga);
             bestIndividual := best;
             fitnessHistory := history;
             constraints := constraints ga |}
  end.

(** [evolve] called [n] times in a row. *)
Fixpoint generations (n : nat)
  (objectiveFunction : list Gene -> ObjectiveResult)
  (ga : GeneticAlgorithm) : M GeneticAlgorithm :=
  match n with
  | O => ret ga
  | S n' =>
      ga' <- generations n' objectiveFunction ga ;;
      evolve objectiveFunction ga'
  end.

(** The arithmetic mean of a list of numbers, in the specification's
    words: their sum divided by their count. *)
Definition arithmetic_mean (xs : list Q) : Q :=
  fold_right Qplus 0 xs / inject_Z (Z.of_nat (List.length xs)).

(** The total penalty of an individual, in the specification's words: the
    sum over the registered constraints of violation times penalty
    weight. *)
Definition total_penalty (cs : list Constraint) (individual : Individual)
  : Q :=
  fold_right
    (fun c acc => violation c (evaluate c individual) * penalty c + acc)
    0 cs.

(** [min <= value <= max]. *)
Definition in_bounds (g : Gene) : Prop :=
  min g <= value g /\ value g <= max g.

(** Every chromosome of a population has [n] genes. *)
Definition uniform (n : nat) (pop : list Individual) : Prop :=
  Forall (fun ind => List.length (genes ind) = n) pop.

(** A state on which [evolve] runs without a [TypeError]: the population
    is not empty and holds at least [elitismCount] individuals, whose
    chromosomes have the same length; a tournament has at least one turn;
    and the next population will not be empty. *)
Definition runnable (ga : GeneticAlgorithm) : Prop :=
  population ga <> [] /\
  (loop_count (elitismCount (config ga)) <= List.length (population ga))%nat /\
  (1 <= loop_count (tournamentSize (config ga)))%nat /\
  (1 <= Nat.max (loop_count (populationSize (config ga)))
                (loop_count (elitismCount (config ga))))%nat /\
  exists n, uniform n (population ga).

(** A gene drawn from the template gene [t]: its name and bounds, and a
    value within the bounds when they are ordered. *)
Definition drawn_from (t g : Gene) : Prop :=
  name g = name t /\ min g = min t /\ max g = max t /\
  (min t <= max t -> in_bounds g).

(** An individual freshly drawn from a template. *)
Definition fresh (geneTemplate : list Gene) (ind : Individual) : Prop :=
  fitness ind = 0 /\ geometry ind = None /\ drag ind = None /\
  lift ind = None /\ Forall2 drawn_from geneTemplate (genes ind).

(** A population in descending order of fitness. *)
Definition descending (l : list Individual) : Prop :=
  StronglySorted (fun a b => fitness b <= fitness a) l.

End Optimizer.

Arguments fresh {BufferGeometry}.
Arguments uniform {BufferGeometry}.
Arguments runnable {BufferGeometry}.
Arguments descending {BufferGeometry}.
Arguments genes {BufferGeometry}.
Arguments fitness {BufferGeometry}.
Arguments geometry {BufferGeometry}.
Arguments drag {BufferGeometry}.
Arguments lift {BufferGeometry}.
Arguments c_name {BufferGeometry}.
Arguments c_type {BufferGeometry}.
Arguments c_value {BufferGeometry}.
Arguments evaluate {BufferGeometry}.
Arguments penalty {BufferGeometry}.
Arguments r_fitness {BufferGeometry}.
Arguments r_geometry {BufferGeometry}.
Arguments r_drag {BufferGeometry}.
Arguments r_lift {BufferGeometry}.
Arguments config {BufferGeometry}.
Arguments population {BufferGeometry}.
Arguments generation {BufferGeometry}.
Arguments bestIndividual {BufferGeometry}.
Arguments fitnessHistory {BufferGeometry}.
Arguments constraints {BufferGeometry}.
Arguments mkIndividual {BufferGeometry}.
Arguments mkConstraint {BufferGeometry}.
Arguments mkResult {BufferGeometry}.
Arguments mkGA {BufferGeometry}.
Arguments violation {BufferGeometry}.
Arguments apply_constraint {BufferGeometry}.
Arguments evaluateFitness {BufferGeometry}.
Arguments getAverageFitness {BufferGeometry}.
Arguments init_loop {BufferGeometry}.
Arguments initializePopulation {BufferGeometry}.
Arguments addConstraint {BufferGeometry}.
Arguments clearConstraints {BufferGeometry}.
Arguments tournament_loop {BufferGeometry}.
Arguments tournamentSelection {BufferGeometry}.
Arguments crossover {BufferGeometry}.
Arguments mutate {BufferGeometry}.
Arguments insert_desc {BufferGeometry}.
Arguments sort_desc {BufferGeometry}.
Arguments elite {BufferGeometry}.
Arguments offspring_loop {BufferGeometry}.
Arguments track_best {BufferGeometry}.
Arguments evolve {BufferGeometry}.
Arguments generations {BufferGeometry}.
Arguments total_penalty {BufferGeometry}.

End Genetic.

(** ** The objective function of the page component *)

Module Objective.

Import QHelp Genetic.
Local Open Scope Q_scope.

(** [haystack.includes(needle)]: [needle] occurs in [haystack] as a
    contiguous substring. *)
Fixpoint includes (needle haystack : string) : bool :=
  if String.prefix needle haystack then true
  else match haystack with
       | EmptyString => false
       | String _ rest => includes needle rest
       end.

(** [scenario.flowConditions]. *)
Record FlowConditions : Type := mkFlow {
  velocity : Q;
  angleOfAttack : Q;
  reynoldsNumber : Q
}.

(** [interface Scenario], the fields the objective function reads. *)
Record Scenario : Type := mkScenario {
  baseGeometry : string;
  optimizationGoal : string;
  flowConditions : FlowConditions
}.

(** The goal-to-fitness branch of [objectiveFunction]: [cd] and [cl] are
    the drag and lift coefficients the solver returned. *)
Definition goal_fitness (goal : string) (cd cl : Q) : Q :=
  if includes "Minimize drag" goal then - cd
  else if includes "Maximize L/D" goal then
    (if Qlt_bool 0.001 (Qabs cd) then cl / cd else 0)
  else if includes "Maximize downforce" goal then - cl
  else - cd.

Section ObjectiveFunction.

Variable BufferGeometry : Type.

(** The geometry branch of [objectiveFunction]: the shape family tag and
    the chromosome select and parametrise a generator. *)
Variable generate : string -> list Gene -> BufferGeometry.

(** [new PanelMethodSolver(velocity, angleOfAttack)
      .calculateDragCoefficient(geometry, referenceArea)] and its lift
    counterpart. *)
Variable calculateDragCoefficient : Q -> Q -> BufferGeometry -> Q -> Q.
Variable calculateLiftCoefficient : Q -> Q -> BufferGeometry -> Q -> Q.

(** [objectiveFunction(geneValues)] for the selected [scenario]. *)
Definition objectiveFunction (scenario : Scenario) (geneValues : list Gene)
  : ObjectiveResult BufferGeometry :=
  let geometry := generate (baseGeometry scenario) geneValues in
  let v := velocity (flowConditions scenario) in
  let a := angleOfAttack (flowConditions scenario) in
  let cd := calculateDragCoefficient v a geometry 1 in
  let cl := calculateLiftCoefficient v a geometry 1 in
  let fit := goal_fitness (optimizationGoal scenario) cd cl in
  {| r_fitness := fit;
     r_geometry := Some geometry;
     r_drag := Some cd;
     r_lift := Some cl |}.

End ObjectiveFunction.

Arguments objectiveFunction {BufferGeometry}.

(** The [optimizationGoal] strings of the scenario catalog
    ([scenarios.ts]). *)
Definition catalog_goals : list string :=
  [ "Minimize drag coefficient"; "Maximize L/D ratio";
    "Minimize drag coefficient"; "Maximize efficiency, minimize noise";
    "Maximize flow rate"; "Maximize L/D ratio"; "Maximize downforce";
    "Maximize power coefficient"; "Minimize drag at CL=0.8";
    "Minimize drag coefficient" ]%string.

End Objective.

(** ** The mesh generators ([geometry.ts]) *)

Module Geometry.

Import Genetic.
Local Open Scope R_scope.

(** A [THREE.BufferGeometry] as the generators fill it: the flat
    [position] array (three coordinates per vertex) and the flat [index]
    array (three vertex indices per triangle).  The [normal] attribute that
    [computeVertexNormals] derives from these two is not modelled.  The
    source stores the coordinates as float32 numbers; here they are real
    numbers. *)
Record BufferGeometry : Type := mkGeometry {
  position : list R;
  index : list nat
}.

(** [geometry.attributes.position.count]. *)
Definition count (g : BufferGeometry) : nat :=
  (List.length (position g) / 3)%nat.


(** [x < y] as a boolean. *)
Definition Rltb (x y : R) : bool := if Rlt_dec x y then true else false.

(** The thickness distribution [yt] of [generateNACA4Airfoil]. *)
Definition naca_yt (T xi : R) : R :=
  5 * T * (0.2969 * sqrt xi
           - 0.1260 * xi
           - 0.3516 * xi * xi
           + 0.2843 * xi * xi * xi
           - 0.1015 * xi * xi * xi * xi).

(** The camber line of [generateNACA4Airfoil]: [(yc, dyc_dx)].  For
    [P = 1] the source divides by zero at [xi = 1]; over [R] the quotient
    is a number, so nothing is stated about [p = 10]. *)
Definition naca_camber (M P xi : R) : R * R :=
  if Rltb xi P && Rltb 0 P then
    ((M / (P * P)) * (2 * P * xi - xi * xi),
     (2 * M / (P * P)) * (P - xi))
  else if Rltb 0 P then
    ((M / ((1 - P) * (1 - P))) * (1 - 2 * P + 2 * P * xi - xi * xi),
     (2 * M / ((1 - P) * (1 - P))) * (P - xi))
  else (0, 0).

(** One point of the upper ([upper = true]) or lower surface. *)
Definition naca_point (M P T : R) (numPoints : nat) (upper : bool) (i : nat)
  : R * R :=
  let beta := (INR i / INR numPoints) * PI in
  let xi := (1 - cos beta) / 2 in
  let yt := naca_yt T xi in
  let '(yc, dyc_dx) := naca_camber M P xi in
  let theta := atan dyc_dx in
  if upper then (xi - yt * sin theta, yc + yt * cos theta)
  else (xi + yt * sin theta, yc - yt * cos theta).

(** [generateNACA4Airfoil(m, p, t, numPoints = 50)]: the arrays [x] and
    [y]. *)
Definition generateNACA4Airfoil (m p t : R) (numPoints : nat)
  : list R * list R :=
  let M := m / 100 in
  let P := p / 10 in
  let T := t / 100 in
  let upper := map (naca_point M P T numPoints true) (seq 0 (S numPoints)) in
  let lower :=
    map (naca_point M P T numPoints false) (rev (seq 0 (S numPoints))) in
  (map fst upper ++ map fst lower, map snd upper ++ map snd lower).

(** The two triangles [a, b, c] and [b, d, c] pushed for one quadrilateral
    whose first corner is [a] and whose next section starts [stride]
    further. *)
Definition quad (a stride : nat) : list nat :=
  let b := (a + stride)%nat in
  let c := (a + 1)%nat in
  let d := (b + 1)%nat in
  [a; b; c; b; d; c].

(** The "create faces" loops shared by the wing and the Ahmed body. *)
Definition band_indices (segments pointsPerSection : nat) : list nat :=
  flat_map (fun i =>
    flat_map (fun j => quad (i * pointsPerSection + j) pointsPerSection)
             (seq 0 (pointsPerSection - 1)))
    (seq 0 segments).

(** [createWingGeometry(airfoilX, airfoilY, span, chord, segments = 20)].
    An [airfoilY] shorter than [airfoilX] reads [undefined] in the source;
    the model reads [0] there. *)
Definition createWingGeometry (airfoilX airfoilY : list R) (span chord : R)
  (segments : nat) : BufferGeometry :=
  let vertices :=
    flat_map (fun i =>
      let z := (INR i / INR segments - 0.5) * span in
      flat_map (fun j =>
        [nth j airfoilX 0 * chord; nth j airfoilY 0 * chord; z])
        (seq 0 (List.length airfoilX)))
      (seq 0 (S segments)) in
  let pointsPerSection := List.length airfoilX in
  {| position := vertices;
     index := band_indices segments pointsPerSection |}.

(** The profile radius [y] of ring [i] in [createOgiveGeometry], over the
    real numbers; the source rounds every step, which matters at the tip,
    where the exact value is zero. *)
Definition ogive_y (len radius : R) (rings i : nat) : R :=
  let rho := (radius * radius + len * len) / (2 * radius) in
  let x := (INR i / INR rings) * len in
  sqrt (rho * rho - (len - x) * (len - x)) - (rho - radius).

(** [createOgiveGeometry(length, radius, segments = 32, rings = 32)]. *)
Definition createOgiveGeometry (len radius : R) (segments rings : nat)
  : BufferGeometry :=
  let vertices :=
    flat_map (fun i =>
      let x := (INR i / INR rings) * len in
      let y := ogive_y len radius rings i in
      flat_map (fun j =>
        let theta := (INR j / INR segments) * PI * 2 in
        [x; y * cos theta; y * sin theta])
        (seq 0 (S segments)))
      (seq 0 (S rings)) in
  let indices :=
    flat_map (fun i =>
      flat_map (fun j => quad (i * (segments + 1) + j) (segments + 1))
               (seq 0 segments))
      (seq 0 rings) in
  {| position := vertices; index := indices |}.

(** The control points of [createAhmedBodyGeometry]. *)
Definition ahmed_points (len height slantAngle : R) : list (R * R * R) :=
  let slantLength := 0.222 in
  let slantHeight := slantLength * tan (slantAngle * PI / 180) in
  [ (0, 0, 0);
    (0.1, 0, 0);
    (0.2, height * 0.3, 0);
    (0.3, height * 0.7, 0);
    (0.338, height, 0);
    (len - slantLength, height, 0);
    (len, height - slantHeight, 0);
    (len, 0, 0) ].

(** [createAhmedBodyGeometry(length = 1.044, width = 0.389,
    height = 0.288, slantAngle = 25)]. *)
Definition createAhmedBodyGeometry (len width height slantAngle : R)
  : BufferGeometry :=
  let points := ahmed_points len height slantAngle in
  let segments := 20%nat in
  let vertices :=
    flat_map (fun i =>
      let z := (INR i / INR segments - 0.5) * width in
      flat_map (fun pt => let '(x, y, _) := pt in [x; y; z]) points)
      (seq 0 (S segments)) in
  let pointsPerSection := List.length points in
  let backStart := (segments * pointsPerSection)%nat in
  let front :=
    flat_map (fun i => [0%nat; (i + 1)%nat; i])
             (seq 1 (pointsPerSection - 1 - 1)) in
  let back :=
    flat_map (fun i => [backStart; (backStart + i)%nat;
                        (backStart + i + 1)%nat])
             (seq 1 (pointsPerSection - 1 - 1)) in
  {| position := vertices;
     index := band_indices segments pointsPerSection ++ front ++ back |}.

(** [geneValues.find(g => g.name === n)?.value || d]. *)
Definition gene_or (geneValues : list Gene) (n : string) (d : Q) : Q :=
  match find (fun g => String.eqb (name g) n) geneValues with
  | Some g => if Qeq_bool (value g) 0 then d else value g
  | None => d
  end.

(** The geometry branch of [objectiveFunction] (and of [updateGeometry]):
    the shape family tag selects the generator, the chromosome its
    arguments. *)
Definition generate (baseGeometry : string) (geneValues : list Gene)
  : BufferGeometry :=
  if String.eqb baseGeometry "naca" then
    let camber := Q2R (gene_or geneValues "camber" 0) in
    let camberPos := Q2R (gene_or geneValues "camberPos" 4) in
    let thickness := Q2R (gene_or geneValues "thickness" 12) in
    let chord := Q2R (gene_or geneValues "chord" 1.0) in
    let span := Q2R (gene_or geneValues "span" 2.0) in
    let airfoil := generateNACA4Airfoil camber camberPos thickness 50 in
    createWingGeometry (fst airfoil) (snd airfoil) span chord 20
  else if String.eqb baseGeometry "ogive" then
    let len := Q2R (gene_or geneValues "length" 5.0) in
    let radius := Q2R (gene_or geneValues "radius" 1.0) in
    createOgiveGeometry len radius 32 32
  else if String.eqb baseGeometry "ahmed" then
    let slantAngle := Q2R (gene_or geneValues "slantAngle" 25) in
    createAhmedBodyGeometry 1.044 0.389 0.288 slantAngle
  else
    let airfoil := generateNACA4Airfoil 0 0 12 50 in
    createWingGeometry (fst airfoil) (snd airfoil) 2.0 1.0 20.

(** [geneValues.find(g => g.name === n)?.value]. *)
Definition find_value (geneValues : list Gene) (n : string) : option Q :=
  option_map value (find (fun g => String.eqb (name g) n) geneValues).

(** The gene names the geometry branch looks up for a shape family. *)
Definition genes_read (baseGeometry : string) : list string :=
  if String.eqb baseGeometry "naca" then
    ["camber"; "camberPos"; "thickness"; "chord"; "span"]%string
  else if String.eqb baseGeometry "ogive" then ["length"; "radius"]%string
  else if String.eqb baseGeometry "ahmed" then ["slantAngle"]%string
  else [].

(** A chromosome without its genes named [n]. *)
Definition without (n : string) (geneValues : list Gene) : list Gene :=
  filter (fun g => negb (String.eqb (name g) n)) geneValues.

(** Vertex [i] of a geometry: [(getX(i), getY(i), getZ(i))]. *)
Definition vertex (g : BufferGeometry) (i : nat) : R * R * R :=
  (nth (3 * i) (position g) 0,
   nth (3 * i + 1) (position g) 0,
   nth (3 * i + 2) (position g) 0).















End Geometry.

(** ** The panel-method solver ([cfd.ts]) *)

Module CFD.

Import Stdlib.Floats.Floats.
Local Open Scope float_scope.

(* Decimal literals denote the nearest binary64 value, as in JavaScript. *)
Set Warnings "-inexact-float".

(** [THREE.Vector3] with the methods the solver calls, as three.js defines
    them. *)
Record Vector3 : Type := mkVector3 {
  vx : float;
  vy : float;
  vz : float
}.

(** [new THREE.Vector3()]. *)
Definition vzero : Vector3 := mkVector3 0 0 0.

(** [a.add(b)]. *)
Definition vadd (a b : Vector3) : Vector3 :=
  mkVector3 (vx a + vx b) (vy a + vy b) (vz a + vz b).

(** [new THREE.Vector3().subVectors(a, b)]. *)
Definition subVectors (a b : Vector3) : Vector3 :=
  mkVector3 (vx a - vx b) (vy a - vy b) (vz a - vz b).

(** [new THREE.Vector3().crossVectors(a, b)]. *)
Definition crossVectors (a b : Vector3) : Vector3 :=
  mkVector3 (vy a * vz b - vz a * vy b)
            (vz a * vx b - vx a * vz b)
            (vx a * vy b - vy a * vx b).

(** [a.multiplyScalar(s)]. *)
Definition multiplyScalar (a : Vector3) (s : float) : Vector3 :=
  mkVector3 (vx a * s) (vy a * s) (vz a * s).

(** [a.divideScalar(s)]: three.js multiplies by [1 / s]. *)
Definition divideScalar (a : Vector3) (s : float) : Vector3 :=
  multiplyScalar a (1 / s).

(** [a.dot(b)]. *)
Definition dot (a b : Vector3) : float :=
  vx a * vx b + vy a * vy b + vz a * vz b.

(** [a.lengthSq()]. *)
Definition lengthSq (a : Vector3) : float :=
  vx a * vx a + vy a * vy a + vz a * vz a.

(** [a.length()]. *)
Definition vlength (a : Vector3) : float := sqrt (lengthSq a).

(** [a.normalize()]: [divideScalar(length() || 1)]; [0] and NaN are
    falsy. *)
Definition normalize (a : Vector3) : Vector3 :=
  let l := vlength a in
  divideScalar a (if (l =? 0) || is_nan l then 1 else l).

(** [a.distanceTo(b)]. *)
Definition distanceTo (a b : Vector3) : float :=
  vlength (subVectors a b).

(** The indexed geometry the solver reads: the flat [position] array and
    [geometry.index], which may be [null]. *)
Record BufferGeometry : Type := mkGeometry {
  position : list float;
  index : option (list nat)
}.

(** [positions.count]. *)
Definition count (g : BufferGeometry) : nat :=
  (List.length (position g) / 3)%nat.

(** [new THREE.Vector3(positions.getX(i), positions.getY(i),
    positions.getZ(i))].  Reading outside the array, or at an [undefined]
    index, yields [undefined], for which the constructor of [Vector3]
    takes its default, 0. *)
Definition vertex (g : BufferGeometry) (i : option nat) : Vector3 :=
  match i with
  | Some i =>
      mkVector3 (nth (3 * i) (position g) 0)
                (nth (3 * i + 1) (position g) 0)
                (nth (3 * i + 2) (position g) 0)
  | None => mkVector3 0 0 0
  end.

(** The reads [indices[i], indices[i + 1], indices[i + 2]] of the loops
    [for (let i = 0; i < indices.length; i += 3)]. *)
Fixpoint index_triples (idx : list nat)
  : list (option nat * option nat * option nat) :=
  match idx with
  | [] => []
  | [a] => [(Some a, None, None)]
  | [a; b] => [(Some a, Some b, None)]
  | a :: b :: c :: rest => (Some a, Some b, Some c) :: index_triples rest
  end.

Definition geometry_triples (g : BufferGeometry)
  : list (option nat * option nat * option nat) :=
  match index g with
  | Some idx => index_triples idx
  | None => []
  end.

(** A panel: [{ center, normal, area }]. *)
Record Panel : Type := mkPanel {
  center : Vector3;
  normal : Vector3;
  area : float
}.

(** The centroid of a triangle:
    [new Vector3().add(v0).add(v1).add(v2).divideScalar(3)]. *)
Definition centroid (g : BufferGeometry)
  (t : option nat * option nat * option nat) : Vector3 :=
  let '(i0, i1, i2) := t in
  divideScalar
    (vadd (vadd (vadd vzero (vertex g i0)) (vertex g i1)) (vertex g i2)) 3.

(** The panel of one triangle. *)
Definition panel_of (g : BufferGeometry)
  (t : option nat * option nat * option nat) : Panel :=
  let '(i0, i1, i2) := t in
  let v0 := vertex g i0 in
  let v1 := vertex g i1 in
  let v2 := vertex g i2 in
  let edge1 := subVectors v1 v0 in
  let edge2 := subVectors v2 v0 in
  {| center := centroid g t;
     normal := normalize (crossVectors edge1 edge2);
     area := vlength (crossVectors edge1 edge2) / 2 |}.

(** The state of a [PanelMethodSolver]. *)
Record PanelMethodSolver : Type := mkSolver {
  freestream : Vector3;
  density : float;
  reynoldsNumber : float
}.

(** [interface CFDResult]. *)
Record CFDResult : Type := mkCFDResult {
  drag : float;
  lift : float;
  pressureCoefficients : list float;
  velocities : list Vector3
}.

Section Constructor.

(** [Math.cos] and [Math.sin]: their results are not fixed by the
    language standard. *)
Variables Math_cos Math_sin : float -> float.

(** [Math.PI]. *)
Definition Math_PI : float := 3.141592653589793.

(** [new PanelMethodSolver(velocity = 1.0, angleOfAttack = 0,
    density = 1.225, reynoldsNumber = 1e6)]. *)
Definition constructor (velocity angleOfAttack density reynoldsNumber : float)
  : PanelMethodSolver :=
  let alpha := angleOfAttack * Math_PI / 180 in
  {| freestream :=
       mkVector3 (velocity * Math_cos alpha) (velocity * Math_sin alpha) 0;
     density := density;
     reynoldsNumber := reynoldsNumber |}.

End Constructor.

(** One turn of the loop over the panels that accumulates the induced
    velocity at [point]. *)
Definition induce (s : PanelMethodSolver) (point : Vector3)
  (inducedVelocity : Vector3) (panel : Panel) : Vector3 :=
  let r := subVectors point (center panel) in
  let distance := vlength r in
  if 0.001 <? distance then
    let strength := dot (freestream s) (normal panel) * area panel in
    let influence :=
      multiplyScalar (crossVectors (normal panel) r)
                     (strength / (distance * distance * distance)) in
    vadd inducedVelocity influence
  else inducedVelocity.

(** The total velocity at vertex [i]. *)
Definition totalVelocity (s : PanelMethodSolver) (g : BufferGeometry)
  (panels : list Panel) (i : nat) : Vector3 :=
  let point := vertex g (Some i) in
  let inducedVelocity := fold_left (induce s point) panels vzero in
  vadd (freestream s) inducedVelocity.

(** The pressure coefficient at vertex [i]: [Cp = 1 - (V/V_inf)^2]. *)
Definition Cp (s : PanelMethodSolver) (g : BufferGeometry)
  (panels : list Panel) (i : nat) : float :=
  let velocityRatio :=
    vlength (totalVelocity s g panels i) / vlength (freestream s) in
  1 - velocityRatio * velocityRatio.

(** [pressureCoefficients[i]], [undefined] (NaN in arithmetic) outside the
    array. *)
Definition cp_at (cps : list float) (i : option nat) : float :=
  match i with
  | Some i => nth i cps nan
  | None => nan
  end.

(** The inner scan of the force loop: the average [Cp] of the first
    triangle whose centroid lies within [0.001] of the panel's. *)
Fixpoint find_avgCp (g : BufferGeometry) (cps : list float)
  (ts : list (option nat * option nat * option nat)) (panel : Panel)
  : option float :=
  match ts with
  | [] => None
  | t :: rest =>
      if distanceTo (centroid g t) (center panel) <? 0.001 then
        let '(i0, i1, i2) := t in
        Some ((cp_at cps i0 + cp_at cps i1 + cp_at cps i2) / 3)
      else find_avgCp g cps rest panel
  end.

(** One turn of the force loop: [(dragForce, liftForce)] after the
    panel. *)
Definition add_force (s : PanelMethodSolver) (g : BufferGeometry)
  (cps : list float) (forces : float * float) (panel : Panel)
  : float * float :=
  match find_avgCp g cps (geometry_triples g) panel with
  | Some avgCp =>
      let dynamicPressure := 0.5 * density s * lengthSq (freestream s) in
      let force :=
        multiplyScalar (normal panel)
                       (- avgCp * dynamicPressure * area panel) in
      let dragDir := normalize (freestream s) in
      let liftDir := mkVector3 0 1 0 in
      (fst forces + dot force dragDir, snd forces + dot force liftDir)
  | None => forces
  end.

(** [solve(geometry)]. *)
Definition solve (s : PanelMethodSolver) (g : BufferGeometry) : CFDResult :=
  let numVertices := count g in
  let panels := map (panel_of g) (geometry_triples g) in
  let vertices := seq 0 numVertices in
  let cps := map (Cp s g panels) vertices in
  let forces := fold_left (add_force s g cps) panels (0, 0) in
  {| drag := fst forces;
     lift := snd forces;
     pressureCoefficients := cps;
     velocities := map (totalVelocity s g panels) vertices |}.

(** [calculateDragCoefficient(geometry, referenceArea)]. *)
Definition calculateDragCoefficient (s : PanelMethodSolver)
  (g : BufferGeometry) (referenceArea : float) : float :=
  let result := solve s g in
  let dynamicPressure := 0.5 * density s * lengthSq (freestream s) in
  drag result / (dynamicPressure * referenceArea).

(** [calculateLiftCoefficient(geometry, referenceArea)]. *)
Definition calculateLiftCoefficient (s : PanelMethodSolver)
  (g : BufferGeometry) (referenceArea : float) : float :=
  let result := solve s g in
  let dynamicPressure := 0.5 * density s * lengthSq (freestream s) in
  lift result / (dynamicPressure * referenceArea).

(** One of the two zeros, [0] or [-0]. *)
Definition zeroish (z : float) : Prop := exists s, Prim2SF z = S754_zero s.

(** A solver at rest: what [new PanelMethodSolver(0)] builds. *)
Definition still_solver : PanelMethodSolver :=
  {| freestream := mkVector3 0 0 0; density := 1.225; reynoldsNumber := 1e6 |}.

(** One triangle with corners [(0,0,0)], [(1,0,0)], [(0,1,0)]. *)
Definition one_triangle : BufferGeometry :=
  {| position := [0; 0; 0; 1; 0; 0; 0; 1; 0]; index := Some [0; 1; 2]%nat |}.

End CFD.

(** ** Concrete inputs

    Small populations, constraints and generators on which the operations
    are run. *)

Module Examples.

Import QHelp Genetic.
Local Open Scope Q_scope.

(** The min constraint of the specification's example: threshold 10,
    penalty 100, measuring [measured]. *)
Definition min10 (measured : Q) : Constraint unit :=
  {| c_name := "Min Radius"; c_type := CMin; c_value := 10;
     evaluate := fun _ => measured; penalty := 100 |}.

Definition bare (fit : Q) : Individual unit :=
  {| genes := []; fitness := fit; geometry := None; drag := None;
     lift := None |}.

Definition flat_objective (fit : Q) (_ : list Gene) : ObjectiveResult unit :=
  {| r_fitness := fit; r_geometry := None; r_drag := None; r_lift := None |}.

(** Draws. *)
Definition draw_0 : Draw := mkDraw 0 eq_refl.
Definition draw_quarter : Draw := mkDraw (1 # 4) eq_refl.
Definition draw_half : Draw := mkDraw (1 # 2) eq_refl.
Definition draw_most : Draw := mkDraw (9 # 10) eq_refl.

(** A generator that cycles through [0, 1/4, 1/2, 9/10]. *)
Definition cycling : Rng :=
  {| stream := fun n =>
       match (n mod 4)%nat with
       | 0%nat => draw_0
       | 1%nat => draw_quarter
       | 2%nat => draw_half
       | _ => draw_most
       end;
     cursor := 0 |}.

(** The bullet-train template of the scenario catalog. *)
Definition train_template : list Gene :=
  [ mkGene "length" 8 5 12; mkGene "radius" 1.5 1 2;
    mkGene "fineness" 0.7 0.5 0.9 ]%string.


Definition individual_of (gs : list Gene) : Individual unit :=
  {| genes := gs; fitness := 0; geometry := None; drag := None;
     lift := None |}.

Definition parent_a : Individual unit :=
  individual_of [ mkGene "length" 5 5 12; mkGene "radius" 2 1 2;
                  mkGene "fineness" 0.6 0.5 0.9 ]%string.

Definition parent_b : Individual unit :=
  individual_of [ mkGene "length" 12 5 12; mkGene "radius" 1 1 2;
                  mkGene "fineness" 0.9 0.5 0.9 ]%string.

(** The configuration of the page component: population 30 replaced here
    by 4 to keep runs small. *)
Definition small_config : GAConfig :=
  constructor_config
    {| p_populationSize := Some 4; p_mutationRate := Some 0.15;
       p_crossoverRate := Some 0.7; p_elitismCount := Some 2;
       p_tournamentSize := None |}.

(** An objective that prefers short, slender shapes: minus the sum of the
    gene values. *)
Definition slender (gs : list Gene) : ObjectiveResult unit :=
  {| r_fitness := - fold_right (fun g acc => value g + acc) 0 gs;
     r_geometry := Some tt; r_drag := None; r_lift := None |}.

(** A state with three individuals and no best-so-far record yet. *)
Definition ga_0 : GeneticAlgorithm unit :=
  {| config := small_config;
     population := [parent_a; parent_b; individual_of train_template];
     generation := 0;
     bestIndividual := None;
     fitnessHistory := [];
     constraints := [] |}.

(** The state and the generator after one call of [evolve]. *)
Definition ga_1 : GeneticAlgorithm unit :=
  Eval vm_compute in
    match evolve slender ga_0 cycling with
    | Some (ga, _) => ga
    | None => ga_0
    end.

Definition cursor_1 : nat :=
  Eval vm_compute in
    match evolve slender ga_0 cycling with
    | Some (_, rng) => cursor rng
    | None => 0%nat
    end.

Definition rng_1 : Rng := {| stream := stream cycling; cursor := cursor_1 |}.

(** A run whose first generation is scored by a flat objective, as when
    the page moves on to another scenario with the same optimizer: the
    state and the generator after that generation, and the state after a
    next generation scored by [slender]. *)
Definition ga_flat : GeneticAlgorithm unit :=
  Eval vm_compute in
    match evolve (flat_objective (-100)) ga_0 cycling with
    | Some (ga, _) => ga
    | None => ga_0
    end.

Definition cursor_flat : nat :=
  Eval vm_compute in
    match evolve (flat_objective (-100)) ga_0 cycling with
    | Some (_, rng) => cursor rng
    | None => 0%nat
    end.

Definition rng_flat : Rng :=
  {| stream := stream cycling; cursor := cursor_flat |}.

Definition ga_up : GeneticAlgorithm unit :=
  Eval vm_compute in
    match evolve slender ga_flat rng_flat with
    | Some (ga, _) => ga
    | None => ga_flat
    end.

Definition cursor_up : nat :=
  Eval vm_compute in
    match evolve slender ga_flat rng_flat with
    | Some (_, rng) => cursor rng
    | None => 0%nat
    end.

Definition rng_up : Rng := {| stream := stream cycling; cursor := cursor_up |}.

(** The state and the generator after a second call of [evolve]. *)
Definition ga_2 : GeneticAlgorithm unit :=
  Eval vm_compute in
    match evolve slender ga_1 rng_1 with
    | Some (ga, _) => ga
    | None => ga_1
    end.

Definition cursor_2 : nat :=
  Eval vm_compute in
    match evolve slender ga_1 rng_1 with
    | Some (_, rng) => cursor rng
    | None => 0%nat
    end.

Definition rng_2 : Rng := {| stream := stream cycling; cursor := cursor_2 |}.

(** The F1 rear wing scenario of the catalog, and a stand-in generator
    and solver that return an empty mesh, [Cd = 1/2] and [Cl = 3]. *)
Definition f1_wing : Objective.Scenario :=
  {| Objective.baseGeometry := "naca";
     Objective.optimizationGoal := "Maximize L/D ratio";
     Objective.flowConditions :=
       {| Objective.velocity := 50; Objective.angleOfAttack := 15;
          Objective.reynoldsNumber := 500000 |} |}.

Definition blank_mesh (_ : string) (_ : list Gene) : unit := tt.

Definition half_drag (_ _ : Q) (_ : unit) (_ : Q) : Q := 1 # 2.

Definition triple_lift (_ _ : Q) (_ : unit) (_ : Q) : Q := 3.

(** A bullet-train chromosome at the lower bounds of its length and
    radius, the ogive the page builds from it, and the first triangle of
    that ogive's index buffer, which joins two vertices of the tip ring to
    one of the next ring. *)
Definition short_train : list Gene :=
  [ mkGene "length" 5 5 12; mkGene "radius" 1 1 2;
    mkGene "fineness" 0.7 0.5 0.9 ]%string.



(** The same train with another fineness, and an Ahmed chromosome at the
    lower bound of its slant angle. *)
Definition coarse_train : list Gene :=
  [ mkGene "length" 5 5 12; mkGene "radius" 1 1 2;
    mkGene "fineness" 0.9 0.5 0.9 ]%string.

Definition flat_back : list Gene :=
  [ mkGene "slantAngle" 0 0 40; mkGene "edgeRadius" 0.01 0.005 0.03;
    mkGene "rearHeight" 0.288 0.25 0.32 ]%string.

End Examples.

(** ** The page component and the scenario catalog

    The optimizer the page creates, the catalog of [scenarios.ts] and the
    colour buffer of the viewer component. *)

Module Page.

Import QHelp Genetic Objective.
Local Open Scope Q_scope.

(** The argument of [new GeneticAlgorithm({...})] in the page component. *)
Definition page_config : PartialGAConfig :=
  {| p_populationSize := Some 30; p_mutationRate := Some 0.15;
     p_crossoverRate := Some 0.7; p_elitismCount := Some 2;
     p_tournamentSize := None |}.

(** One entry of [scenarios]: its [id], the fields the objective function
    reads, and its gene template. *)
Record CatalogEntry : Type := mkEntry {
  id : string;
  scenario : Scenario;
  template : list Gene
}.

Definition entry (i b g : string) (gs : list Gene) (v a re : Q)
  : CatalogEntry :=
  {| id := i;
     scenario := {| baseGeometry := b; optimizationGoal := g;
                    flowConditions := {| velocity := v; angleOfAttack := a;
                                         reynoldsNumber := re |} |};
     template := gs |}.

(** [export const scenarios]. *)
Definition scenarios : list CatalogEntry :=
  [ entry "bullet-train" "ogive" "Minimize drag coefficient"
      [ mkGene "length" 8.0 5.0 12.0; mkGene "radius" 1.5 1.0 2.0;
        mkGene "fineness" 0.7 0.5 0.9 ]
      100 0 10000000;
    entry "f1-wing" "naca" "Maximize L/D ratio"
      [ mkGene "camber" 4 0 9; mkGene "camberPos" 4 0 9;
        mkGene "thickness" 15 8 20; mkGene "chord" 0.3 0.2 0.4;
        mkGene "span" 0.5 0.3 0.6 ]
      50 15 500000;
    entry "bicycle-frame" "naca" "Minimize drag coefficient"
      [ mkGene "camber" 0 0 2; mkGene "camberPos" 5 3 7;
        mkGene "thickness" 25 15 35; mkGene "aspectRatio" 2.5 2.0 4.0 ]
      13.4 10 100000;
    entry "drone-propeller" "naca" "Maximize efficiency, minimize noise"
      [ mkGene "camber" 4 2 6; mkGene "camberPos" 4 3 6;
        mkGene "thickness" 12 8 16; mkGene "chord" 0.05 0.03 0.08;
        mkGene "twist" 15 5 25 ]
      20 8 50000;
    entry "venturi-duct" "ogive" "Maximize flow rate"
      [ mkGene "inletDiameter" 0.1 0.08 0.15;
        mkGene "throatDiameter" 0.05 0.03 0.08;
        mkGene "outletDiameter" 0.1 0.08 0.15;
        mkGene "length" 0.3 0.2 0.5 ]
      10 0 100000;
    entry "uav-wing" "naca" "Maximize L/D ratio"
      [ mkGene "camber" 4 2 6; mkGene "camberPos" 4 3 6;
        mkGene "thickness" 12 9 18; mkGene "chord" 0.2 0.15 0.3;
        mkGene "span" 2.0 1.5 3.0 ]
      15 4 200000;
    entry "car-spoiler" "naca" "Maximize downforce"
      [ mkGene "camber" 4 0 9; mkGene "camberPos" 4 2 7;
        mkGene "thickness" 12 8 18; mkGene "chord" 0.4 0.25 0.6;
        mkGene "angle" (-15) (-25) (-5) ]
      40 (-15) 1000000;
    entry "wind-turbine" "naca" "Maximize power coefficient"
      [ mkGene "camber" 4 2 6; mkGene "camberPos" 4 3 6;
        mkGene "thickness" 18 12 25; mkGene "chord" 1.0 0.6 1.5;
        mkGene "twist" 8 0 15 ]
      12 8 500000;
    entry "hydrofoil" "naca" "Minimize drag at CL=0.8"
      [ mkGene "camber" 4 2 6; mkGene "camberPos" 5 3 7;
        mkGene "thickness" 12 8 16; mkGene "chord" 0.5 0.3 0.8;
        mkGene "span" 1.5 1.0 2.0 ]
      10 6 3000000;
    entry "ahmed-body" "ahmed" "Minimize drag coefficient"
      [ mkGene "slantAngle" 25 0 40; mkGene "edgeRadius" 0.01 0.005 0.03;
        mkGene "rearHeight" 0.288 0.25 0.32 ]
      40 0 2000000 ]%string.


(** [pressureData[i] || 0] in the viewer: a missing entry and a zero are
    falsy. *)
Definition pressure_at (pressureData : list Q) (i : nat) : Q :=
  match nth_error pressureData i with
  | Some p => if Qeq_bool p 0 then 0 else p
  | None => 0
  end.

(** The colour of a vertex of pressure [pressure]:
    [t = Math.max(0, Math.min(1, (pressure + 1) / 2))], red [t],
    green [0.3], blue [1 - t]. *)
Definition pressure_color (pressure : Q) : Q * Q * Q :=
  let t := Qmax 0 (Qmin 1 ((pressure + 1) / 2)) in
  (t, 0.3, 1 - t).

(** The [colors] array [GeometryMesh] fills for a geometry of [count]
    vertices: pressure colours when [pressureData] is present and not
    empty, grey otherwise. *)
Definition vertex_colors (count : nat) (pressureData : option (list Q))
  : list Q :=
  let grey := flat_map (fun _ : nat => [0.7; 0.7; 0.7]) (seq 0 count) in
  match pressureData with
  | Some pd =>
      if (0 <? List.length pd)%nat then
        flat_map (fun i =>
                    let '(r, g, b) := pressure_color (pressure_at pd i) in
                    [r; g; b])
                 (seq 0 count)
      else grey
  | None => grey
  end.

End Page.

(** ** Export to STL ([generateSTLString]) *)

Module STL.

Import Stdlib.Floats.Floats.
Import CFD.
Local Open Scope string_scope.

Section Writer.

(** [x.toExponential(6)]: the decimal text of a number. *)
Variable toExponential : float -> string.

(** The line break ['\n']. *)
Definition nl : string := String (ascii_of_nat 10) EmptyString.

(** [`${v.x.toExponential(6)} ${v.y.toExponential(6)}
    ${v.z.toExponential(6)}`]. *)
Definition vector_text (v : Vector3) : string :=
  toExponential (vx v) ++ " " ++ toExponential (vy v) ++ " "
  ++ toExponential (vz v).

(** [new THREE.Vector3(vertices.getX(i), vertices.getY(i),
    vertices.getZ(i))]: a read outside the array, or at an [undefined]
    index, yields [undefined], which the constructor of [Vector3] replaces
    by its default [0]. *)
Definition read_vertex (g : BufferGeometry) (i : option nat) : Vector3 :=
  match i with
  | Some i =>
      mkVector3 (nth (3 * i) (position g) 0%float)
                (nth (3 * i + 1) (position g) 0%float)
                (nth (3 * i + 2) (position g) 0%float)
  | None => vzero
  end.

(** The seven lines [generateSTLString] appends for one triangle. *)
Definition facet (g : BufferGeometry)
  (t : option nat * option nat * option nat) : string :=
  let '(i0, i1, i2) := t in
  let v0 := read_vertex g i0 in
  let v1 := read_vertex g i1 in
  let v2 := read_vertex g i2 in
  let edge1 := subVectors v1 v0 in
  let edge2 := subVectors v2 v0 in
  let normal := normalize (crossVectors edge1 edge2) in
  "  facet normal " ++ vector_text normal ++ nl
  ++ "    outer loop" ++ nl
  ++ "      vertex " ++ vector_text v0 ++ nl
  ++ "      vertex " ++ vector_text v1 ++ nl
  ++ "      vertex " ++ vector_text v2 ++ nl
  ++ "    endloop" ++ nl
  ++ "  endfacet" ++ nl.

(** [generateSTLString(geometry)]: it throws ([None]) when the geometry
    has no index. *)
Definition generateSTLString (g : BufferGeometry) : option string :=
  match index g with
  | None => None
  | Some idx =>
      Some ("solid exported" ++ nl
            ++ String.concat "" (map (facet g) (index_triples idx))
            ++ "endsolid exported" ++ nl)
  end.

End Writer.

(** A stand-in for [toExponential] that prints every number as zero. *)
Definition zero_text (_ : float) : string := "0.000000e+0".

(** The number of line breaks of a text. *)
Fixpoint line_breaks (s : string) : nat :=
  match s with
  | EmptyString => 0
  | String c rest =>
      (if Ascii.eqb c (ascii_of_nat 10) then 1 else 0) + line_breaks rest
  end.

End STL.

(** ** Vocabulary for the properties of the solver *)

Module SolverTerms.

Import Stdlib.Floats.Floats.
Import CFD.
Local Open Scope float_scope.
Set Warnings "-inexact-float".

(** NaN or an infinity. *)
Definition wild (x : float) : Prop :=
  Prim2SF x = S754_nan \/ exists s, Prim2SF x = S754_infinity s.

(** NaN or [+Infinity]. *)
Definition blown (x : float) : Prop :=
  Prim2SF x = S754_nan \/ Prim2SF x = S754_infinity false.

(** A solver in a unit stream along the x axis: what
    [new PanelMethodSolver()] builds when the cosine and the sine are
    exact at 0. *)
Definition cruise : PanelMethodSolver :=
  {| freestream := mkVector3 1 0 0; density := 1.225; reynoldsNumber := 1e6 |}.

End SolverTerms.

(** ** The numeric steps of the optimizer in binary64

    The blend of [crossover], the perturbation and the clamp of [mutate]
    and the mean of [getAverageFitness] as JavaScript computes them: every
    operation rounds to the nearest binary64 value, and [0 / 0] is NaN.
    The randomness is a stream of binary64 draws in [[0, 1)]. *)

Module Genetic64.

Import Stdlib.Floats.Floats.
Local Open Scope float_scope.
Set Warnings "-inexact-float".

(** [Math.max(a, b)]: NaN when an argument is NaN; [+0] is above [-0]. *)
Definition Math_max (a b : float) : float :=
  if is_nan a || is_nan b then nan
  else if a <? b then b
  else if b <? a then a
  else match classify a with
       | NZero => b
       | _ => a
       end.

(** [Math.min(a, b)]: NaN when an argument is NaN; [-0] is below [+0]. *)
Definition Math_min (a b : float) : float :=
  if is_nan a || is_nan b then nan
  else if a <? b then a
  else if b <? a then b
  else match classify a with
       | PZero => b
       | _ => a
       end.

(** [interface Gene]. *)
Record Gene : Type := mkGene {
  name : string;
  value : float;
  min : float;
  max : float
}.

(** [interface Individual], the fields [crossover], [mutate] and
    [getAverageFitness] read and write. *)
Record Individual : Type := mkIndividual {
  genes : list Gene;
  fitness : float
}.

(** A result of [Math.random()]. *)
Record Draw : Type := mkDraw {
  draw :> float;
  draw_range : (0 <=? draw) && (draw <? 1) = true
}.

Record Rng : Type := mkRng {
  stream : nat -> Draw;
  cursor : nat
}.

(** Computations that draw random numbers and may throw a [TypeError]
    ([None]). *)
Definition M (A : Type) : Type := Rng -> option (A * Rng).

Definition ret {A : Type} (a : A) : M A := fun r => Some (a, r).

Definition throw {A : Type} : M A := fun _ => None.

Definition bind {A B : Type} (m : M A) (k : A -> M B) : M B :=
  fun r => match m r with
           | Some (a, r') => k a r'
           | None => None
           end.

Definition random : M Draw :=
  fun r => Some (stream r (cursor r),
                 {| stream := stream r; cursor := S (cursor r) |}).

Notation "x <- m ;; k" := (bind m (fun x => k))
  (at level 61, m at next level, right associativity).

(** [alpha * parent1.genes[i].value + (1 - alpha) * parent2.genes[i].value]. *)
Definition blend (alpha v1 v2 : float) : float :=
  alpha * v1 + (1 - alpha) * v2.

(** The body of the loop of [crossover] for the gene [g1]; [g2] is
    [parent2.genes[i]], read only inside the blend branch. *)
Definition crossover_gene (crossoverRate : float) (g1 : Gene)
  (g2 : option Gene) : M Gene :=
  r <- random ;;
  if r <? crossoverRate then
    alpha <- random ;;
    match g2 with
    | Some g2' =>
        ret {| name := name g1;
               value := blend alpha (value g1) (value g2');
               min := min g1;
               max := max g1 |}
    | None => throw
    end
  else ret g1.

(** The loop of [crossover], from index [i] on. *)
Fixpoint crossover_loop (crossoverRate : float) (i : nat)
  (genes1 : list Gene) (genes2 : option (list Gene)) : M (list Gene) :=
  match genes1 with
  | [] => ret []
  | g1 :: rest =>
      g <- crossover_gene crossoverRate g1
             (match genes2 with
              | Some gs2 => nth_error gs2 i
              | None => None
              end) ;;
      gs <- crossover_loop crossoverRate (S i) rest genes2 ;;
      ret (g :: gs)
  end.

(** [crossover(parent1, parent2)]. *)
Definition crossover (crossoverRate : float)
  (parent1 parent2 : option Individual) : M Individual :=
  match parent1 with
  | None => throw
  | Some p1 =>
      gs <- crossover_loop crossoverRate 0 (genes p1)
              (option_map genes parent2) ;;
      ret {| genes := gs; fitness := 0 |}
  end.

(** [Math.max(gene.min, Math.min(gene.max, x))]. *)
Definition clamp (lo hi x : float) : float := Math_max lo (Math_min hi x).

(** The value [mutate] gives a gene on which it fires, [r] being the
    second draw:
    [gene.value + (Math.random() - 0.5) * range * 0.2], clamped. *)
Definition mutated (gene : Gene) (r : float) : float :=
  let range := max gene - min gene in
  let mutation := (r - 0.5) * range * 0.2 in
  clamp (min gene) (max gene) (value gene + mutation).

(** The body of the loop of [mutate] for one gene. *)
Definition mutate_gene (mutationRate : float) (gene : Gene) : M Gene :=
  r <- random ;;
  if r <? mutationRate then
    r' <- random ;;
    ret {| name := name gene;
           value := mutated gene r';
           min := min gene;
           max := max gene |}
  else ret gene.

(** [array.map(f)] with an effectful callback. *)
Fixpoint mapM {A B : Type} (f : A -> M B) (l : list A) : M (list B) :=
  match l with
  | [] => ret []
  | a :: l' => b <- f a ;; bs <- mapM f l' ;; ret (b :: bs)
  end.

(** [mutate(individual)]: the individual after the call. *)
Definition mutate (mutationRate : float) (individual : Individual)
  : M Individual :=
  gs <- mapM (mutate_gene mutationRate) (genes individual) ;;
  ret {| genes := gs; fitness := fitness individual |}.

(** [array.length] as a number. *)
Definition of_nat (n : nat) : float :=
  of_uint63 (Uint63.of_Z (Z.of_nat n)).

(** [population.reduce((acc, ind) => acc + ind.fitness, 0)
      / population.length], the expression [getAverageFitness] returns for
    a population that is not empty. *)
Definition sum_over_length (population : list Individual) : float :=
  fold_left (fun acc ind => acc + fitness ind) population 0
  / of_nat (List.length population).

(** [getAverageFitness()]. *)
Definition getAverageFitness (population : list Individual) : float :=
  match population with
  | [] => 0
  | _ :: _ => sum_over_length population
  end.

(** The arithmetic mean of numbers, in the specification's words: their
    sum, taken in order, divided by their count. *)
Definition arithmetic_mean (xs : list float) : float :=
  fold_left (fun acc x => acc + x) xs 0 / of_nat (List.length xs).

(** [min <= value <= max]. *)
Definition in_bounds (g : Gene) : bool :=
  (min g <=? value g) && (value g <=? max g).

(** Three draws. *)
Definition draw_half : Draw := mkDraw 0.5 eq_refl.
Definition draw_low : Draw := mkDraw 0.1875 eq_refl.
Definition draw_lower : Draw := mkDraw 0.051025390625 eq_refl.

(** A generator that cycles through [0.5, 0.1875]: every gene is blended
    with [alpha = 0.1875] under a crossover rate above one half. *)
Definition blending : Rng :=
  {| stream := fun n => if Nat.even n then draw_half else draw_low;
     cursor := 0 |}.

(** The same with [alpha = 0.051025390625]. *)
Definition blending_low : Rng :=
  {| stream := fun n => if Nat.even n then draw_half else draw_lower;
     cursor := 0 |}.

(** A chromosome of the bullet train whose fineness sits on its maximum,
    and a chromosome of the venturi duct whose outlet diameter sits on its
    minimum, where the clamp of [mutate] puts a value that was pushed
    beyond the bound. *)
Definition fine : Individual :=
  {| genes := [ mkGene "length" 8 5 12; mkGene "radius" 1.5 1 2;
                mkGene "fineness" 0.9 0.5 0.9 ];
     fitness := 0 |}.

Definition narrow : Individual :=
  {| genes := [ mkGene "inletDiameter" 0.1 0.08 0.15;
                mkGene "throatDiameter" 0.05 0.03 0.08;
                mkGene "outletDiameter" 0.08 0.08 0.15;
                mkGene "length" 0.3 0.2 0.5 ];
     fitness := 0 |}.

End Genetic64.

(** ** Vocabulary for the properties of runs *)

Module Run.

Import QHelp Genetic.
Local Open Scope Q_scope.

Section Run.

Variable BufferGeometry : Type.

(** The record the elitism loop pushes for [ind]: its genes and fitness,
    without the cached geometry, drag and lift. *)
Definition carried (ind : Individual BufferGeometry)
  : Individual BufferGeometry :=
  {| genes := genes ind; fitness := fitness ind; geometry := None;
     drag := None; lift := None |}.

(** The population [evolve] selects from: every individual evaluated, in
    descending order of fitness. *)
Definition ranked (obj : list Gene -> ObjectiveResult BufferGeometry)
  (ga : GeneticAlgorithm BufferGeometry) : list (Individual BufferGeometry) :=
  sort_desc (map (fun ind => evaluateFitness (constraints ga) ind obj)
                 (population ga)).

(** The best-so-far record is the maximum of the fitness history. *)
Definition best_is_history_max (ga : GeneticAlgorithm BufferGeometry)
  : Prop :=
  match bestIndividual ga with
  | None => fitnessHistory ga = []
  | Some b =>
      In (fitness b) (fitnessHistory ga) /\
      Forall (fun f => f <= fitness b) (fitnessHistory ga)
  end.

(** A configuration under which a freshly initialised population is
    runnable: at least one individual, no more elites than individuals,
    and tournaments of at least one turn. *)
Definition sound_config (cfg : GAConfig) : Prop :=
  (1 <= loop_count (populationSize cfg))%nat /\
  (loop_count (elitismCount cfg) <= loop_count (populationSize cfg))%nat /\
  (1 <= loop_count (tournamentSize cfg))%nat.

(** The individual the [k]-th turn of a tournament reads:
    [this.population[Math.floor(Math.random() * this.population.length)]]
    with the [k]-th draw from [rng]. *)
Definition candidate (pop : list (Individual BufferGeometry)) (rng : Rng)
  (k : nat) : option (Individual BufferGeometry) :=
  nth_error pop (random_index (stream rng (k + cursor rng)%nat)
                              (List.length pop)).

(** An individual [evolve] has not evaluated yet: fitness 0 and no cached
    geometry, drag or lift. *)
Definition unevaluated (ind : Individual BufferGeometry) : Prop :=
  fitness ind = 0 /\ geometry ind = None /\ drag ind = None /\
  lift ind = None.

(** A constraint an individual satisfies. *)
Definition satisfied (individual : Individual BufferGeometry)
  (c : Constraint BufferGeometry) : Prop :=
  match c_type c with
  | CMin => c_value c <= evaluate c individual
  | CMax => evaluate c individual <= c_value c
  | CEqual => evaluate c individual == c_value c
  end.

End Run.

Arguments carried {BufferGeometry}.
Arguments ranked {BufferGeometry}.
Arguments best_is_history_max {BufferGeometry}.
Arguments satisfied {BufferGeometry}.
Arguments candidate {BufferGeometry}.
Arguments unevaluated {BufferGeometry}.

End Run.

(** * Properties *)

(** ** Facts about the rational helpers *)

Module QFacts.

Import Lqa QHelp.
Local Open Scope Q_scope.

Lemma Qlt_bool_iff (x y : Q) : Qlt_bool x y = true <-> x < y.
Proof.
  unfold Qlt_bool. rewrite negb_true_iff.
  split; intro H.
  - apply Qnot_le_lt. intro Hle. apply Qle_bool_iff in Hle. congruence.
  - destruct (Qle_bool y x) eqn:E; [|reflexivity].
    apply Qle_bool_iff in E. exfalso. apply (Qlt_not_le _ _ H E).
Qed.

Lemma Qlt_bool_false_iff (x y : Q) : Qlt_bool x y = false <-> y <= x.
Proof.
  unfold Qlt_bool. rewrite negb_false_iff. apply Qle_bool_iff.
Qed.

(** [loop_count n] is the number of loop indices [i] with [i < n]. *)
Lemma loop_count_spec (n : Q) (i : nat) :
  (i < loop_count n)%nat <-> inject_Z (Z.of_nat i) < n.
Proof.
  unfold loop_count. split; intro H.
  - assert (Hz : (Z.of_nat i < Qceiling n)%Z) by lia.
    apply Qnot_le_lt. intro Hle.
    assert (Hc : (Qceiling n <= Z.of_nat i)%Z).
    { rewrite <- (Qceiling_Z (Z.of_nat i)). apply Qceiling_resp_le. exact Hle. }
    lia.
  - assert (Hz : (Z.of_nat i < Qceiling n)%Z).
    { apply Z.lt_nge. intro Hge.
      assert (Hn : n <= inject_Z (Z.of_nat i)).
      { eapply Qle_trans; [apply Qle_ceiling|]. rewrite <- Zle_Qle. exact Hge. }
      apply (Qlt_not_le _ _ H Hn). }
    lia.
Qed.

(** A natural number of turns is run as it stands. *)
Lemma loop_count_nat (k : nat) : loop_count (inject_Z (Z.of_nat k)) = k.
Proof.
  unfold loop_count. rewrite Qceiling_Z. apply Nat2Z.id.
Qed.

Lemma clamp_bounds (lo hi x : Q) :
  lo <= hi -> lo <= clamp lo hi x /\ clamp lo hi x <= hi.
Proof.
  intro H. unfold clamp. split.
  - apply Q.le_max_l.
  - apply Q.max_lub; [exact H | apply Q.le_min_l].
Qed.

End QFacts.

(** ** Facts about the genetic optimizer *)

Module GeneticFacts.

Import Lqa QHelp QFacts Genetic.
Local Open Scope Q_scope.

Lemma or_default_zero (x : option Q) (v d : Q) :
  x = Some v -> v == 0 -> or_default x d = d.
Proof.
  intros -> Hv. unfold or_default.
  now rewrite (Qeq_eq_bool _ _ Hv).
Qed.

Lemma or_default_nonzero (x : option Q) (d : Q) :
  ~ d == 0 -> ~ or_default x d == 0.
Proof.
  intros Hd. unfold or_default. destruct x as [v|]; [|exact Hd].
  destruct (Qeq_bool v 0) eqn:E; [exact Hd|].
  now apply Qeq_bool_neq.
Qed.

Section Facts.

Variable B : Type.

(** C10.  A numeric configuration field that is supplied as zero is
    replaced by its built-in default (50, 0.1, 0.7, 2, 3), so no field of a
    constructed configuration is ever zero. *)
Theorem constructor_zero_falls_back_to_default :
  forall (cfg : PartialGAConfig),
    let c := config (constructor B cfg) in
    (forall v, p_populationSize cfg = Some v -> v == 0 ->
               populationSize c = 50) /\
    (forall v, p_mutationRate cfg = Some v -> v == 0 ->
               mutationRate c = 0.1) /\
    (forall v, p_crossoverRate cfg = Some v -> v == 0 ->
               crossoverRate c = 0.7) /\
    (forall v, p_elitismCount cfg = Some v -> v == 0 ->
               elitismCount c = 2) /\
    (forall v, p_tournamentSize cfg = Some v -> v == 0 ->
               tournamentSize c = 3) /\
    ~ populationSize c == 0 /\ ~ mutationRate c == 0 /\
    ~ crossoverRate c == 0 /\ ~ elitismCount c == 0 /\
    ~ tournamentSize c == 0.
Proof.
  intros cfg c. subst c. cbn [config constructor constructor_config
    populationSize mutationRate crossoverRate elitismCount tournamentSize].
  repeat split;
    try (intros v Hs Hz; exact (or_default_zero _ _ _ Hs Hz));
    apply or_default_nonzero; discriminate.
Qed.

Lemma fold_left_sum_shift (l : list (Individual B)) (a : Q) :
  fold_left (fun acc ind => acc + fitness ind) l a
  == a + fold_right Qplus 0 (map fitness l).
Proof.
  revert a. induction l as [|i l IH]; intro a; cbn [fold_left fold_right map].
  - lra.
  - rewrite IH. lra.
Qed.

Lemma violation_nonneg (c : Constraint B) (v : Q) : 0 <= violation c v.
Proof.
  unfold violation. destruct (c_type c).
  - apply Q.le_max_l.
  - apply Q.le_max_l.
  - apply Qabs_nonneg.
Qed.

Lemma apply_constraint_subtracts (ind : Individual B) (f : Q)
  (c : Constraint B) :
  apply_constraint ind f c
  == f - violation c (evaluate c ind) * penalty c.
Proof.
  unfold apply_constraint. cbv zeta.
  destruct (Qlt_bool 0 (violation c (evaluate c ind))) eqn:E.
  - reflexivity.
  - apply Qlt_bool_false_iff in E.
    pose proof (violation_nonneg c (evaluate c ind)) as Hn.
    assert (Hz : violation c (evaluate c ind) == 0) by lra.
    rewrite Hz. lra.
Qed.

Lemma fold_apply_constraint (ind : Individual B) (cs : list (Constraint B))
  (f : Q) :
  fold_left (apply_constraint ind) cs f == f - total_penalty cs ind.
Proof.
  revert f. induction cs as [|c cs IH]; intro f;
    cbn [fold_left total_penalty fold_right].
  - lra.
  - rewrite IH, apply_constraint_subtracts.
    fold (total_penalty cs ind). lra.
Qed.

Lemma violation_min (c : Constraint B) (v t : Q) :
  c_type c = CMin -> c_value c == t ->
  (v <= t -> violation c v == t - v) /\ (t <= v -> violation c v == 0).
Proof.
  intros Ht Hv. unfold violation. rewrite Ht.
  split; intro H;
    destruct (Q.max_spec 0 (c_value c - v)) as [[Hc Hm]|[Hc Hm]];
    rewrite Hm; lra.
Qed.

(** C3.  [evaluateFitness] subtracts violation times penalty weight from
    the raw objective fitness for every registered constraint, the
    violation being [max(0, threshold - value)] for a min constraint,
    [max(0, value - threshold)] for a max constraint and
    [|value - threshold|] for an equal constraint.  A min constraint with
    threshold 10 and penalty 100 subtracts exactly 300 at the measured
    value 7 and nothing at 12. *)
Theorem evaluateFitness_subtracts_penalties :
  forall (cs : list (Constraint B)) (ind : Individual B)
         (obj : list Gene -> ObjectiveResult B),
    fitness (evaluateFitness cs ind obj)
    == r_fitness (obj (genes ind)) - total_penalty cs ind /\
    (forall (c : Constraint B) (v : Q),
       (c_type c = CMin -> violation c v = Qmax 0 (c_value c - v)) /\
       (c_type c = CMax -> violation c v = Qmax 0 (v - c_value c)) /\
       (c_type c = CEqual -> violation c v = Qabs (v - c_value c))) /\
    (forall c : Constraint B,
       c_type c = CMin -> c_value c == 10 -> penalty c == 100 ->
       (evaluate c ind == 7 ->
        fitness (evaluateFitness [c] ind obj)
        == r_fitness (obj (genes ind)) - 300) /\
       (evaluate c ind == 12 ->
        fitness (evaluateFitness [c] ind obj)
        == r_fitness (obj (genes ind)) - 0)).
Proof.
  intros cs ind obj. split; [|split].
  - unfold evaluateFitness. cbn [fitness]. apply fold_apply_constraint.
  - intros c v. unfold violation.
    repeat split; intros ->; reflexivity.
  - intros c Ht Hv Hp.
    destruct (violation_min c (evaluate c ind) 10 Ht Hv) as [Hlo Hhi].
    split; intro He; unfold evaluateFitness; cbn [fitness];
      rewrite fold_apply_constraint; cbn [total_penalty fold_right].
    + rewrite Hlo, Hp, He by lra. lra.
    + rewrite Hhi by lra. lra.
Qed.

(** *** Random draws and the monad *)

Lemma draw_bounds (r : Draw) : 0 <= r /\ r < 1.
Proof.
  destruct r as [q Hq]. cbn [draw].
  apply andb_true_iff in Hq. destruct Hq as [H0 H1].
  split; [now apply Qle_bool_iff | now apply Qlt_bool_iff].
Qed.


(** [mapM] of a callback that never throws and establishes [Q] from [P]. *)
Lemma mapM_Forall {X Y : Type} (f : X -> M Y) (P : X -> Prop)
  (Q : X -> Y -> Prop) :
  (forall a rng, P a -> exists b rng', f a rng = Some (b, rng') /\ Q a b) ->
  forall l rng, Forall P l ->
    exists bs rng', mapM f l rng = Some (bs, rng') /\ Forall2 Q l bs.
Proof.
  intros Hf l. induction l as [|a l IH]; intros rng Hl.
  - exists [], rng. split; [reflexivity | constructor].
  - inversion Hl as [|? ? Ha Hl']; subst.
    destruct (Hf a rng Ha) as (b & rng1 & Eb & Qb).
    destruct (IH rng1 Hl') as (bs & rng2 & Ebs & Qbs).
    exists (b :: bs), rng2. split.
    + cbn [mapM]. unfold bind at 1. rewrite Eb.
      unfold bind at 1. rewrite Ebs. reflexivity.
    + now constructor.
Qed.

(** *** Mutation *)

Lemma mutation_abs (gene : Gene) (r : Q) :
  Qabs (mutation gene r) == Qabs (r - 0.5) * Qabs (max gene - min gene) * 0.2.
Proof.
  unfold mutation. rewrite !Qabs_Qmult. reflexivity.
Qed.



(** What [mutate_gene] returns, by the first draw. *)
Lemma mutate_gene_fires (cfg : GAConfig) (gene : Gene) (rng : Rng) :
  stream rng (cursor rng) < mutationRate cfg ->
  mutate_gene cfg gene rng
  = Some ({| name := name gene;
             value := clamp (min gene) (max gene)
                        (value gene
                         + mutation gene (stream rng (S (cursor rng))));
             min := min gene;
             max := max gene |},
          advance 2 rng).
Proof.
  intro H. apply Qlt_bool_iff in H.
  unfold mutate_gene, bind, random, ret. cbn [stream cursor].
  rewrite H. reflexivity.
Qed.

Lemma mutate_gene_skips (cfg : GAConfig) (gene : Gene) (rng : Rng) :
  mutationRate cfg <= stream rng (cursor rng) ->
  mutate_gene cfg gene rng = Some (gene, advance 1 rng).
Proof.
  intro H. apply Qlt_bool_false_iff in H.
  unfold mutate_gene, bind, random, ret. cbn [stream cursor].
  rewrite H. reflexivity.
Qed.

(** *** Sorting *)

Lemma insert_desc_In (x y : Individual B) (l : list (Individual B)) :
  In y (insert_desc x l) <-> y = x \/ In y l.
Proof.
  induction l as [|z l IH]; cbn [insert_desc In].
  - intuition.
  - destruct (Qlt_bool (fitness x) (fitness z)); cbn [In].
    + rewrite IH. intuition.
    + intuition.
Qed.

Lemma sort_desc_In (y : Individual B) (l : list (Individual B)) :
  In y (sort_desc l) <-> In y l.
Proof.
  induction l as [|x l IH]; cbn [sort_desc fold_right In].
  - reflexivity.
  - fold (sort_desc l). rewrite insert_desc_In, IH. intuition.
Qed.

Lemma insert_desc_descending (x : Individual B) (l : list (Individual B)) :
  descending l -> descending (insert_desc x l).
Proof.
  unfold descending. induction l as [|z l IH]; intro H; cbn [insert_desc].
  - repeat constructor.
  - inversion H as [|? ? Hs Hf]; subst.
    destruct (Qlt_bool (fitness x) (fitness z)) eqn:E.
    + apply Qlt_bool_iff in E. constructor; [now apply IH|].
      apply Forall_forall. intros y Hy.
      apply insert_desc_In in Hy. destruct Hy as [->|Hy].
      * lra.
      * rewrite Forall_forall in Hf. now apply Hf.
    + apply Qlt_bool_false_iff in E. constructor; [exact H|].
      constructor; [exact E|].
      apply Forall_forall. intros y Hy.
      rewrite Forall_forall in Hf. specialize (Hf y Hy). lra.
Qed.

Lemma sort_desc_descending (l : list (Individual B)) :
  descending (sort_desc l).
Proof.
  induction l as [|x l IH]; cbn [sort_desc fold_right].
  - constructor.
  - now apply insert_desc_descending.
Qed.

Lemma sort_desc_top (l : list (Individual B)) (top : Individual B)
  (rest : list (Individual B)) :
  sort_desc l = top :: rest ->
  In top l /\ forall ind, In ind l -> fitness ind <= fitness top.
Proof.
  intro E. split.
  - apply sort_desc_In. rewrite E. now left.
  - intros ind Hin. apply sort_desc_In in Hin. rewrite E in Hin.
    pose proof (sort_desc_descending l) as Hd. unfold descending in Hd.
    rewrite E in Hd. inversion Hd as [|? ? _ Hf]; subst.
    destruct Hin as [<-|Hin]; [lra|].
    rewrite Forall_forall in Hf. now apply Hf.
Qed.

(** *** One generation *)

Lemma track_best_spec (best : option (Individual B)) (top : Individual B) :
  exists b',
    track_best best top = Some b' /\
    match best with
    | None => b' = top
    | Some b =>
        (fitness b < fitness top -> b' = top) /\
        (fitness top <= fitness b -> b' = b) /\
        fitness b <= fitness b'
    end.
Proof.
  unfold track_best. destruct best as [b|].
  - destruct (Qlt_bool (fitness b) (fitness top)) eqn:E.
    + apply Qlt_bool_iff in E. eexists. split; [reflexivity|].
      destruct top; cbn [fitness] in *. repeat split; intros; lra.
    + apply Qlt_bool_false_iff in E. exists b. split; [reflexivity|].
      repeat split; intros; lra.
  - eexists. split; [reflexivity|]. now destruct top.
Qed.

(** What a successful call of [evolve] leaves in the state. *)
Lemma evolve_inv (obj : list Gene -> ObjectiveResult B)
  (ga ga' : GeneticAlgorithm B) (rng rng' : Rng) :
  evolve obj ga rng = Some (ga', rng') ->
  exists top rest,
    sort_desc (map (fun ind => evaluateFitness (constraints ga) ind obj)
                   (population ga)) = top :: rest /\
    bestIndividual ga' = track_best (bestIndividual ga) top /\
    fitnessHistory ga' = fitnessHistory ga ++ [fitness top] /\
    generation ga' = S (generation ga) /\
    config ga' = config ga /\
    constraints ga' = constraints ga.
Proof.
  unfold evolve. cbv zeta.
  destruct (sort_desc _) as [|top rest] eqn:Es; [discriminate|].
  unfold bind at 1. destruct (mapM _ _ rng) as [[elites rng1]|]; [|discriminate].
  unfold bind at 1.
  destruct (offspring_loop _ _ _ _ rng1) as [[next rng2]|]; [|discriminate].
  unfold ret. intro H. injection H as <- <-.
  exists top, rest. cbn. repeat split; reflexivity.
Qed.

(** *** [evolve] runs on every runnable state *)

Lemma random_index_lt (r : Draw) (len : nat) :
  (0 < len)%nat -> (random_index r len < len)%nat.
Proof.
  intro Hlen. destruct (draw_bounds r) as [H0 H1]. unfold random_index.
  set (n := inject_Z (Z.of_nat len)).
  assert (Hn : 0 < n).
  { unfold n. change 0 with (inject_Z 0). rewrite <- Zlt_Qlt. lia. }
  assert (Hx0 : 0 <= r * n) by (apply Qmult_le_0_compat; lra).
  assert (Hx1 : r * n < n).
  { setoid_replace n with (1 * n) at 2 by ring.
    apply Qmult_lt_compat_r; assumption. }
  assert (Hf0 : (0 <= Qfloor (r * n))%Z).
  { change 0%Z with (Qfloor 0). now apply Qfloor_resp_le. }
  assert (Hf1 : (Qfloor (r * n) < Z.of_nat len)%Z).
  { rewrite Zlt_Qlt. eapply Qle_lt_trans; [apply Qfloor_le | exact Hx1]. }
  lia.
Qed.

Lemma tournament_loop_runs (pop : list (Individual B)) :
  pop <> [] ->
  forall (n : nat) (best : option (Individual B)) (rng : Rng),
    (forall b, best = Some b -> In b pop) ->
    exists res rng',
      tournament_loop n pop best rng = Some (res, rng') /\
      (forall b, res = Some b -> In b pop) /\
      ((1 <= n)%nat \/ best <> None -> res <> None).
Proof.
  intros Hpop n. induction n as [|n IH]; intros best rng Hbest.
  - exists best, rng. split; [reflexivity|]. split; [exact Hbest|].
    intros [H|H]; [lia | exact H].
  - cbn [tournament_loop]. unfold bind at 1, random at 1.
    set (rng1 := {| stream := stream rng; cursor := S (cursor rng) |}).
    assert (Hlen : (0 < List.length pop)%nat)
      by (destruct pop; [congruence | cbn; lia]).
    pose proof (random_index_lt (stream rng (cursor rng)) _ Hlen) as Hi.
    destruct (nth_error pop (random_index (stream rng (cursor rng))
                                          (List.length pop)))
      as [c|] eqn:Ec; [|apply nth_error_None in Ec; lia].
    assert (Hc : In c pop) by (eapply nth_error_In; exact Ec).
    destruct best as [b|].
    + destruct (IH (if Qlt_bool (fitness b) (fitness c)
                    then Some c else Some b) rng1)
        as (res & rng' & E & Hin & Hsome).
      { intros b' Hb'. destruct (Qlt_bool _ _); injection Hb' as <-;
          [exact Hc | now apply Hbest]. }
      exists res, rng'. split; [exact E|]. split; [exact Hin|].
      intros _. apply Hsome. right. now destruct (Qlt_bool _ _).
    + destruct (IH (Some c) rng1) as (res & rng' & E & Hin & Hsome).
      { intros b' Hb'. now injection Hb' as <-. }
      exists res, rng'. split; [exact E|]. split; [exact Hin|].
      intros _. apply Hsome. right. discriminate.
Qed.

Lemma crossover_gene_runs (cfg : GAConfig) (g1 g2 : Gene) (rng : Rng) :
  exists g rng', crossover_gene cfg g1 (Some g2) rng = Some (g, rng').
Proof.
  unfold crossover_gene, bind, random, ret.
  destruct (Qlt_bool _ _); eexists _, _; reflexivity.
Qed.

Lemma crossover_loop_runs (cfg : GAConfig) (genes2 : list Gene) :
  forall (genes1 : list Gene) (i : nat) (rng : Rng),
    (i + List.length genes1 <= List.length genes2)%nat ->
    exists gs rng',
      crossover_loop cfg i genes1 (Some genes2) rng = Some (gs, rng') /\
      List.length gs = List.length genes1.
Proof.
  induction genes1 as [|g1 rest IH]; intros i rng Hlen.
  - exists [], rng. now split.
  - cbn [List.length] in Hlen.
    destruct (nth_error genes2 i) as [g2|] eqn:E2;
      [|apply nth_error_None in E2; lia].
    destruct (crossover_gene_runs cfg g1 g2 rng) as (g & rng1 & Eg).
    destruct (IH (S i) rng1) as (gs & rng2 & Egs & Hl); [lia|].
    exists (g :: gs), rng2. split.
    + cbn [crossover_loop]. rewrite E2.
      unfold bind at 1. rewrite Eg. unfold bind at 1. now rewrite Egs.
    + cbn [List.length]. now rewrite Hl.
Qed.

Lemma mutate_gene_runs (cfg : GAConfig) (gene : Gene) (rng : Rng) :
  exists gene' rng',
    mutate_gene cfg gene rng = Some (gene', rng') /\ name gene' = name gene.
Proof.
  unfold mutate_gene, bind, random, ret.
  destruct (Qlt_bool _ _); eexists _, _; split; reflexivity.
Qed.

Lemma mutate_runs (cfg : GAConfig) (ind : Individual B) (rng : Rng) :
  exists mutant rng',
    mutate cfg ind rng = Some (mutant, rng') /\
    List.length (genes mutant) = List.length (genes ind).
Proof.
  destruct (mapM_Forall (mutate_gene cfg) (fun _ => True)
              (fun g g' => name g' = name g)
              (fun a r _ => mutate_gene_runs cfg a r) (genes ind) rng)
    as (gs & rng' & E & HF).
  { now apply Forall_forall. }
  eexists _, rng'. unfold mutate, bind. rewrite E.
  split; [reflexivity|]. cbn [genes]. symmetry.
  exact (Forall2_length HF).
Qed.

(** One offspring: two tournaments, a crossover and a mutation. *)
Lemma offspring_loop_runs (cfg : GAConfig) (pop : list (Individual B))
  (k : nat) :
  pop <> [] -> (1 <= loop_count (tournamentSize cfg))%nat ->
  uniform k pop ->
  forall (n : nat) (next : list (Individual B)) (rng : Rng),
    uniform k next ->
    exists next' rng',
      offspring_loop n cfg pop next rng = Some (next', rng') /\
      List.length next' = (List.length next + n)%nat /\
      uniform k next'.
Proof.
  intros Hpop Ht Hu n. induction n as [|n IH]; intros next rng Hnext.
  - exists next, rng. split; [reflexivity|]. split; [lia | exact Hnext].
  - cbn [offspring_loop]. unfold tournamentSelection.
    destruct (tournament_loop_runs pop Hpop
                (loop_count (tournamentSize cfg)) None rng)
      as (r1 & rng1 & E1 & In1 & S1); [discriminate|].
    destruct r1 as [p1|]; [|exfalso; apply S1; [now left | reflexivity]].
    destruct (tournament_loop_runs pop Hpop
                (loop_count (tournamentSize cfg)) None rng1)
      as (r2 & rng2 & E2 & In2 & S2); [discriminate|].
    destruct r2 as [p2|]; [|exfalso; apply S2; [now left | reflexivity]].
    unfold uniform in Hu. rewrite Forall_forall in Hu.
    pose proof (Hu p1 (In1 p1 eq_refl)) as L1.
    pose proof (Hu p2 (In2 p2 eq_refl)) as L2.
    destruct (crossover_loop_runs cfg (genes p2) (genes p1) 0 rng2)
      as (gs & rng3 & Ec & Lc); [cbn; lia|].
    set (child := mkIndividual (BufferGeometry := B) gs 0 None None None).
    destruct (mutate_runs cfg child rng3) as (m & rng4 & Em & Lm).
    destruct (IH (next ++ [m]) rng4) as (next' & rng5 & El & Ll & Ul).
    { unfold uniform. apply Forall_app. split; [exact Hnext|].
      constructor; [|constructor]. rewrite Lm. cbn [genes child]. lia. }
    exists next', rng5. split; [|split; [|exact Ul]].
    + unfold bind at 1. rewrite E1. unfold bind at 1. rewrite E2.
      unfold bind at 1. unfold crossover, bind at 1. cbn [option_map].
      rewrite Ec. unfold ret at 1. fold child.
      unfold bind at 1. rewrite Em. exact El.
    + rewrite Ll, length_app. cbn [List.length]. lia.
Qed.

Lemma insert_desc_length (x : Individual B) (l : list (Individual B)) :
  List.length (insert_desc x l) = S (List.length l).
Proof.
  induction l as [|y l IH]; cbn [insert_desc List.length]; [reflexivity|].
  destruct (Qlt_bool _ _); cbn [List.length]; now rewrite ?IH.
Qed.

Lemma sort_desc_length (l : list (Individual B)) :
  List.length (sort_desc l) = List.length l.
Proof.
  induction l as [|x l IH]; cbn [sort_desc fold_right List.length];
    [reflexivity|].
  fold (sort_desc l). now rewrite insert_desc_length, IH.
Qed.

Lemma elites_run (k : nat) (sorted : list (Individual B)) (e : nat)
  (rng : Rng) :
  (e <= List.length sorted)%nat -> uniform k sorted ->
  exists elites,
    mapM (elite sorted) (seq 0 e) rng = Some (elites, rng) /\
    List.length elites = e /\ uniform k elites.
Proof.
  intros He Hu.
  assert (H : forall (l : list nat) (r : Rng),
             Forall (fun i => (i < List.length sorted)%nat) l ->
             exists elites,
               mapM (elite sorted) l r = Some (elites, r) /\
               List.length elites = List.length l /\ uniform k elites).
  { induction l as [|i l IH]; intros r Hl.
    - exists []. repeat split. constructor.
    - inversion Hl as [|? ? Hi Hl']; subst.
      destruct (nth_error sorted i) as [ind|] eqn:E;
        [|apply nth_error_None in E; lia].
      destruct (IH r Hl') as (es & Ees & Les & Ues).
      eexists (_ :: es). split; [|split].
      + cbn [mapM]. unfold bind at 1, elite at 1. rewrite E.
        unfold ret at 1. unfold bind at 1. rewrite Ees. reflexivity.
      + cbn [List.length]. now rewrite Les.
      + constructor; [|exact Ues]. cbn [genes].
        unfold uniform in Hu. rewrite Forall_forall in Hu.
        apply Hu. eapply nth_error_In; exact E. }
  destruct (H (seq 0 e) rng) as (es & Ees & Les & Ues).
  { apply Forall_forall. intros i Hi. apply in_seq in Hi. lia. }
  exists es. rewrite length_seq in Les. auto.
Qed.

(** On a runnable state [evolve] returns: it throws no [TypeError], leaves
    a runnable state, and the new population has
    [max(populationSize, elitismCount)] individuals. *)
Lemma evolve_runs (obj : list Gene -> ObjectiveResult B)
  (ga : GeneticAlgorithm B) (rng : Rng) :
  runnable ga ->
  exists ga' rng',
    evolve obj ga rng = Some (ga', rng') /\
    runnable ga' /\
    List.length (population ga')
    = Nat.max (loop_count (populationSize (config ga)))
              (loop_count (elitismCount (config ga))).
Proof.
  intros (Hpop & He & Ht & Hnext & k & Hu).
  unfold evolve. cbv zeta.
  set (evaluated := map (fun ind => evaluateFitness (constraints ga) ind obj)
                        (population ga)).
  assert (Hue : uniform k evaluated).
  { unfold uniform, evaluated. apply Forall_map.
    unfold uniform in Hu. eapply Forall_impl; [|exact Hu].
    intros ind H. exact H. }
  assert (Hus : uniform k (sort_desc evaluated)).
  { unfold uniform in *. rewrite Forall_forall in *.
    intros ind Hin. apply Hue. now apply sort_desc_In. }
  assert (Hls : List.length (sort_desc evaluated)
                = List.length (population ga))
    by (unfold evaluated; now rewrite sort_desc_length, length_map).
  destruct (sort_desc evaluated) as [|top rest] eqn:Es.
  { destruct (population ga); [congruence | discriminate]. }
  rewrite <- Es in *.
  destruct (elites_run k (sort_desc evaluated)
              (loop_count (elitismCount (config ga))) rng)
    as (elites & Eel & Lel & Uel); [lia | exact Hus |].
  destruct (offspring_loop_runs (config ga) (sort_desc evaluated) k
              ltac:(rewrite Es; discriminate) Ht Hus
              (loop_count (populationSize (config ga)) - List.length elites)
              elites rng Uel)
    as (next & rng' & En & Ln & Un).
  eexists _, rng'. unfold bind at 1. rewrite Eel.
  unfold bind at 1. rewrite En. split; [reflexivity|].
  cbn [population config]. rewrite Ln, Lel. split; [|lia].
  unfold runnable. cbn [population config].
  repeat split; try assumption; try lia.
  - intro E. rewrite E in Ln. cbn in Ln. lia.
  - now exists k.
Qed.

(** Hence any number of generations runs from a runnable state. *)
Lemma generations_run (obj : list Gene -> ObjectiveResult B) (n : nat)
  (ga : GeneticAlgorithm B) (rng : Rng) :
  runnable ga ->
  exists ga' rng',
    generations n obj ga rng = Some (ga', rng') /\ runnable ga'.
Proof.
  intro Hr. induction n as [|n IH].
  - now exists ga, rng.
  - destruct IH as (ga1 & rng1 & E1 & R1).
    destruct (evolve_runs obj ga1 rng1 R1) as (ga2 & rng2 & E2 & R2 & _).
    exists ga2, rng2. cbn [generations]. unfold bind. rewrite E1.
    now split.
Qed.

(** C2.  [evolve] replaces the best-so-far record only when the top
    fitness of the population it has just evaluated is strictly greater
    than the recorded best fitness (or when there is no record yet), so
    the best-so-far fitness after a generation is at least what it was
    before, for every objective function and every source of randomness;
    and on every runnable state [evolve] does return. *)
Theorem evolve_best_monotone :
  forall (obj : list Gene -> ObjectiveResult B)
         (ga : GeneticAlgorithm B) (rng : Rng),
    (runnable ga ->
     exists ga' rng', evolve obj ga rng = Some (ga', rng')) /\
    (forall (ga' : GeneticAlgorithm B) (rng' : Rng),
       evolve obj ga rng = Some (ga', rng') ->
       exists top b',
         hd_error
           (sort_desc
              (map (fun ind => evaluateFitness (constraints ga) ind obj)
                   (population ga))) = Some top /\
         (forall ind, In ind (population ga) ->
            fitness (evaluateFitness (constraints ga) ind obj)
            <= fitness top) /\
         bestIndividual ga' = Some b' /\
         match bestIndividual ga with
         | None => b' = top
         | Some b =>
             (fitness b < fitness top -> b' = top) /\
             (fitness top <= fitness b -> b' = b) /\
             fitness b <= fitness b'
         end).
Proof.
  intros obj ga rng. split.
  - intro Hr. destruct (evolve_runs obj ga rng Hr) as (ga' & rng' & E & _).
    now exists ga', rng'.
  - intros ga' rng' H.
    destruct (evolve_inv obj ga ga' rng rng' H)
      as (top & rest & Es & Eb & _).
    destruct (track_best_spec (bestIndividual ga) top) as (b' & Et & Hb).
    exists top, b'. rewrite Es. cbn [hd_error].
    split; [reflexivity|]. split; [|split; [congruence | exact Hb]].
    intros ind Hin. destruct (sort_desc_top _ _ _ Es) as [_ Hmax].
    apply Hmax.
    exact (in_map (fun i => evaluateFitness (constraints ga) i obj) _ _ Hin).
Qed.

(** Over any number of generations the best-so-far fitness never
    decreases. *)
Lemma generations_best_monotone (obj : list Gene -> ObjectiveResult B)
  (n : nat) (ga ga2 : GeneticAlgorithm B) (rng rng2 : Rng) :
  generations (S n) obj ga rng = Some (ga2, rng2) ->
  exists ga1 rng1 b2,
    generations n obj ga rng = Some (ga1, rng1) /\
    bestIndividual ga2 = Some b2 /\
    forall b1, bestIndividual ga1 = Some b1 -> fitness b1 <= fitness b2.
Proof.
  cbn [generations]. unfold bind at 1.
  destruct (generations n obj ga rng) as [[ga1 rng1]|]; [|discriminate].
  intro H. destruct (evolve_inv obj ga1 ga2 rng1 rng2 H)
    as (top & rest & _ & Eb & _).
  destruct (track_best_spec (bestIndividual ga1) top) as (b2 & Et & Hb).
  exists ga1, rng1, b2. split; [reflexivity|]. split; [congruence|].
  intros b1 E1. rewrite E1 in Hb. tauto.
Qed.

(** *** Initialisation *)

Lemma random_gene_spec (t : Gene) (rng : Rng) :
  exists g,
    random_gene t rng = Some (g, advance 1 rng) /\
    name g = name t /\ min g = min t /\ max g = max t /\
    value g = min t + stream rng (cursor rng) * (max t - min t) /\
    (min t <= max t -> in_bounds g).
Proof.
  eexists. unfold random_gene, bind, random, ret. cbn [stream cursor].
  split; [reflexivity|]. cbn [name min max value]. repeat split.
  - destruct (draw_bounds (stream rng (cursor rng))) as [H0 H1].
    assert (P : 0 <= stream rng (cursor rng) * (max t - min t))
      by (apply Qmult_le_0_compat; lra).
    cbn [value min]. lra.
  - destruct (draw_bounds (stream rng (cursor rng))) as [H0 H1].
    assert (P : 0 <= (1 - stream rng (cursor rng)) * (max t - min t))
      by (apply Qmult_le_0_compat; lra).
    cbn [value max]. lra.
Qed.

Lemma random_gene_drawn (t : Gene) (rng : Rng) :
  exists g rng', random_gene t rng = Some (g, rng') /\ drawn_from t g.
Proof.
  destruct (random_gene_spec t rng) as (g & E & Hn & Hl & Hh & _ & Hb).
  exists g, (advance 1 rng). split; [exact E|].
  unfold drawn_from. auto.
Qed.

Lemma init_loop_spec (geneTemplate : list Gene) (n : nat) :
  forall (pop : list (Individual B)) (rng : Rng),
    exists news rng',
      init_loop n geneTemplate pop rng = Some (pop ++ news, rng') /\
      List.length news = n /\ Forall (fresh geneTemplate) news.
Proof.
  induction n as [|n IH]; intros pop rng.
  - exists [], rng. rewrite app_nil_r. repeat split. constructor.
  - destruct (mapM_Forall random_gene (fun _ => True) drawn_from
                (fun t r _ => random_gene_drawn t r) geneTemplate rng)
      as (gs & rng1 & Eg & Hg).
    { now apply Forall_forall. }
    set (ind := mkIndividual (BufferGeometry := B) gs 0 None None None).
    destruct (IH (pop ++ [ind]) rng1) as (news & rng2 & E & Hl & Hf).
    exists (ind :: news), rng2. split; [|split].
    + cbn [init_loop]. unfold bind at 1. rewrite Eg. fold ind. rewrite E.
      now rewrite <- app_assoc.
    + cbn [List.length]. now rewrite Hl.
    + constructor; [|exact Hf]. now repeat split.
Qed.

(** What [initializePopulation] does to the state: it resets the
    generation counter and the fitness history, fills the population with
    [populationSize] fresh individuals, and leaves the best-so-far record
    (and the configuration and the constraints) as they were. *)
Lemma initializePopulation_spec (geneTemplate : list Gene)
  (ga : GeneticAlgorithm B) (rng : Rng) :
  exists ga' rng',
    initializePopulation geneTemplate ga rng = Some (ga', rng') /\
    generation ga' = 0%nat /\
    fitnessHistory ga' = [] /\
    List.length (population ga') = loop_count (populationSize (config ga)) /\
    Forall (fresh geneTemplate) (population ga') /\
    bestIndividual ga' = bestIndividual ga /\
    config ga' = config ga /\
    constraints ga' = constraints ga.
Proof.
  destruct (init_loop_spec geneTemplate
              (loop_count (populationSize (config ga))) [] rng)
    as (news & rng' & E & Hl & Hf).
  eexists _, rng'. unfold initializePopulation, bind. rewrite E.
  split; [reflexivity|]. cbn. repeat split; assumption.
Qed.


End Facts.

(** *** Runs on concrete inputs *)

Import Examples.

Lemma evaluateFitness_subtracts_penalties_witness :
  fitness (evaluateFitness [min10 7] (bare 0) (flat_objective 1000)) == 700 /\
  fitness (evaluateFitness [min10 12] (bare 0) (flat_objective 1000)) == 1000.
Proof.
  pose proof (evaluateFitness_subtracts_penalties unit [min10 7] (bare 0)
                (flat_objective 1000)) as [_ [_ H7]].
  pose proof (evaluateFitness_subtracts_penalties unit [min10 12] (bare 0)
                (flat_objective 1000)) as [_ [_ H12]].
  split.
  - destruct (H7 (min10 7) eq_refl (Qeq_refl _) (Qeq_refl _)) as [H _].
    rewrite (H (Qeq_refl _)). reflexivity.
  - destruct (H12 (min10 12) eq_refl (Qeq_refl _) (Qeq_refl _)) as [_ H].
    rewrite (H (Qeq_refl _)). reflexivity.
Defined.

Lemma ga_0_runnable : runnable ga_0.
Proof.
  unfold runnable. cbn [population ga_0 config].
  split; [discriminate|].
  split; [vm_compute; lia|]. split; [vm_compute; lia|].
  split; [vm_compute; lia|].
  exists 3%nat. repeat constructor.
Qed.

Lemma ga_1_runnable : runnable ga_1.
Proof.
  unfold runnable.
  split; [vm_compute; discriminate|].
  split; [vm_compute; lia|]. split; [vm_compute; lia|].
  split; [vm_compute; lia|].
  exists 3%nat. vm_compute. repeat constructor.
Qed.

(** Two generations with a record in place: from [ga_1] the top fitness
    equals the recorded best and the record is kept; from [ga_flat] the
    top fitness is strictly greater than the recorded best and the record
    is replaced by the top individual. *)
Lemma evolve_best_monotone_witness :
  (exists ga' rng', evolve slender ga_1 rng_1 = Some (ga', rng')) /\
  (exists top b b',
     hd_error
       (sort_desc (map (fun ind => evaluateFitness (constraints ga_1) ind
                                                   slender)
                       (population ga_1))) = Some top /\
     bestIndividual ga_1 = Some b /\
     bestIndividual ga_2 = Some b' /\
     (fitness b < fitness top -> b' = top) /\
     (fitness top <= fitness b -> b' = b) /\
     fitness b <= fitness b' /\
     fitness top <= fitness b /\ b' = b) /\
  (exists top b b',
     hd_error
       (sort_desc (map (fun ind => evaluateFitness (constraints ga_flat) ind
                                                   slender)
                       (population ga_flat))) = Some top /\
     bestIndividual ga_flat = Some b /\
     bestIndividual ga_up = Some b' /\
     fitness b < fitness top /\ b' = top /\ fitness b < fitness b').
Proof.
  destruct (evolve_best_monotone unit slender ga_1 rng_1) as [Hrun Hbest].
  destruct (evolve_best_monotone unit slender ga_flat rng_flat)
    as [_ Hflat].
  split; [apply Hrun; exact ga_1_runnable|]. split.
  - destruct (Hbest ga_2 rng_2) as (top & b' & Ht & _ & Eb' & Hm);
      [vm_compute; reflexivity|].
    destruct (bestIndividual ga_1) as [b|] eqn:Eb;
      [|vm_compute in Eb; discriminate].
    destruct Hm as (Hup & Hkeep & Hle).
    assert (Hge : fitness top <= fitness b).
    { vm_compute in Ht. injection Ht as <-.
      vm_compute in Eb. injection Eb as <-.
      vm_compute. discriminate. }
    exists top, b, b'. repeat split; try assumption.
    exact (Hkeep Hge).
  - destruct (Hflat ga_up rng_up) as (top & b' & Ht & _ & Eb' & Hm);
      [vm_compute; reflexivity|].
    destruct (bestIndividual ga_flat) as [b|] eqn:Eb;
      [|vm_compute in Eb; discriminate].
    destruct Hm as (Hup & Hkeep & Hle).
    assert (Hlt : fitness b < fitness top).
    { vm_compute in Ht. injection Ht as <-.
      vm_compute in Eb. injection Eb as <-.
      vm_compute. reflexivity. }
    exists top, b, b'. split; [exact Ht|]. split; [reflexivity|].
    split; [exact Eb'|]. split; [exact Hlt|].
    pose proof (Hup Hlt) as Hb'. split; [exact Hb'|].
    now rewrite Hb'.
Defined.

(** The constructor on an all-zero configuration, the mean of an empty and
    of a three-member population. *)
Lemma constructor_zero_falls_back_to_default_witness :
  config (constructor unit
            {| p_populationSize := Some 0; p_mutationRate := Some 0;
               p_crossoverRate := Some 0; p_elitismCount := Some 0;
               p_tournamentSize := Some 0 |})
  = {| populationSize := 50; mutationRate := 0.1; crossoverRate := 0.7;
       elitismCount := 2; tournamentSize := 3 |}.
Proof.
  destruct (constructor_zero_falls_back_to_default unit
              {| p_populationSize := Some 0; p_mutationRate := Some 0;
                 p_crossoverRate := Some 0; p_elitismCount := Some 0;
                 p_tournamentSize := Some 0 |})
    as (H1 & H2 & H3 & H4 & H5 & _).
  cbv zeta in *.
  destruct (config _) as [a b c d e]; cbn in *.
  rewrite (H1 0 eq_refl (Qeq_refl 0)), (H2 0 eq_refl (Qeq_refl 0)),
    (H3 0 eq_refl (Qeq_refl 0)), (H4 0 eq_refl (Qeq_refl 0)),
    (H5 0 eq_refl (Qeq_refl 0)).
  reflexivity.
Defined.



(** C5, on a state that holds a best-so-far record: after
    [initializePopulation] the generation counter is 0 and the history is
    empty, and the record of the previous run is still there. *)
Theorem initializePopulation_keeps_best_record :
  exists ga' rng',
    initializePopulation train_template ga_1 rng_1 = Some (ga', rng') /\
    generation ga' = 0%nat /\
    fitnessHistory ga' = [] /\
    List.length (population ga') = 4%nat /\
    bestIndividual ga' = bestIndividual ga_1 /\
    bestIndividual ga' <> None.
Proof.
  destruct (initializePopulation_spec unit train_template ga_1 rng_1)
    as (ga' & rng' & E & Hg & Hh & Hl & _ & Hb & _).
  exists ga', rng'. split; [exact E|]. split; [exact Hg|].
  split; [exact Hh|]. split; [rewrite Hl; reflexivity|].
  split; [exact Hb|]. rewrite Hb. discriminate.
Qed.

End GeneticFacts.

(** ** Facts about the objective function *)

Module ObjectiveFacts.

Import Lqa QHelp QFacts Genetic Objective.
Local Open Scope Q_scope.

Lemma prefix_iff (n h : string) :
  String.prefix n h = true <-> exists post, h = (n ++ post)%string.
Proof.
  revert h. induction n as [|a n IH]; intro h.
  - split; [intros _; now exists h | now destruct h].
  - destruct h as [|b h]; cbn [String.prefix String.append].
    + split; [discriminate | intros [post H]; discriminate].
    + destruct (Ascii.ascii_dec a b) as [->|Hab].
      * rewrite IH. split; intros [post H]; exists post;
          [now rewrite H | now injection H].
      * split; [discriminate|]. intros [post H]. injection H as H1 H2.
        now elim Hab.
Qed.

(** [includes] is the substring test. *)
Lemma includes_iff (n h : string) :
  includes n h = true <->
  exists pre post, h = (pre ++ n ++ post)%string.
Proof.
  induction h as [|b h IH]; cbn [includes].
  - destruct (String.prefix n "") eqn:E.
    + apply prefix_iff in E. destruct E as [post E].
      split; [intros _; now exists ""%string, post | reflexivity].
    + split; [discriminate|]. intros (pre & post & H).
      destruct pre as [|c pre]; [|discriminate].
      assert (P : String.prefix n "" = true)
        by (apply prefix_iff; now exists post).
      congruence.
  - destruct (String.prefix n (String b h)) eqn:E.
    + apply prefix_iff in E. destruct E as [post E].
      split; [intros _; now exists ""%string, post | reflexivity].
    + rewrite IH. split.
      * intros (pre & post & H). exists (String b pre), post.
        now rewrite H.
      * intros (pre & post & H). destruct pre as [|c pre].
        -- assert (P : String.prefix n (String b h) = true)
             by (apply prefix_iff; now exists post).
           congruence.
        -- injection H as _ H. now exists pre, post.
Qed.

Section Facts.

Variable B : Type.
Variable generate : string -> list Gene -> B.
Variables dragCoefficient liftCoefficient : Q -> Q -> B -> Q -> Q.

(** C8.  The objective function returns the solver's drag and lift
    coefficients and maps them to the fitness by the scenario goal:
    [- Cd] for a goal that says "Minimize drag"; otherwise [Cl / Cd] when
    [|Cd| > 0.001] and the fallback [0] when not, for a goal that says
    "Maximize L/D"; otherwise [- Cl] for a goal that says "Maximize
    downforce"; and [- Cd] for any other goal. *)
Theorem objectiveFunction_fitness_by_goal :
  forall (scenario : Scenario) (geneValues : list Gene),
    let result :=
      objectiveFunction generate dragCoefficient liftCoefficient
                        scenario geneValues in
    let goal := optimizationGoal scenario in
    exists (geometry : B) (cd cl : Q),
      r_geometry result = Some geometry /\
      geometry = generate (baseGeometry scenario) geneValues /\
      r_drag result = Some cd /\
      cd = dragCoefficient (velocity (flowConditions scenario))
             (angleOfAttack (flowConditions scenario)) geometry 1 /\
      r_lift result = Some cl /\
      cl = liftCoefficient (velocity (flowConditions scenario))
             (angleOfAttack (flowConditions scenario)) geometry 1 /\
      (includes "Minimize drag" goal = true -> r_fitness result = - cd) /\
      (includes "Minimize drag" goal = false ->
       includes "Maximize L/D" goal = true ->
       (0.001 < Qabs cd -> r_fitness result = cl / cd) /\
       (Qabs cd <= 0.001 -> r_fitness result = 0)) /\
      (includes "Minimize drag" goal = false ->
       includes "Maximize L/D" goal = false ->
       includes "Maximize downforce" goal = true ->
       r_fitness result = - cl) /\
      (includes "Minimize drag" goal = false ->
       includes "Maximize L/D" goal = false ->
       includes "Maximize downforce" goal = false ->
       r_fitness result = - cd).
Proof.
  intros scenario geneValues result goal.
  eexists _, _, _. repeat (split; [reflexivity|]).
  subst result goal. unfold objectiveFunction, goal_fitness.
  cbn [r_fitness].
  split; [|split; [|split]].
  - intros ->. reflexivity.
  - intros -> ->. split; intro H.
    + apply Qlt_bool_iff in H. now rewrite H.
    + apply Qlt_bool_false_iff in H. now rewrite H.
  - intros -> -> ->. reflexivity.
  - intros -> -> ->. reflexivity.
Qed.

End Facts.

Lemma objectiveFunction_fitness_by_goal_witness :
  r_fitness (objectiveFunction Examples.blank_mesh Examples.half_drag
               Examples.triple_lift Examples.f1_wing [])
  = 3 / (1 # 2).
Proof.
  destruct (objectiveFunction_fitness_by_goal unit Examples.blank_mesh
              Examples.half_drag Examples.triple_lift Examples.f1_wing [])
    as (g & cd & cl & _ & _ & _ & Ed & _ & El & _ & Hld & _).
  cbv zeta in Hld. subst cd cl.
  destruct (Hld eq_refl eq_refl) as [Hbig _].
  apply Hbig. reflexivity.
Defined.

(** The branch each goal of the scenario catalog takes, read off at
    [Cd = 1/2] and [Cl = 3]: drag, L/D, drag, default, default, L/D,
    downforce, default, drag, drag. *)
Lemma catalog_goals_fitness :
  map (fun goal => Qred (goal_fitness goal (1 # 2) 3)) catalog_goals
  = [ -(1 # 2); 6; -(1 # 2); -(1 # 2); -(1 # 2); 6; -3; -(1 # 2);
      -(1 # 2); -(1 # 2) ].
Proof. vm_compute. reflexivity. Qed.

End ObjectiveFacts.

(** ** Facts about the mesh generators *)

Module GeometryFacts.

Import Lra Genetic Geometry Examples.
Local Open Scope nat_scope.

(** *** Index buffers *)










(** *** The wing *)



(** *** The ogive *)









(** *** The Ahmed body *)




(** *** The generator selected by the shape family *)




End GeometryFacts.

(** ** Facts about the panel-method solver *)

Module CFDFacts.

Import Stdlib.Floats.Floats.
Import CFD.
Local Open Scope float_scope.
Set Warnings "-inexact-float".

(** *** Non-finite values and zeros *)

Lemma not_finite_of_spec (x : float) :
  Prim2SF x = S754_nan \/ (exists s, Prim2SF x = S754_infinity s) ->
  is_finite x = false.
Proof.
  intro H. unfold is_finite, is_nan, is_infinity.
  rewrite !eqb_spec, abs_spec.
  destruct H as [-> | [s ->]]; [reflexivity | now destruct s].
Qed.

Lemma finite_spec (x : float) :
  is_finite x = true ->
  (exists s, Prim2SF x = S754_zero s) \/
  (exists s m e, Prim2SF x = S754_finite s m e).
Proof.
  unfold is_finite, is_nan, is_infinity.
  rewrite !eqb_spec, abs_spec.
  change (Prim2SF infinity) with (S754_infinity false).
  destruct (Prim2SF x) as [s| s | | s m e].
  - left. now exists s.
  - now destruct s.
  - discriminate.
  - right. now exists s, m, e.
Qed.

Lemma eqb_zero_spec (z : float) : (z =? 0) = true -> zeroish z.
Proof.
  unfold zeroish. rewrite eqb_spec.
  change (Prim2SF 0) with (S754_zero false).
  destruct (Prim2SF z) as [s| s | | s m e]; cbn; try discriminate.
  - intros _. now exists s.
  - now destruct s.
  - now destruct s.
Qed.

Lemma sub_self_zeroish (x : float) : is_finite x = true -> zeroish (x - x).
Proof.
  intro H. unfold zeroish. rewrite sub_spec.
  destruct (finite_spec x H) as [[s ->] | (s & m & e & ->)].
  - exists false. now destruct s.
  - exists false. unfold SF64sub, SFsub. cbv zeta.
    now rewrite Z.sub_diag.
Qed.

Lemma mul_zeroish (a b : float) : zeroish a -> zeroish b -> zeroish (a * b).
Proof.
  intros [sa Ea] [sb Eb]. unfold zeroish. rewrite mul_spec, Ea, Eb.
  now eexists.
Qed.

Lemma add_zeroish (a b : float) : zeroish a -> zeroish b -> zeroish (a + b).
Proof.
  intros [sa Ea] [sb Eb]. unfold zeroish. rewrite add_spec, Ea, Eb.
  destruct sa, sb; now eexists.
Qed.

Lemma sqrt_zeroish (a : float) : zeroish a -> zeroish (sqrt a).
Proof.
  intros [sa Ea]. unfold zeroish. rewrite sqrt_spec, Ea. now eexists.
Qed.

Lemma epsilon_not_below_zero (a : float) : zeroish a -> (0.001 <? a) = false.
Proof.
  intros [sa Ea]. rewrite ltb_spec, Ea. reflexivity.
Qed.

(** A point with finite coordinates is at distance zero from itself. *)
Lemma distanceTo_self (p : Vector3) :
  is_finite (vx p) = true -> is_finite (vy p) = true ->
  is_finite (vz p) = true ->
  zeroish (distanceTo p p).
Proof.
  intros Hx Hy Hz. unfold distanceTo, vlength, lengthSq, subVectors.
  cbn [vx vy vz].
  pose proof (sub_self_zeroish _ Hx) as Zx.
  pose proof (sub_self_zeroish _ Hy) as Zy.
  pose proof (sub_self_zeroish _ Hz) as Zz.
  apply sqrt_zeroish. repeat apply add_zeroish; now apply mul_zeroish.
Qed.

(** Dividing by zero yields NaN or an infinity, whatever the dividend. *)
Lemma div_zero_spec (l z : float) :
  (z =? 0) = true ->
  Prim2SF (l / z) = S754_nan \/ (exists s, Prim2SF (l / z) = S754_infinity s).
Proof.
  intro Hz. destruct (eqb_zero_spec z Hz) as [sz Ez].
  rewrite div_spec, Ez. unfold SF64div, SFdiv.
  destruct (Prim2SF l) as [s| s | | s m e]; eauto.
Qed.

(** [1 - r * r] is not finite when [r] is not. *)
Lemma one_minus_square_not_finite (r : float) :
  Prim2SF r = S754_nan \/ (exists s, Prim2SF r = S754_infinity s) ->
  is_finite (1 - r * r) = false.
Proof.
  intro H. apply not_finite_of_spec.
  rewrite sub_spec, mul_spec. unfold SF64sub, SF64mul.
  destruct H as [-> | [s ->]].
  - left. reflexivity.
  - right. exists true. cbn. now destruct s.
Qed.

(** *** The two guards of [solve] *)

Lemma induce_skips (s : PanelMethodSolver) (point inducedVelocity : Vector3)
  (panel : Panel) :
  (0.001 <? distanceTo point (center panel)) = false ->
  induce s point inducedVelocity panel = inducedVelocity.
Proof.
  unfold induce, distanceTo. cbv zeta. now intros ->.
Qed.

Lemma induce_adds (s : PanelMethodSolver) (point inducedVelocity : Vector3)
  (panel : Panel) :
  (0.001 <? distanceTo point (center panel)) = true ->
  induce s point inducedVelocity panel
  = let r := subVectors point (center panel) in
    let distance := vlength r in
    vadd inducedVelocity
         (multiplyScalar
            (crossVectors (normal panel) r)
            (dot (freestream s) (normal panel) * area panel
             / (distance * distance * distance))).
Proof.
  unfold induce, distanceTo. cbv zeta. now intros ->.
Qed.

Lemma Cp_still (s : PanelMethodSolver) (g : BufferGeometry)
  (panels : list Panel) (i : nat) :
  (vlength (freestream s) =? 0) = true ->
  is_finite (Cp s g panels i) = false.
Proof.
  intro Hz. unfold Cp. cbv zeta.
  apply one_minus_square_not_finite, div_zero_spec, Hz.
Qed.

(** What [new PanelMethodSolver(0)] builds, for any cosine and sine that
    are exact at 0. *)
Lemma constructor_still (Math_cos Math_sin : float -> float) :
  Math_cos 0 = 1 -> Math_sin 0 = 0 ->
  constructor Math_cos Math_sin 0 0 1.225 1e6 = still_solver.
Proof.
  intros Hc Hs. unfold constructor, still_solver.
  change (0 * Math_PI / 180) with 0. cbv zeta. rewrite Hc, Hs.
  reflexivity.
Qed.

(** C7 (as amended).  The induced velocity at a vertex skips every panel
    whose centroid is not farther than [0.001] from the vertex, a centroid
    that coincides with the vertex included, so no contribution is
    divided by a zero distance.  The division by the freestream speed is
    not guarded: when that speed is zero, every pressure coefficient
    [solve] returns is NaN or an infinity. *)
Theorem solve_guards_distance_only :
  (forall (s : PanelMethodSolver) (point inducedVelocity : Vector3)
          (panel : Panel),
     ((0.001 <? distanceTo point (center panel)) = false ->
      induce s point inducedVelocity panel = inducedVelocity) /\
     (center panel = point ->
      is_finite (vx point) = true -> is_finite (vy point) = true ->
      is_finite (vz point) = true ->
      induce s point inducedVelocity panel = inducedVelocity)) /\
  (forall (s : PanelMethodSolver) (g : BufferGeometry),
     (vlength (freestream s) =? 0) = true ->
     Forall (fun cp => is_finite cp = false)
            (pressureCoefficients (solve s g))).
Proof.
  split.
  - intros s point acc panel. split; [apply induce_skips|].
    intros E Hx Hy Hz. apply induce_skips. rewrite E.
    apply epsilon_not_below_zero. now apply distanceTo_self.
  - intros s g Hz. unfold solve. cbn [pressureCoefficients].
    apply Forall_forall. intros cp Hin. apply in_map_iff in Hin.
    destruct Hin as (i & <- & _). now apply Cp_still.
Qed.

(** C7, as the specification states it, fails: in still air the solver
    returns NaN for every pressure coefficient of a one-triangle mesh, and
    for its drag and lift. *)
Lemma still_air_counterexample :
  pressureCoefficients (solve still_solver one_triangle) = [nan; nan; nan] /\
  is_nan (drag (solve still_solver one_triangle)) = true /\
  is_nan (lift (solve still_solver one_triangle)) = true /\
  is_nan (calculateDragCoefficient still_solver one_triangle 1) = true.
Proof. vm_compute. repeat split. Qed.

Lemma solve_guards_distance_only_witness :
  induce still_solver (mkVector3 1 2 3) vzero
         (mkPanel (mkVector3 1 2 3) (mkVector3 0 0 1) 0.5) = vzero /\
  Forall (fun cp => is_finite cp = false)
         (pressureCoefficients (solve still_solver one_triangle)).
Proof.
  destruct solve_guards_distance_only as [Hd Hs].
  split.
  - apply (proj2 (Hd still_solver (mkVector3 1 2 3) vzero
                     (mkPanel (mkVector3 1 2 3) (mkVector3 0 0 1) 0.5)));
      reflexivity.
  - apply Hs. reflexivity.
Defined.

End CFDFacts.

(** ** Further facts about runs of the optimizer *)

Module RunFacts.

Import Lqa QHelp QFacts Genetic GeneticFacts Run Page Examples.
Local Open Scope Q_scope.

Section Facts.

Variable B : Type.

(** *** The elitism loop and the offspring loop *)

Lemma Forall2_nth_error_pair {X Y : Type} (R : X -> Y -> Prop)
  (l : list X) (l' : list Y) (i : nat) (a : X) (b : Y) :
  Forall2 R l l' -> nth_error l i = Some a -> nth_error l' i = Some b ->
  R a b.
Proof.
  intro H. revert i. induction H as [|x y l l' Hxy _ IH]; intros [|i] Ha Hb;
    cbn in Ha, Hb; try discriminate.
  - injection Ha as <-. injection Hb as <-. exact Hxy.
  - exact (IH i Ha Hb).
Qed.

Lemma mapM_elite_inv (sorted : list (Individual B)) :
  forall (l : list nat) (rng rng' : Rng) (es : list (Individual B)),
    mapM (elite sorted) l rng = Some (es, rng') ->
    rng' = rng /\
    Forall2 (fun i e => exists ind,
                 nth_error sorted i = Some ind /\ e = carried ind) l es.
Proof.
  induction l as [|i l IH]; intros rng rng' es E.
  - cbn in E. unfold ret in E. injection E as <- <-. split; constructor.
  - cbn [mapM] in E. unfold bind at 1, elite at 1 in E.
    destruct (nth_error sorted i) as [ind|] eqn:Ei; [|discriminate].
    unfold ret at 1 in E. unfold bind at 1 in E.
    destruct (mapM (elite sorted) l rng) as [[es0 r0]|] eqn:El;
      [|discriminate].
    unfold ret in E. injection E as <- <-.
    destruct (IH rng r0 es0 El) as [-> HF].
    split; [reflexivity|]. constructor; [|exact HF].
    exists ind. now split.
Qed.

Lemma mapM_elite_runs (sorted : list (Individual B)) :
  forall (l : list nat) (rng : Rng),
    Forall (fun i => (i < List.length sorted)%nat) l ->
    exists es, mapM (elite sorted) l rng = Some (es, rng) /\
               List.length es = List.length l.
Proof.
  induction l as [|i l IH]; intros rng Hl.
  - exists []. now split.
  - inversion Hl as [|? ? Hi Hl']; subst.
    destruct (nth_error sorted i) as [ind|] eqn:Ei;
      [|apply nth_error_None in Ei; lia].
    destruct (IH rng Hl') as (es & Ees & Les).
    exists (carried ind :: es). split.
    + cbn [mapM]. unfold bind at 1, elite at 1. rewrite Ei.
      unfold ret at 1. unfold bind at 1. rewrite Ees. reflexivity.
    + cbn [List.length]. now rewrite Les.
Qed.

Lemma mapM_elite_throws (sorted : list (Individual B)) :
  forall (l : list nat) (rng : Rng),
    Exists (fun i => (List.length sorted <= i)%nat) l ->
    mapM (elite sorted) l rng = None.
Proof.
  induction l as [|i l IH]; intros rng Hl.
  - inversion Hl.
  - cbn [mapM]. unfold bind at 1, elite at 1.
    destruct (nth_error sorted i) as [ind|] eqn:Ei; [|reflexivity].
    unfold ret at 1. unfold bind at 1.
    inversion Hl as [? ? Hi|? ? Hl']; subst.
    + apply nth_error_None in Hi. congruence.
    + now rewrite (IH rng Hl').
Qed.

Lemma offspring_loop_extends (cfg : GAConfig) (pop : list (Individual B)) :
  forall (n : nat) (next next' : list (Individual B)) (rng rng' : Rng),
    offspring_loop n cfg pop next rng = Some (next', rng') ->
    exists more, next' = next ++ more /\ List.length more = n.
Proof.
  induction n as [|n IH]; intros next next' rng rng' E.
  - cbn in E. unfold ret in E. injection E as <- _.
    exists []. now rewrite app_nil_r.
  - cbn [offspring_loop] in E. unfold bind at 1 in E.
    destruct (tournamentSelection cfg pop rng) as [[p1 r1]|]; [|discriminate].
    unfold bind at 1 in E.
    destruct (tournamentSelection cfg pop r1) as [[p2 r2]|]; [|discriminate].
    unfold bind at 1 in E.
    destruct (crossover cfg p1 p2 r2) as [[child r3]|]; [|discriminate].
    unfold bind at 1 in E.
    destruct (mutate cfg child r3) as [[m r4]|]; [|discriminate].
    destruct (IH _ _ _ _ E) as (more & -> & Hl).
    exists (m :: more). rewrite <- app_assoc. split; [reflexivity|].
    cbn [List.length]. now rewrite Hl.
Qed.

Lemma ranked_length (obj : list Gene -> ObjectiveResult B)
  (ga : GeneticAlgorithm B) :
  List.length (ranked obj ga) = List.length (population ga).
Proof.
  unfold ranked. now rewrite sort_desc_length, length_map.
Qed.

(** X1.  One call of [evolve] on a runnable state returns a runnable
    state one generation later: the counter is incremented, the top
    fitness of the ranked population is appended to the history, the
    configuration and the constraints are kept, and the new population
    has [max(populationSize, elitismCount)] members. *)
Theorem evolve_advances_one_generation :
  forall (obj : list Gene -> ObjectiveResult B) (ga : GeneticAlgorithm B)
         (rng : Rng),
    runnable ga ->
    exists ga' rng' top rest,
      evolve obj ga rng = Some (ga', rng') /\
      ranked obj ga = top :: rest /\
      runnable ga' /\
      List.length (population ga')
      = Nat.max (loop_count (populationSize (config ga)))
                (loop_count (elitismCount (config ga))) /\
      generation ga' = S (generation ga) /\
      fitnessHistory ga' = fitnessHistory ga ++ [fitness top] /\
      config ga' = config ga /\
      constraints ga' = constraints ga.
Proof.
  intros obj ga rng Hr.
  destruct (evolve_runs B obj ga rng Hr) as (ga' & rng' & E & Hr' & Hl).
  destruct (evolve_inv B obj ga ga' rng rng' E)
    as (top & rest & Es & _ & Hh & Hg & Hc & Hcs).
  exists ga', rng', top, rest. unfold ranked. auto 10.
Qed.

(** X2.  [evolve] throws a [TypeError] on an empty population (as before
    [initializePopulation]), on a population with fewer members than
    [elitismCount], and, when offspring are needed, under a tournament
    size below one turn. *)
Theorem evolve_throws :
  forall (obj : list Gene -> ObjectiveResult B) (ga : GeneticAlgorithm B)
         (rng : Rng),
    (population ga = [] -> evolve obj ga rng = None) /\
    ((List.length (population ga)
      < loop_count (elitismCount (config ga)))%nat ->
     evolve obj ga rng = None) /\
    (loop_count (tournamentSize (config ga)) = 0%nat ->
     (loop_count (elitismCount (config ga))
      < loop_count (populationSize (config ga)))%nat ->
     evolve obj ga rng = None).
Proof.
  intros obj ga rng. split; [|split].
  - intro E. unfold evolve. now rewrite E.
  - intro Hlt. unfold evolve. cbv zeta. fold (ranked obj ga).
    pose proof (ranked_length obj ga) as Hl.
    destruct (ranked obj ga) as [|top rest] eqn:Es; [reflexivity|].
    rewrite <- Es in *. unfold bind at 1.
    rewrite mapM_elite_throws; [reflexivity|].
    apply Exists_exists.
    exists (List.length (ranked obj ga)). split; [|lia].
    apply in_seq. lia.
  - intros Ht Hlt. unfold evolve. cbv zeta. fold (ranked obj ga).
    pose proof (ranked_length obj ga) as Hl.
    destruct (ranked obj ga) as [|top rest] eqn:Es; [reflexivity|].
    rewrite <- Es in *. unfold bind at 1.
    destruct (mapM (elite (ranked obj ga)) _ rng) as [[es r]|] eqn:Ee;
      [|reflexivity].
    destruct (mapM_elite_inv _ _ _ _ _ Ee) as [-> HF].
    apply Forall2_length in HF. rewrite length_seq in HF.
    unfold bind at 1. rewrite <- HF.
    destruct (loop_count (populationSize (config ga))
              - loop_count (elitismCount (config ga)))%nat
      as [|n] eqn:En; [lia|].
    cbn [offspring_loop]. unfold tournamentSelection. rewrite Ht.
    cbn [tournament_loop]. unfold bind at 1, ret at 1.
    unfold bind at 1, ret at 1. unfold bind at 1. reflexivity.
Qed.

(** X3.  Elitism: after a successful [evolve], the first [elitismCount]
    members of the new population are the first members of the ranked
    population, with their genes and fitness and without cached outputs. *)
Theorem evolve_carries_elites :
  forall (obj : list Gene -> ObjectiveResult B)
         (ga ga' : GeneticAlgorithm B) (rng rng' : Rng),
    evolve obj ga rng = Some (ga', rng') ->
    forall i : nat,
      (i < loop_count (elitismCount (config ga)))%nat ->
      exists ind,
        nth_error (ranked obj ga) i = Some ind /\
        nth_error (population ga') i = Some (carried ind).
Proof.
  intros obj ga ga' rng rng' E i Hi. revert E.
  unfold evolve. cbv zeta. fold (ranked obj ga).
  destruct (ranked obj ga) as [|top rest] eqn:Es; [discriminate|].
  rewrite <- Es. unfold bind at 1.
  destruct (mapM (elite (ranked obj ga)) _ rng) as [[es r]|] eqn:Ee;
    [|discriminate].
  destruct (mapM_elite_inv _ _ _ _ _ Ee) as [-> HF].
  unfold bind at 1.
  destruct (offspring_loop _ _ _ es rng) as [[next r2]|] eqn:Eo;
    [|discriminate].
  unfold ret. intro E. injection E as <- _. cbn [population].
  destruct (offspring_loop_extends _ _ _ _ _ _ _ Eo) as (more & -> & _).
  assert (Hlen : List.length es = loop_count (elitismCount (config ga))).
  { apply Forall2_length in HF. now rewrite length_seq in HF. }
  destruct (nth_error es i) as [e|] eqn:Ei;
    [|apply nth_error_None in Ei; lia].
  assert (Hs : nth_error (seq 0 (loop_count (elitismCount (config ga)))) i
               = Some i).
  { rewrite nth_error_seq. 
    destruct (Nat.ltb_spec i (loop_count (elitismCount (config ga))));
      [reflexivity | lia]. }
  destruct (Forall2_nth_error_pair _ _ _ _ _ _ HF Hs Ei)
    as (ind & Hn & ->).
  exists ind. split; [exact Hn|].
  rewrite nth_error_app1; [exact Ei | lia].
Qed.

(** *** The history and the best-so-far record *)

Lemma evolve_keeps_history_max (obj : list Gene -> ObjectiveResult B)
  (ga ga' : GeneticAlgorithm B) (rng rng' : Rng) :
  evolve obj ga rng = Some (ga', rng') ->
  best_is_history_max ga -> best_is_history_max ga'.
Proof.
  intros E Hm.
  destruct (evolve_inv B obj ga ga' rng rng' E)
    as (top & rest & _ & Eb & Eh & _).
  destruct (track_best_spec B (bestIndividual ga) top) as (b' & Et & Hb).
  unfold best_is_history_max in *. rewrite Eb, Et, Eh.
  destruct (bestIndividual ga) as [b|].
  - destruct Hm as [Hin Hall]. destruct Hb as (Hup & Hkeep & Hle).
    destruct (Qlt_le_dec (fitness b) (fitness top)) as [Hlt|Hge].
    + rewrite (Hup Hlt). split.
      * apply in_or_app. right. now left.
      * apply Forall_app. split.
        -- eapply Forall_impl; [|exact Hall]. intros f Hf. cbv beta in *. lra.
        -- constructor; [lra | constructor].
    + rewrite (Hkeep Hge). split.
      * apply in_or_app. now left.
      * apply Forall_app. split; [exact Hall|].
        constructor; [exact Hge | constructor].
  - subst b'. rewrite Hm. cbn [app]. split; [now left|].
    constructor; [lra | constructor].
Qed.

Lemma generations_history (obj : list Gene -> ObjectiveResult B) (n : nat) :
  forall (ga ga' : GeneticAlgorithm B) (rng rng' : Rng),
    best_is_history_max ga ->
    generations n obj ga rng = Some (ga', rng') ->
    best_is_history_max ga' /\
    List.length (fitnessHistory ga')
    = (List.length (fitnessHistory ga) + n)%nat /\
    generation ga' = (generation ga + n)%nat.
Proof.
  induction n as [|n IH]; intros ga ga' rng rng' Hm E.
  - cbn in E. unfold ret in E. injection E as <- _.
    repeat split; try lia; assumption.
  - cbn [generations] in E. unfold bind at 1 in E.
    destruct (generations n obj ga rng) as [[ga1 rng1]|] eqn:E1;
      [|discriminate].
    destruct (IH ga ga1 rng rng1 Hm E1) as (Hm1 & Hl1 & Hg1).
    destruct (evolve_inv B obj ga1 ga' rng1 rng' E)
      as (top & rest & _ & _ & Eh & Eg & _).
    split; [exact (evolve_keeps_history_max obj ga1 ga' rng1 rng' E Hm1)|].
    split; [rewrite Eh, length_app, Hl1; cbn; lia|].
    rewrite Eg, Hg1; lia.
Qed.

(** X4.  The best-so-far record is the maximum of the fitness history.
    [initializePopulation] on a newly constructed optimizer leaves no
    record and an empty history, and from any state in which the record
    is the maximum of the history, [n] calls of [evolve] lead to a state
    in which it still is: the history has [n] more entries, the counter
    has advanced by [n], and the recorded best fitness is an entry of the
    history that no entry exceeds. *)
Theorem history_tracks_best :
  forall (obj : list Gene -> ObjectiveResult B) (n : nat),
    (forall (cfg : PartialGAConfig) (tpl : list Gene) (r r1 : Rng)
            (ga1 : GeneticAlgorithm B),
       initializePopulation tpl (constructor B cfg) r = Some (ga1, r1) ->
       bestIndividual ga1 = None /\ fitnessHistory ga1 = []) /\
    (forall (ga ga' : GeneticAlgorithm B) (rng rng' : Rng),
       best_is_history_max ga ->
       generations n obj ga rng = Some (ga', rng') ->
       List.length (fitnessHistory ga')
       = (List.length (fitnessHistory ga) + n)%nat /\
       generation ga' = (generation ga + n)%nat /\
       match bestIndividual ga' with
       | None => fitnessHistory ga' = []
       | Some b =>
           In (fitness b) (fitnessHistory ga') /\
           Forall (fun f => f <= fitness b) (fitnessHistory ga')
       end).
Proof.
  intros obj n. split.
  - intros cfg tpl r r1 ga1 E1.
    destruct (initializePopulation_spec B tpl (constructor B cfg) r)
      as (ga2 & r2 & E2 & _ & Hh & _ & _ & Hb & _).
    rewrite E1 in E2. injection E2 as <- _. now split.
  - intros ga ga' rng rng' Hm E.
    destruct (generations_history obj n ga ga' rng rng' Hm E)
      as (Hm' & Hl & Hg).
    split; [exact Hl|]. split; [exact Hg | exact Hm'].
Qed.

(** *** Whole runs *)

Lemma fresh_uniform (tpl : list Gene) (pop : list (Individual B)) :
  Forall (fresh tpl) pop -> uniform (List.length tpl) pop.
Proof.
  intro H. unfold uniform. eapply Forall_impl; [|exact H].
  intros ind (_ & _ & _ & _ & HF). symmetry. exact (Forall2_length HF).
Qed.

Lemma initialised_runnable (tpl : list Gene) (ga ga1 : GeneticAlgorithm B)
  (rng rng1 : Rng) :
  sound_config (config ga) ->
  initializePopulation tpl ga rng = Some (ga1, rng1) ->
  runnable ga1 /\
  List.length (population ga1) = loop_count (populationSize (config ga)) /\
  config ga1 = config ga.
Proof.
  intros (Hp & He & Ht) E.
  destruct (initializePopulation_spec B tpl ga rng)
    as (ga2 & r2 & E2 & _ & _ & Hl & Hf & _ & Hc & _).
  rewrite E in E2. injection E2 as <- _.
  split; [|now split]. unfold runnable. rewrite Hc, Hl.
  repeat split; try lia.
  - intro En. rewrite En in Hl. cbn in Hl. lia.
  - exists (List.length tpl). now apply fresh_uniform.
Qed.

Lemma generations_keep_constraints (obj : list Gene -> ObjectiveResult B)
  (n : nat) :
  forall (ga ga' : GeneticAlgorithm B) (rng rng' : Rng),
    generations n obj ga rng = Some (ga', rng') ->
    constraints ga' = constraints ga.
Proof.
  induction n as [|n IH]; intros ga ga' rng rng' E.
  - cbn in E. unfold ret in E. now injection E as <- _.
  - cbn [generations] in E. unfold bind at 1 in E.
    destruct (generations n obj ga rng) as [[ga1 rng1]|] eqn:E1;
      [|discriminate].
    destruct (evolve_inv B obj ga1 ga' rng1 rng' E)
      as (_ & _ & _ & _ & _ & _ & _ & Hc).
    rewrite Hc. exact (IH ga ga1 rng rng1 E1).
Qed.

(** X28.  The page never registers a constraint, and neither
    [initializePopulation] nor [evolve] adds one: for each scenario of the
    catalog, after initialising the page's optimizer and evolving any
    number of generations the constraint list is still empty, so every
    fitness the optimizer computes is the objective's, without any of
    the penalties the catalog lists for the scenario. *)
Theorem page_runs_apply_no_constraint :
  forall (obj : list Gene -> ObjectiveResult B) (rng : Rng) (n : nat),
    Forall (fun e =>
              exists ga1 rng1 ga' rng',
                initializePopulation (template e) (constructor B page_config)
                                     rng = Some (ga1, rng1) /\
                generations n obj ga1 rng1 = Some (ga', rng') /\
                constraints ga' = [] /\
                forall ind : Individual B,
                  fitness (evaluateFitness (constraints ga') ind obj)
                  = r_fitness (obj (genes ind)))
           scenarios.
Proof.
  intros obj rng n.
  assert (Hc : sound_config (config (constructor B page_config))).
  { unfold sound_config. cbn [config constructor].
    repeat split; vm_compute; lia. }
  apply Forall_forall. intros e _.
  destruct (initializePopulation_spec B (template e)
              (constructor B page_config) rng)
    as (ga1 & rng1 & E1 & _).
  destruct (initialised_runnable (template e) (constructor B page_config)
              ga1 rng rng1 Hc E1) as (R1 & _).
  destruct (generations_run B obj n ga1 rng1 R1) as (ga' & rng' & En & _).
  exists ga1, rng1, ga', rng'. split; [exact E1|]. split; [exact En|].
  assert (Hno : constraints ga' = []).
  { rewrite (generations_keep_constraints obj n ga1 ga' rng1 rng' En).
    destruct (initializePopulation_spec B (template e)
                (constructor B page_config) rng)
      as (ga2 & r2 & E2 & _ & _ & _ & _ & _ & _ & Hcs).
    rewrite E1 in E2. injection E2 as <- _. exact Hcs. }
  split; [exact Hno|]. intro ind. now rewrite Hno.
Qed.

(** *** The population [evolve] leaves *)

Lemma mutate_keeps_record (cfg : GAConfig) (ind m : Individual B)
  (rng rng' : Rng) :
  mutate cfg ind rng = Some (m, rng') ->
  fitness m = fitness ind /\ geometry m = geometry ind /\
  drag m = drag ind /\ lift m = lift ind.
Proof.
  unfold mutate, bind.
  destruct (mapM _ _ rng) as [[gs r]|]; [|discriminate].
  unfold ret. intro E. injection E as <- _. now cbn.
Qed.

Lemma crossover_child_record (cfg : GAConfig)
  (p1 p2 : option (Individual B)) (child : Individual B) (rng rng' : Rng) :
  crossover cfg p1 p2 rng = Some (child, rng') -> unevaluated child.
Proof.
  unfold crossover. destruct p1 as [p1|]; [|discriminate].
  unfold bind.
  destruct (crossover_loop _ _ _ _ rng) as [[gs r]|]; [|discriminate].
  unfold ret. intro E. injection E as <- _. now cbv.
Qed.

Lemma offspring_loop_unevaluated (cfg : GAConfig) (pop : list (Individual B)) :
  forall (n : nat) (next next' : list (Individual B)) (rng rng' : Rng),
    offspring_loop n cfg pop next rng = Some (next', rng') ->
    exists more,
      next' = next ++ more /\ List.length more = n /\
      Forall unevaluated more.
Proof.
  induction n as [|n IH]; intros next next' rng rng' E.
  - cbn in E. unfold ret in E. injection E as <- _.
    exists []. rewrite app_nil_r. repeat split. constructor.
  - cbn [offspring_loop] in E. unfold bind at 1 in E.
    destruct (tournamentSelection cfg pop rng) as [[p1 r1]|]; [|discriminate].
    unfold bind at 1 in E.
    destruct (tournamentSelection cfg pop r1) as [[p2 r2]|]; [|discriminate].
    unfold bind at 1 in E.
    destruct (crossover cfg p1 p2 r2) as [[child r3]|] eqn:Ec;
      [|discriminate].
    unfold bind at 1 in E.
    destruct (mutate cfg child r3) as [[m r4]|] eqn:Em; [|discriminate].
    destruct (IH _ _ _ _ E) as (more & -> & Hl & Hu).
    exists (m :: more). rewrite <- app_assoc. split; [reflexivity|].
    split; [cbn [List.length]; now rewrite Hl|].
    constructor; [|exact Hu].
    destruct (crossover_child_record _ _ _ _ _ _ Ec) as (Hf & Hg & Hd & Hli).
    destruct (mutate_keeps_record _ _ _ _ _ Em) as (Mf & Mg & Md & Mli).
    unfold unevaluated. repeat split; congruence.
Qed.

Lemma skipn_nth_cons {X : Type} (l : list X) :
  forall (k : nat) (x : X),
    nth_error l k = Some x -> skipn k l = x :: skipn (S k) l.
Proof.
  induction l as [|y l IH]; intros [|k] x H; cbn in H; try discriminate.
  - now injection H as <-.
  - exact (IH k x H).
Qed.

Lemma elites_firstn (sorted : list (Individual B)) :
  forall (e k : nat) (es : list (Individual B)),
    Forall2 (fun i el => exists ind,
                 nth_error sorted i = Some ind /\ el = carried ind)
            (seq k e) es ->
    es = map carried (firstn e (skipn k sorted)).
Proof.
  induction e as [|e IH]; intros k es HF.
  - inversion HF. reflexivity.
  - cbn [seq] in HF.
    inversion HF as [|? el ? es' (ind & Hn & ->) HF']; subst.
    rewrite (skipn_nth_cons sorted k ind Hn). cbn [firstn map].
    f_equal. exact (IH (S k) es' HF').
Qed.

Lemma evolve_population_split (obj : list Gene -> ObjectiveResult B)
  (ga ga' : GeneticAlgorithm B) (rng rng' : Rng) :
  evolve obj ga rng = Some (ga', rng') ->
  exists more,
    population ga'
    = map carried (firstn (loop_count (elitismCount (config ga)))
                          (ranked obj ga)) ++ more /\
    (loop_count (elitismCount (config ga))
     <= List.length (ranked obj ga))%nat /\
    List.length more
    = (loop_count (populationSize (config ga))
       - loop_count (elitismCount (config ga)))%nat /\
    Forall unevaluated more.
Proof.
  unfold evolve. cbv zeta. fold (ranked obj ga).
  destruct (ranked obj ga) as [|top rest] eqn:Es; [discriminate|].
  rewrite <- Es. unfold bind at 1.
  destruct (mapM (elite (ranked obj ga)) _ rng) as [[es r]|] eqn:Ee;
    [|discriminate].
  destruct (mapM_elite_inv _ _ _ _ _ Ee) as [-> HF].
  unfold bind at 1.
  destruct (offspring_loop _ _ _ es rng) as [[next r2]|] eqn:Eo;
    [|discriminate].
  unfold ret. intro E. injection E as <- _. cbn [population].
  destruct (offspring_loop_unevaluated _ _ _ _ _ _ _ Eo)
    as (more & -> & Hl & Hu).
  assert (Hlen : List.length es = loop_count (elitismCount (config ga))).
  { apply Forall2_length in HF. now rewrite length_seq in HF. }
  pose proof (elites_firstn _ _ _ _ HF) as Hes. cbn [skipn] in Hes.
  exists more. split; [now rewrite <- Hes|].
  split.
  - rewrite <- Hlen, Hes, length_map, length_firstn. lia.
  - split; [now rewrite Hl, Hlen | exact Hu].
Qed.

(** X7.  The population [evolve] leaves is not evaluated: none of its
    members carries a geometry, a drag or a lift (the elites are copied
    with genes and fitness only, the offspring are new), and every member
    after the elites has fitness 0 until the next call evaluates it. *)
Theorem evolve_leaves_unevaluated_population :
  forall (obj : list Gene -> ObjectiveResult B)
         (ga ga' : GeneticAlgorithm B) (rng rng' : Rng),
    evolve obj ga rng = Some (ga', rng') ->
    Forall (fun ind => geometry ind = None /\ drag ind = None /\
                       lift ind = None)
           (population ga') /\
    forall (i : nat) (ind : Individual B),
      (loop_count (elitismCount (config ga)) <= i)%nat ->
      nth_error (population ga') i = Some ind ->
      fitness ind = 0.
Proof.
  intros obj ga ga' rng rng' E.
  destruct (evolve_population_split obj ga ga' rng rng' E)
    as (more & -> & Hle & Hl & Hu).
  set (e := loop_count (elitismCount (config ga))) in *.
  assert (Hel : List.length (map carried (firstn e (ranked obj ga))) = e).
  { rewrite length_map, length_firstn. lia. }
  split.
  - apply Forall_app. split.
    + apply Forall_map. apply Forall_forall. intros ind _. now cbn.
    + eapply Forall_impl; [|exact Hu]. intros ind (_ & H). exact H.
  - intros i ind Hi Hn. rewrite nth_error_app2 in Hn by lia.
    apply nth_error_In in Hn. rewrite Forall_forall in Hu.
    now destruct (Hu ind Hn).
Qed.

Lemma sum_app (l1 l2 : list Q) :
  fold_right Qplus 0 (l1 ++ l2)
  == fold_right Qplus 0 l1 + fold_right Qplus 0 l2.
Proof.
  induction l1 as [|x l1 IH]; cbn [app fold_right].
  - lra.
  - rewrite IH. lra.
Qed.

Lemma sum_unevaluated (l : list (Individual B)) :
  Forall unevaluated l -> fold_right Qplus 0 (map fitness l) == 0.
Proof.
  induction 1 as [|x l (Hx & _) _ IH]; cbn [map fold_right].
  - reflexivity.
  - rewrite IH, Hx. lra.
Qed.

Lemma map_fitness_carried (l : list (Individual B)) :
  map fitness (map carried l) = map fitness l.
Proof.
  rewrite map_map. apply map_ext. reflexivity.
Qed.

(** X8.  Right after [evolve], [getAverageFitness] averages a population
    in which only the elites have a fitness: on a runnable state it
    returns the sum of the fitness values of the first [elitismCount]
    members of the ranked population, divided by the size of the whole new
    population. *)
Theorem average_after_evolve_counts_elites_only :
  forall (obj : list Gene -> ObjectiveResult B) (ga : GeneticAlgorithm B)
         (rng : Rng),
    runnable ga ->
    exists ga' rng',
      evolve obj ga rng = Some (ga', rng') /\
      getAverageFitness ga'
      == fold_right Qplus 0
           (map fitness (firstn (loop_count (elitismCount (config ga)))
                                (ranked obj ga)))
         / inject_Z (Z.of_nat
                       (Nat.max (loop_count (populationSize (config ga)))
                                (loop_count (elitismCount (config ga))))).
Proof.
  intros obj ga rng Hr.
  destruct (evolve_runs B obj ga rng Hr) as (ga' & rng' & E & Hr' & Hl).
  exists ga', rng'. split; [exact E|].
  destruct (evolve_population_split obj ga ga' rng rng' E)
    as (more & Hs & _ & _ & Hu).
  unfold getAverageFitness.
  destruct (population ga') as [|i l] eqn:Ep.
  - destruct Hr' as [Hne _]. congruence.
  - rewrite <- Ep in Hl, Hs |- *. rewrite fold_left_sum_shift, Hl.
    apply Qmult_comp; [|reflexivity].
    rewrite Hs, map_app, sum_app, map_fitness_carried.
    rewrite (sum_unevaluated more Hu). lra.
Qed.

(** *** Elitism and the history *)

Lemma fold_apply_constraint_ext (cs : list (Constraint B))
  (i1 i2 : Individual B) :
  (forall c, In c cs -> evaluate c i1 = evaluate c i2) ->
  forall f : Q,
    fold_left (apply_constraint i1) cs f
    = fold_left (apply_constraint i2) cs f.
Proof.
  induction cs as [|c cs IH]; intros H f; [reflexivity|].
  cbn [fold_left].
  assert (E : apply_constraint i1 f c = apply_constraint i2 f c).
  { unfold apply_constraint. now rewrite (H c (or_introl eq_refl)). }
  rewrite E. apply IH. intros d Hd. apply H. now right.
Qed.

(** X29.  With at least one elite, an objective that is a function of
    the genes and constraints that read only the genes, the top fitness
    of a generation is never below that of the generation before: two
    successive calls of [evolve] append two entries to the fitness
    history, the second at least the first. *)
Theorem history_never_decreases_under_elitism :
  forall (obj : list Gene -> ObjectiveResult B)
         (ga ga1 ga2 : GeneticAlgorithm B) (rng rng1 rng2 : Rng),
    (1 <= loop_count (elitismCount (config ga)))%nat ->
    (forall (c : Constraint B) (i1 i2 : Individual B),
       In c (constraints ga) -> genes i1 = genes i2 ->
       evaluate c i1 = evaluate c i2) ->
    evolve obj ga rng = Some (ga1, rng1) ->
    evolve obj ga1 rng1 = Some (ga2, rng2) ->
    exists f1 f2 : Q,
      fitnessHistory ga2 = fitnessHistory ga ++ [f1; f2] /\ f1 <= f2.
Proof.
  intros obj ga ga1 ga2 rng rng1 rng2 He Hgenes E1 E2.
  destruct (evolve_inv B obj ga ga1 rng rng1 E1)
    as (top1 & rest1 & Es1 & _ & Hh1 & _ & _ & Hc1).
  destruct (evolve_inv B obj ga1 ga2 rng1 rng2 E2)
    as (top2 & rest2 & Es2 & _ & Hh2 & _).
  exists (fitness top1), (fitness top2). split.
  - rewrite Hh2, Hh1, <- app_assoc. reflexivity.
  - destruct (evolve_population_split obj ga ga1 rng rng1 E1)
      as (more & Hp & _).
    unfold ranked in Hp. rewrite Es1 in Hp.
    destruct (loop_count (elitismCount (config ga))) as [|e]; [lia|].
    cbn [firstn map app] in Hp.
    destruct (sort_desc_top B _ _ _ Es1) as [Hin1 _].
    apply in_map_iff in Hin1. destruct Hin1 as (ind0 & Hind0 & _).
    destruct (sort_desc_top B _ _ _ Es2) as [_ Hmax].
    assert (Hel : In (evaluateFitness (constraints ga1) (carried top1) obj)
                     (map (fun ind =>
                             evaluateFitness (constraints ga1) ind obj)
                          (population ga1))).
    { apply (in_map (fun ind => evaluateFitness (constraints ga1) ind obj)).
      rewrite Hp. now left. }
    specialize (Hmax _ Hel).
    assert (Hsame : fitness (evaluateFitness (constraints ga1)
                               (carried top1) obj)
                    = fitness top1).
    { rewrite <- Hind0 at 2. cbn [fitness evaluateFitness genes carried].
      rewrite Hc1.
      assert (Hg : genes top1 = genes ind0) by now rewrite <- Hind0.
      rewrite Hg.
      apply fold_apply_constraint_ext. intros c Hc.
      apply Hgenes; [exact Hc|]. cbn [genes carried]. exact Hg. }
    rewrite Hsame in Hmax. exact Hmax.
Qed.

(** *** Constraints *)

Lemma satisfied_violation (ind : Individual B) (c : Constraint B) :
  satisfied ind c <-> violation c (evaluate c ind) == 0.
Proof.
  unfold satisfied, violation. destruct (c_type c).
  - destruct (Q.max_spec 0 (c_value c - evaluate c ind)) as [[H E]|[H E]];
      rewrite E; split; intro; lra.
  - destruct (Q.max_spec 0 (evaluate c ind - c_value c)) as [[H E]|[H E]];
      rewrite E; split; intro; lra.
  - split; intro H.
    + rewrite H. setoid_replace (c_value c - c_value c) with 0 by ring.
      reflexivity.
    + pose proof (Qle_Qabs (evaluate c ind - c_value c)) as H1.
      pose proof (Qle_Qabs (- (evaluate c ind - c_value c))) as H2.
      rewrite Qabs_opp in H2. lra.
Qed.

Lemma total_penalty_nonneg (cs : list (Constraint B)) (ind : Individual B) :
  Forall (fun c => 0 <= penalty c) cs -> 0 <= total_penalty cs ind.
Proof.
  induction 1 as [|c cs Hc _ IH]; cbn [total_penalty fold_right].
  - lra.
  - fold (total_penalty cs ind).
    pose proof (Qmult_le_0_compat _ _
                  (violation_nonneg B c (evaluate c ind)) Hc).
    lra.
Qed.

Lemma total_penalty_satisfied (cs : list (Constraint B))
  (ind : Individual B) :
  Forall (satisfied ind) cs -> total_penalty cs ind == 0.
Proof.
  induction 1 as [|c cs Hc _ IH]; cbn [total_penalty fold_right].
  - reflexivity.
  - fold (total_penalty cs ind). apply satisfied_violation in Hc.
    rewrite Hc, IH. lra.
Qed.

(** X9.  With penalty weights that are not negative, constraints can only
    lower a fitness: the evaluated fitness is at most the objective's, and
    it equals the objective's when every constraint is satisfied. *)
Theorem penalties_only_lower_fitness :
  forall (cs : list (Constraint B)) (ind : Individual B)
         (obj : list Gene -> ObjectiveResult B),
    Forall (fun c => 0 <= penalty c) cs ->
    fitness (evaluateFitness cs ind obj) <= r_fitness (obj (genes ind)) /\
    (Forall (satisfied ind) cs ->
     fitness (evaluateFitness cs ind obj) == r_fitness (obj (genes ind))).
Proof.
  intros cs ind obj Hp. cbn [fitness evaluateFitness].
  pose proof (fold_apply_constraint B ind cs (r_fitness (obj (genes ind))))
    as Hf.
  pose proof (total_penalty_nonneg cs ind Hp) as Hn.
  split; [lra|].
  intro Hs. rewrite Hf, (total_penalty_satisfied cs ind Hs). lra.
Qed.

(** X10.  The constraint registry: a constraint added with
    [addConstraint] lowers every later evaluation by its own violation
    times its weight, on top of the constraints already registered, and
    after [clearConstraints] an evaluation returns the objective's
    fitness. *)
Theorem constraints_accumulate :
  forall (c : Constraint B) (ga : GeneticAlgorithm B) (ind : Individual B)
         (obj : list Gene -> ObjectiveResult B),
    fitness (evaluateFitness (constraints (addConstraint c ga)) ind obj)
    == fitness (evaluateFitness (constraints ga) ind obj)
       - violation c (evaluate c ind) * penalty c /\
    fitness (evaluateFitness (constraints (clearConstraints ga)) ind obj)
    = r_fitness (obj (genes ind)).
Proof.
  intros c ga ind obj. split.
  - cbn [fitness evaluateFitness constraints addConstraint].
    rewrite fold_left_app. cbn [fold_left].
    apply apply_constraint_subtracts.
  - reflexivity.
Qed.

(** *** Selection *)

Lemma advance_after_draw (n : nat) (rng : Rng) :
  advance n {| stream := stream rng; cursor := S (cursor rng) |}
  = advance (S n) rng.
Proof.
  unfold advance. cbn [stream cursor]. f_equal. lia.
Qed.

Lemma candidate_after_draw (pop : list (Individual B)) (rng : Rng)
  (k : nat) :
  candidate pop {| stream := stream rng; cursor := S (cursor rng) |} k
  = candidate pop rng (S k).
Proof.
  unfold candidate. cbn [stream cursor].
  now rewrite Nat.add_succ_r.
Qed.

Lemma tournament_loop_spec (pop : list (Individual B)) :
  pop <> [] ->
  forall (n : nat) (best : option (Individual B)) (rng : Rng),
    exists res,
      tournament_loop n pop best rng = Some (res, advance n rng) /\
      (forall b, best = Some b ->
         exists w, res = Some w /\ fitness b <= fitness w) /\
      ((1 <= n)%nat -> exists w, res = Some w) /\
      (forall w, res = Some w ->
         (forall k, (k < n)%nat ->
            exists c, candidate pop rng k = Some c /\ In c pop /\
                      fitness c <= fitness w) /\
         (best = Some w \/
          exists k, (k < n)%nat /\ candidate pop rng k = Some w)).
Proof.
  intros Hpop n. induction n as [|n IH]; intros best rng.
  - exists best. split; [now destruct rng|]. split.
    + intros b ->. exists b. split; [reflexivity | lra].
    + split; [lia|]. intros w ->. split; [lia | now left].
  - set (rng1 := {| stream := stream rng; cursor := S (cursor rng) |}).
    assert (Hlen : (0 < List.length pop)%nat)
      by (destruct pop; [congruence | cbn; lia]).
    pose proof (random_index_lt (stream rng (cursor rng)) _ Hlen) as Hi.
    assert (Hc0 : candidate pop rng 0
                  = nth_error pop (random_index (stream rng (cursor rng))
                                                (List.length pop)))
      by reflexivity.
    destruct (nth_error pop (random_index (stream rng (cursor rng))
                                          (List.length pop)))
      as [c|] eqn:Ec; [|apply nth_error_None in Ec; lia].
    assert (Hc : In c pop) by (eapply nth_error_In; exact Ec).
    set (best' := match best with
                  | None => Some c
                  | Some b => if Qlt_bool (fitness b) (fitness c)
                              then Some c else Some b
                  end).
    assert (Hstep : tournament_loop (S n) pop best rng
                    = tournament_loop n pop best' rng1).
    { cbn [tournament_loop]. unfold bind at 1, random at 1.
      fold rng1. rewrite Ec. unfold best'. now destruct best. }
    rewrite Hstep. clear Hstep.
    assert (Hb' : exists x, best' = Some x /\ fitness c <= fitness x /\
                            (x = c \/ best = Some x) /\
                            forall b, best = Some b ->
                                      fitness b <= fitness x).
    { unfold best'. destruct best as [b|].
      - destruct (Qlt_bool (fitness b) (fitness c)) eqn:Eq.
        + apply Qlt_bool_iff in Eq. exists c.
          split; [reflexivity|]. split; [lra|]. split; [now left|].
          intros b0 H0. injection H0 as <-. lra.
        + apply Qlt_bool_false_iff in Eq. exists b.
          split; [reflexivity|]. split; [exact Eq|]. split; [now right|].
          intros b0 H0. injection H0 as <-. lra.
      - exists c. split; [reflexivity|]. split; [lra|]. split; [now left|].
        intros b0 H0. discriminate. }
    destruct Hb' as (x & Ex & Hcx & Hx & Hbx).
    destruct (IH best' rng1) as (res & E & Hup & _ & Hres).
    destruct (Hup x Ex) as (w & -> & Hxw).
    exists (Some w). rewrite <- (advance_after_draw n rng).
    split; [exact E|]. split.
    + intros b Hb. exists w. split; [reflexivity|].
      specialize (Hbx b Hb). lra.
    + split; [intros _; now exists w|].
      intros w0 Hw0. injection Hw0 as <-.
      destruct (Hres w eq_refl) as (Hall & Hone). split.
      * intros [|k] Hk.
        -- exists c. rewrite Hc0. split; [reflexivity|].
           split; [exact Hc | lra].
        -- destruct (Hall k) as (c' & Ec' & Hin' & Hle'); [lia|].
           exists c'. rewrite <- candidate_after_draw. fold rng1.
           now split.
      * destruct Hone as [Hw|(k & Hk & Ek)].
        -- rewrite Ex in Hw. injection Hw as <-.
           destruct Hx as [->|Hx]; [|now left].
           right. exists 0%nat. split; [lia|]. now rewrite Hc0.
        -- right. exists (S k). split; [lia|].
           rewrite <- candidate_after_draw. exact Ek.
Qed.

(** X11.  Tournament selection on a non-empty population with at least
    one turn draws exactly [tournamentSize] random numbers, one candidate
    per turn, and returns a candidate whose fitness is not below that of
    any candidate it drew. *)
Theorem tournamentSelection_returns_fittest_candidate :
  forall (cfg : GAConfig) (pop : list (Individual B)) (rng : Rng),
    pop <> [] ->
    (1 <= loop_count (tournamentSize cfg))%nat ->
    exists w,
      tournamentSelection cfg pop rng
      = Some (Some w, advance (loop_count (tournamentSize cfg)) rng) /\
      (exists k, (k < loop_count (tournamentSize cfg))%nat /\
                 candidate pop rng k = Some w) /\
      (forall k, (k < loop_count (tournamentSize cfg))%nat ->
         exists c, candidate pop rng k = Some c /\ In c pop /\
                   fitness c <= fitness w).
Proof.
  intros cfg pop rng Hpop Ht. unfold tournamentSelection.
  destruct (tournament_loop_spec pop Hpop (loop_count (tournamentSize cfg))
              None rng) as (res & E & _ & Hsome & Hres).
  destruct (Hsome Ht) as (w & ->).
  destruct (Hres w eq_refl) as (Hall & [Hw|Hone]); [discriminate|].
  exists w. split; [exact E|]. split; [|exact Hall].
  destruct Hone as (k & Hk & Ek). now exists k.
Qed.

(** *** Crossover and mutation of whole individuals *)

Lemma Forall2_eq_list {X : Type} (l l' : list X) :
  Forall2 (fun a b => b = a) l l' -> l' = l.
Proof.
  induction 1; [reflexivity | now f_equal].
Qed.

Lemma crossover_gene_keeps (cfg : GAConfig) (g1 g2 : Gene) (rng : Rng) :
  exists g rng',
    crossover_gene cfg g1 (Some g2) rng = Some (g, rng') /\
    name g = name g1 /\ min g = min g1 /\ max g = max g1 /\
    (crossoverRate cfg <= 0 -> g = g1).
Proof.
  unfold crossover_gene, bind, random, ret. cbn [stream cursor].
  destruct (Qlt_bool _ _) eqn:E.
  - eexists _, _. split; [reflexivity|]. cbn [name min max value].
    do 3 (split; [reflexivity|]).
    intro Hz. apply Qlt_bool_iff in E.
    destruct (draw_bounds (stream rng (cursor rng))). lra.
  - eexists _, _. split; [reflexivity|].
    do 3 (split; [reflexivity|]). reflexivity.
Qed.

Lemma crossover_loop_keeps (cfg : GAConfig) (genes2 : list Gene) :
  forall (genes1 : list Gene) (i : nat) (rng : Rng),
    (i + List.length genes1 <= List.length genes2)%nat ->
    exists gs rng',
      crossover_loop cfg i genes1 (Some genes2) rng = Some (gs, rng') /\
      Forall2 (fun g1 g =>
                 name g = name g1 /\ min g = min g1 /\ max g = max g1 /\
                 (crossoverRate cfg <= 0 -> g = g1))
              genes1 gs.
Proof.
  induction genes1 as [|g1 rest IH]; intros i rng Hlen.
  - exists [], rng. split; [reflexivity | constructor].
  - cbn [List.length] in Hlen.
    destruct (nth_error genes2 i) as [g2|] eqn:E2;
      [|apply nth_error_None in E2; lia].
    destruct (crossover_gene_keeps cfg g1 g2 rng)
      as (g & rng1 & Eg & Hg).
    destruct (IH (S i) rng1) as (gs & rng2 & Egs & Hgs); [lia|].
    exists (g :: gs), rng2. split.
    + cbn [crossover_loop]. rewrite E2.
      unfold bind at 1. rewrite Eg. unfold bind at 1. now rewrite Egs.
    + now constructor.
Qed.

(** X12.  Crossover of two parents, the second with at least as many
    genes as the first, returns a child with fitness 0 and one gene per
    gene of the first parent, each with the first parent's name and
    bounds at that position; the second parent gives values only.  Under
    a crossover rate that is not positive the child's chromosome is the
    first parent's. *)
Theorem crossover_child_keeps_names_and_bounds :
  forall (cfg : GAConfig) (p1 p2 : Individual B) (rng : Rng),
    (List.length (genes p1) <= List.length (genes p2))%nat ->
    exists child rng',
      crossover cfg (Some p1) (Some p2) rng = Some (child, rng') /\
      fitness child = 0 /\
      Forall2 (fun g1 g =>
                 name g = name g1 /\ min g = min g1 /\ max g = max g1)
              (genes p1) (genes child) /\
      (crossoverRate cfg <= 0 -> genes child = genes p1).
Proof.
  intros cfg p1 p2 rng Hlen.
  destruct (crossover_loop_keeps cfg (genes p2) (genes p1) 0 rng)
    as (gs & rng' & E & HF); [lia|].
  eexists _, rng'. unfold crossover, bind. cbn [option_map]. rewrite E.
  split; [reflexivity|]. cbn [fitness genes].
  split; [reflexivity|]. split.
  - eapply Forall2_impl; [|exact HF]. cbv beta. intros g g' H. tauto.
  - intro Hz. apply Forall2_eq_list.
    eapply Forall2_impl; [|exact HF]. cbv beta. intros g g' H. now apply H.
Qed.

Lemma mutate_gene_step (cfg : GAConfig) (gene : Gene) (rng : Rng) :
  in_bounds gene ->
  exists gene' rng',
    mutate_gene cfg gene rng = Some (gene', rng') /\
    name gene' = name gene /\ min gene' = min gene /\
    max gene' = max gene /\ in_bounds gene' /\
    (mutationRate cfg <= 0 -> gene' = gene).
Proof.
  intros [Hlo Hhi].
  destruct (Qlt_le_dec (stream rng (cursor rng)) (mutationRate cfg)) as [H|H].
  - rewrite (mutate_gene_fires _ _ _ H). eexists _, _.
    split; [reflexivity|]. cbn [name min max value].
    do 3 (split; [reflexivity|]). split.
    + unfold in_bounds. cbn [min max value]. apply clamp_bounds. lra.
    + intro Hz. destruct (draw_bounds (stream rng (cursor rng))). lra.
  - rewrite (mutate_gene_skips _ _ _ H). eexists _, _.
    split; [reflexivity|]. do 3 (split; [reflexivity|]).
    split; [now split | reflexivity].
Qed.

(** X13.  Mutation of an individual whose genes are within their bounds
    returns; it keeps the fitness and every gene's name and bounds, and
    leaves every value within the bounds of its gene.  Under a mutation
    rate that is not positive it changes nothing. *)
Theorem mutate_keeps_genes_within_bounds :
  forall (cfg : GAConfig) (ind : Individual B) (rng : Rng),
    Forall in_bounds (genes ind) ->
    exists mutant rng',
      mutate cfg ind rng = Some (mutant, rng') /\
      fitness mutant = fitness ind /\
      Forall2 (fun g g' =>
                 name g' = name g /\ min g' = min g /\ max g' = max g /\
                 in_bounds g')
              (genes ind) (genes mutant) /\
      (mutationRate cfg <= 0 -> genes mutant = genes ind).
Proof.
  intros cfg ind rng Hb.
  destruct (mapM_Forall (mutate_gene cfg) in_bounds
              (fun g g' =>
                 name g' = name g /\ min g' = min g /\ max g' = max g /\
                 in_bounds g' /\
                 (mutationRate cfg <= 0 -> g' = g))
              (fun a r Ha => mutate_gene_step cfg a r Ha)
              (genes ind) rng Hb) as (gs & rng' & E & HF).
  eexists _, rng'. unfold mutate, bind. rewrite E.
  split; [reflexivity|]. cbn [fitness genes]. split; [reflexivity|]. split.
  - eapply Forall2_impl; [|exact HF]. cbv beta. intros g g' H. tauto.
  - intro Hz. apply Forall2_eq_list.
    eapply Forall2_impl; [|exact HF]. cbv beta. intros g g' H. now apply H.
Qed.

End Facts.

(** *** The properties on the example run *)

Lemma evolve_advances_one_generation_witness :
  exists ga' rng' top rest,
    evolve slender ga_0 cycling = Some (ga', rng') /\
    ranked slender ga_0 = top :: rest /\
    runnable ga' /\
    List.length (population ga')
    = Nat.max (loop_count (populationSize (config ga_0)))
              (loop_count (elitismCount (config ga_0))) /\
    generation ga' = S (generation ga_0) /\
    fitnessHistory ga' = fitnessHistory ga_0 ++ [fitness top] /\
    config ga' = config ga_0 /\
    constraints ga' = constraints ga_0.
Proof.
  exact (evolve_advances_one_generation unit slender ga_0 cycling
           ga_0_runnable).
Defined.

Lemma evolve_carries_elites_witness :
  exists ind,
    nth_error (ranked slender ga_0) 0 = Some ind /\
    nth_error (population ga_1) 0 = Some (carried ind).
Proof.
  apply (evolve_carries_elites unit slender ga_0 ga_1 cycling rng_1).
  - vm_compute. reflexivity.
  - vm_compute. lia.
Defined.

Lemma history_tracks_best_witness :
  List.length (fitnessHistory ga_1) = 1%nat /\
  generation ga_1 = 1%nat /\
  match bestIndividual ga_1 with
  | None => fitnessHistory ga_1 = []
  | Some b =>
      In (fitness b) (fitnessHistory ga_1) /\
      Forall (fun f => f <= fitness b) (fitnessHistory ga_1)
  end.
Proof.
  apply (proj2 (history_tracks_best unit slender 1) ga_0 ga_1 cycling rng_1).
  - reflexivity.
  - vm_compute. reflexivity.
Defined.

Lemma evolve_leaves_unevaluated_population_witness :
  Forall (fun ind : Individual unit =>
            geometry ind = None /\ drag ind = None /\ lift ind = None)
         (population ga_1) /\
  forall (i : nat) (ind : Individual unit),
    (loop_count (elitismCount (config ga_0)) <= i)%nat ->
    nth_error (population ga_1) i = Some ind ->
    fitness ind = 0.
Proof.
  apply (evolve_leaves_unevaluated_population unit slender ga_0 ga_1
           cycling rng_1).
  vm_compute. reflexivity.
Defined.

Lemma average_after_evolve_counts_elites_only_witness :
  exists ga' rng',
    evolve slender ga_0 cycling = Some (ga', rng') /\
    getAverageFitness ga'
    == fold_right Qplus 0
         (map fitness (firstn (loop_count (elitismCount (config ga_0)))
                              (ranked slender ga_0)))
       / inject_Z (Z.of_nat
                     (Nat.max (loop_count (populationSize (config ga_0)))
                              (loop_count (elitismCount (config ga_0))))).
Proof.
  exact (average_after_evolve_counts_elites_only unit slender ga_0 cycling
           ga_0_runnable).
Defined.

Lemma history_never_decreases_under_elitism_witness :
  exists f1 f2 : Q,
    fitnessHistory ga_2 = fitnessHistory ga_0 ++ [f1; f2] /\ f1 <= f2.
Proof.
  apply (history_never_decreases_under_elitism unit slender ga_0 ga_1 ga_2
           cycling rng_1 rng_2).
  - vm_compute. lia.
  - intros c i1 i2 [].
  - vm_compute. reflexivity.
  - vm_compute. reflexivity.
Defined.

Lemma penalties_only_lower_fitness_witness :
  fitness (evaluateFitness [min10 7] (bare 0) (flat_objective 1000))
  <= r_fitness (flat_objective 1000 (genes (bare 0))) /\
  (Forall (satisfied (bare 0)) [min10 7] ->
   fitness (evaluateFitness [min10 7] (bare 0) (flat_objective 1000))
   == r_fitness (flat_objective 1000 (genes (bare 0)))).
Proof.
  apply (penalties_only_lower_fitness unit [min10 7] (bare 0)
           (flat_objective 1000)).
  repeat constructor. discriminate.
Defined.

Lemma tournamentSelection_returns_fittest_candidate_witness :
  exists w,
    tournamentSelection small_config (population ga_0) cycling
    = Some (Some w, advance (loop_count (tournamentSize small_config))
                            cycling) /\
    (exists k, (k < loop_count (tournamentSize small_config))%nat /\
               candidate (population ga_0) cycling k = Some w) /\
    (forall k, (k < loop_count (tournamentSize small_config))%nat ->
       exists c, candidate (population ga_0) cycling k = Some c /\
                 In c (population ga_0) /\ fitness c <= fitness w).
Proof.
  apply (tournamentSelection_returns_fittest_candidate unit small_config
           (population ga_0) cycling).
  - discriminate.
  - vm_compute. lia.
Defined.

Lemma crossover_child_keeps_names_and_bounds_witness :
  exists child rng',
    crossover small_config (Some parent_a) (Some parent_b) cycling
    = Some (child, rng') /\
    fitness child = 0 /\
    Forall2 (fun g1 g =>
               name g = name g1 /\ min g = min g1 /\ max g = max g1)
            (genes parent_a) (genes child) /\
    (crossoverRate small_config <= 0 -> genes child = genes parent_a).
Proof.
  apply (crossover_child_keeps_names_and_bounds unit small_config parent_a
           parent_b cycling).
  vm_compute. lia.
Defined.

Lemma mutate_keeps_genes_within_bounds_witness :
  exists mutant rng',
    mutate small_config parent_a cycling = Some (mutant, rng') /\
    fitness mutant = fitness parent_a /\
    Forall2 (fun g g' =>
               name g' = name g /\ min g' = min g /\ max g' = max g /\
               in_bounds g')
            (genes parent_a) (genes mutant) /\
    (mutationRate small_config <= 0 -> genes mutant = genes parent_a).
Proof.
  apply (mutate_keeps_genes_within_bounds unit small_config parent_a
           cycling).
  repeat constructor; discriminate.
Defined.

End RunFacts.

(** ** Lists laid out in blocks *)

Module ListFacts.

Local Open Scope nat_scope.

Lemma length_flat_map_blocks {X Y : Type} (f : X -> list Y) (k : nat)
  (l : list X) :
  (forall x, List.length (f x) = k) ->
  List.length (flat_map f l) = k * List.length l.
Proof.
  intro H. induction l as [|x l IH]; cbn [flat_map List.length].
  - lia.
  - rewrite length_app, H, IH. lia.
Qed.

(** Entry [j] of block [i] of a list built block by block. *)
Lemma nth_flat_map_blocks {X Y : Type} (f : X -> list Y) (k : nat) (x0 : X)
  (d : Y) :
  (forall x, List.length (f x) = k) ->
  forall (l : list X) (i j : nat),
    i < List.length l -> j < k ->
    nth (k * i + j) (flat_map f l) d = nth j (f (nth i l x0)) d.
Proof.
  intros Hk l. induction l as [|x l IH]; intros i j Hi Hj;
    [cbn in Hi; lia|].
  cbn [flat_map]. destruct i as [|i].
  - rewrite Nat.mul_0_r. cbn [Nat.add nth].
    rewrite app_nth1 by (rewrite Hk; lia). reflexivity.
  - rewrite app_nth2 by (rewrite Hk; lia). rewrite Hk.
    replace (k * S i + j - k) with (k * i + j) by lia.
    cbn [nth]. apply IH; [cbn in Hi; lia | exact Hj].
Qed.

Lemma Forall_flat_map {X Y : Type} (f : X -> list Y) (P : Y -> Prop)
  (l : list X) :
  (forall x, In x l -> Forall P (f x)) -> Forall P (flat_map f l).
Proof.
  intro H. induction l as [|x l IH]; cbn [flat_map]; [constructor|].
  apply Forall_app. split.
  - apply H. now left.
  - apply IH. intros y Hy. apply H. now right.
Qed.

End ListFacts.

(** ** Facts about the colours of the viewer *)

Module ViewerFacts.

Import Lqa QHelp QFacts Page ListFacts.
Local Open Scope Q_scope.

Lemma shade_range (p : Q) :
  0 <= Qmax 0 (Qmin 1 ((p + 1) / 2)) /\ Qmax 0 (Qmin 1 ((p + 1) / 2)) <= 1.
Proof.
  apply (clamp_bounds 0 1 ((p + 1) / 2)). discriminate.
Qed.

Lemma shade_monotone (p q : Q) :
  p <= q ->
  Qmax 0 (Qmin 1 ((p + 1) / 2)) <= Qmax 0 (Qmin 1 ((q + 1) / 2)).
Proof.
  intro H. apply Q.max_le_compat_l. apply Q.min_le_compat_l.
  apply Qmult_le_compat_r; [lra | discriminate].
Qed.

(** X14.  The viewer colours a vertex by its pressure on a line from blue
    to red: the red component [t] lies in [[0, 1]], green is 0.3, blue is
    [1 - t]; [t] is 0 for every pressure at or below -1, 1 for every
    pressure at or above 1 and [(pressure + 1) / 2] in between, and it
    never decreases when the pressure grows. *)
Theorem pressure_color_blends_blue_to_red :
  forall p : Q,
    exists t : Q,
      pressure_color p = (t, 0.3, 1 - t) /\
      0 <= t /\ t <= 1 /\
      (p <= -1 -> t == 0) /\
      (1 <= p -> t == 1) /\
      (-1 <= p -> p <= 1 -> t == (p + 1) / 2) /\
      (forall q t' : Q,
         p <= q -> pressure_color q = (t', 0.3, 1 - t') -> t <= t').
Proof.
  intro p. exists (Qmax 0 (Qmin 1 ((p + 1) / 2))).
  split; [reflexivity|].
  destruct (shade_range p) as [H0 H1].
  split; [exact H0|]. split; [exact H1|].
  assert (Hh : (p + 1) / 2 == (p + 1) * (1 # 2)) by reflexivity.
  destruct (Q.min_spec 1 ((p + 1) / 2)) as [[Ha Ea]|[Ha Ea]];
    destruct (Q.max_spec 0 (Qmin 1 ((p + 1) / 2))) as [[Hb Eb]|[Hb Eb]];
    rewrite Ea in Hb; try rewrite Hh in Ha; try rewrite Hh in Hb.
  - split; [intro; lra|]. split; [intro; now rewrite Eb, Ea|].
    split; [intros; lra|].
    intros q t' Hq E. injection E as <-. now apply shade_monotone.
  - split; [intro; now rewrite Eb|]. split; [intro; lra|].
    split; [intros; lra|].
    intros q t' Hq E. injection E as <-. now apply shade_monotone.
  - split; [intro; lra|]. split; [intro; rewrite Eb, Ea, Hh; lra|].
    split; [intros; now rewrite Eb, Ea|].
    intros q t' Hq E. injection E as <-. now apply shade_monotone.
  - split; [intro; now rewrite Eb|]. split; [intro; lra|].
    split; [intros; rewrite Eb, Hh; lra|].
    intros q t' Hq E. injection E as <-. now apply shade_monotone.
Qed.

Lemma seq_nth_0 (n i : nat) : (i < n)%nat -> nth i (seq 0 n) 0%nat = i.
Proof.
  intro H. now rewrite seq_nth.
Qed.

(** X15.  The colour buffer has three entries per vertex, each within
    [[0, 1]].  With pressure data, vertex [i] gets the colour of
    [pressureData[i]], a vertex beyond the end of the data being coloured
    as pressure 0; without data, or with an empty array, every vertex is
    grey. *)
Theorem vertex_colors_one_colour_per_vertex :
  forall (n : nat) (pressureData : option (list Q)),
    let colors := vertex_colors n pressureData in
    List.length colors = (3 * n)%nat /\
    Forall (fun c => 0 <= c /\ c <= 1) colors /\
    (forall (data : list Q) (i : nat),
       pressureData = Some data -> data <> [] -> (i < n)%nat ->
       (nth (3 * i) colors 0, nth (3 * i + 1) colors 0,
        nth (3 * i + 2) colors 0)
       = pressure_color (pressure_at data i)) /\
    (forall (data : list Q) (i : nat),
       (List.length data <= i)%nat -> pressure_at data i = 0) /\
    (pressureData = None \/ pressureData = Some [] ->
     forall i : nat,
       (i < n)%nat ->
       (nth (3 * i) colors 0, nth (3 * i + 1) colors 0,
        nth (3 * i + 2) colors 0)
       = (0.7, 0.7, 0.7)).
Proof.
  intros n pd colors.
  set (grey := fun _ : nat => [0.7; 0.7; 0.7]).
  set (tint := fun (data : list Q) (i : nat) =>
                 let '(r, g, b) := pressure_color (pressure_at data i) in
                 [r; g; b]).
  assert (Hg : forall x, List.length (grey x) = 3%nat) by reflexivity.
  assert (Ht : forall data x, List.length (tint data x) = 3%nat)
    by reflexivity.
  assert (Hgrey : forall i, (i < n)%nat ->
            (nth (3 * i) (flat_map grey (seq 0 n)) 0,
             nth (3 * i + 1) (flat_map grey (seq 0 n)) 0,
             nth (3 * i + 2) (flat_map grey (seq 0 n)) 0)
            = (0.7, 0.7, 0.7)).
  { intros i Hi.
    rewrite <- (Nat.add_0_r (3 * i)) at 1.
    rewrite !(nth_flat_map_blocks grey 3 0%nat 0 Hg)
      by (rewrite ?length_seq; lia).
    reflexivity. }
  assert (Htint : forall data i, (i < n)%nat ->
            (nth (3 * i) (flat_map (tint data) (seq 0 n)) 0,
             nth (3 * i + 1) (flat_map (tint data) (seq 0 n)) 0,
             nth (3 * i + 2) (flat_map (tint data) (seq 0 n)) 0)
            = pressure_color (pressure_at data i)).
  { intros data i Hi.
    rewrite <- (Nat.add_0_r (3 * i)) at 1.
    rewrite !(nth_flat_map_blocks (tint data) 3 0%nat 0 (Ht data))
      by (rewrite ?length_seq; lia).
    rewrite (seq_nth_0 n i Hi). reflexivity. }
  assert (Hcases : colors = flat_map grey (seq 0 n) \/
                   exists data, pd = Some data /\ data <> [] /\
                                colors = flat_map (tint data) (seq 0 n)).
  { subst colors. unfold vertex_colors. destruct pd as [[|x data]|].
    - now left.
    - right. exists (x :: data). split; [reflexivity|].
      split; [discriminate | reflexivity].
    - now left. }
  split; [|split; [|split; [|split]]].
  - destruct Hcases as [->|(data & _ & _ & ->)];
      rewrite (length_flat_map_blocks _ 3) by (intro; reflexivity);
      now rewrite length_seq.
  - destruct Hcases as [->|(data & _ & _ & ->)]; apply Forall_flat_map.
    + intros x _. unfold grey. repeat constructor; discriminate.
    + intros x _. unfold tint, pressure_color.
      destruct (shade_range (pressure_at data x)) as [H0 H1].
      repeat constructor; try discriminate; try assumption; lra.
  - intros data i E Hne Hi.
    destruct Hcases as [Hc|(data' & E' & _ & Hc)].
    + exfalso. subst colors pd. unfold vertex_colors in Hc.
      destruct data as [|x data]; [congruence|].
      assert (Hl : List.length (flat_map (tint (x :: data)) (seq 0 n))
                   = List.length (flat_map grey (seq 0 n)))
        by (rewrite !(length_flat_map_blocks _ 3) by (intro; reflexivity);
            reflexivity).
      pose proof (Htint (x :: data) i Hi) as Hp.
      pose proof (Hgrey i Hi) as Hq.
      change (flat_map (tint (x :: data)) (seq 0 n)
              = flat_map grey (seq 0 n)) in Hc.
      rewrite Hc, Hq in Hp. unfold pressure_color in Hp.
      injection Hp as _ Hgreen _. discriminate.
    + rewrite E in E'. injection E' as <-. rewrite Hc. now apply Htint.
  - intros data i Hi. unfold pressure_at.
    now rewrite (proj2 (nth_error_None data i) Hi).
  - intros Hno i Hi.
    destruct Hcases as [->|(data & E & Hne & _)]; [now apply Hgrey|].
    destruct Hno as [Hno|Hno]; rewrite E in Hno; [discriminate|].
    injection Hno as ->. congruence.
Qed.

End ViewerFacts.

(** ** Facts about the STL export *)

Module STLFacts.

Import Stdlib.Floats.Floats.
Import CFD STL ListFacts.
Local Open Scope string_scope.
Local Open Scope nat_scope.

Lemma line_breaks_app (a b : string) :
  line_breaks (a ++ b) = line_breaks a + line_breaks b.
Proof.
  induction a as [|c a IH]; cbn [String.append line_breaks].
  - reflexivity.
  - rewrite IH. lia.
Qed.

Lemma line_breaks_concat (k : nat) (l : list string) :
  Forall (fun s => line_breaks s = k) l ->
  line_breaks (String.concat "" l) = k * List.length l.
Proof.
  induction 1 as [|s l Hs Hl IH]; [cbn; lia|].
  cbn [String.concat List.length]. destruct l as [|s' l'].
  - cbn [List.length]. lia.
  - rewrite !line_breaks_app, Hs, IH. cbn [line_breaks List.length]. lia.
Qed.

Lemma index_triples_length (idx : list nat) :
  List.length (index_triples idx) = (List.length idx + 2) / 3.
Proof.
  assert (H : forall (n : nat) (l : list nat),
             List.length l <= n ->
             List.length (index_triples l) = (List.length l + 2) / 3).
  { induction n as [|n IH]; intros l Hl.
    - destruct l; [reflexivity | cbn in Hl; lia].
    - destruct l as [|a [|b [|c rest]]]; try reflexivity.
      cbn [index_triples List.length]. cbn [List.length] in Hl.
      rewrite IH by lia.
      replace (S (S (S (List.length rest))) + 2)
        with (List.length rest + 2 + 1 * 3) by lia.
      rewrite Nat.div_add by discriminate. lia. }
  exact (H (List.length idx) idx (le_n _)).
Qed.

Section Facts.

Variable toExponential : float -> string.

(** The text of a number holds no line break. *)
Hypothesis one_line : forall x : float, line_breaks (toExponential x) = 0.

Lemma vector_text_one_line (v : Vector3) :
  line_breaks (vector_text toExponential v) = 0.
Proof.
  unfold vector_text. rewrite !line_breaks_app, !one_line. reflexivity.
Qed.

Lemma facet_seven_lines (g : BufferGeometry)
  (t : option nat * option nat * option nat) :
  line_breaks (facet toExponential g t) = 7.
Proof.
  unfold facet. destruct t as [[i0 i1] i2]. cbv zeta.
  rewrite !line_breaks_app, !vector_text_one_line. reflexivity.
Qed.

(** X16.  The STL export refuses a geometry without an index; for an
    indexed geometry it writes a header line, seven lines for every
    started group of three indices and a footer line. *)
Theorem generateSTLString_line_count :
  forall g : BufferGeometry,
    (index g = None -> generateSTLString toExponential g = None) /\
    (forall idx : list nat,
       index g = Some idx ->
       exists text : string,
         generateSTLString toExponential g = Some text /\
         line_breaks text = 2 + 7 * ((List.length idx + 2) / 3)).
Proof.
  intro g. unfold generateSTLString. split.
  - now intros ->.
  - intros idx ->. eexists. split; [reflexivity|].
    rewrite !line_breaks_app.
    rewrite (line_breaks_concat 7).
    + rewrite length_map, index_triples_length.
      change (line_breaks "solid exported") with 0.
      change (line_breaks "endsolid exported") with 0.
      change (line_breaks nl) with 1. lia.
    + apply Forall_map. apply Forall_forall. intros t _.
      apply facet_seven_lines.
Qed.

End Facts.

Lemma generateSTLString_line_count_witness :
  (index one_triangle = None ->
   generateSTLString zero_text one_triangle = None) /\
  (forall idx : list nat,
     index one_triangle = Some idx ->
     exists text : string,
       generateSTLString zero_text one_triangle = Some text /\
       line_breaks text = 2 + 7 * ((List.length idx + 2) / 3)).
Proof.
  apply (generateSTLString_line_count zero_text).
  intro x. reflexivity.
Defined.

End STLFacts.

(** ** Facts about the scenario catalog *)

Module CatalogFacts.

Import QHelp Genetic Objective Page.
Local Open Scope Q_scope.

(** X17.  The fitness each scenario of the catalog optimises: the two
    wing scenarios whose goal says "Maximize L/D" use [Cl / Cd] (0 when
    [|Cd| <= 0.001]), the car spoiler uses [- Cl], and every other
    scenario, whatever its goal says, uses [- Cd]. *)
Theorem catalog_goals_select_fitness :
  Forall (fun e =>
            forall cd cl : Q,
              goal_fitness (optimizationGoal (scenario e)) cd cl
              = if (String.eqb (id e) "f1-wing"
                    || String.eqb (id e) "uav-wing")%bool
                then (if Qlt_bool 0.001 (Qabs cd) then cl / cd else 0)
                else if String.eqb (id e) "car-spoiler" then - cl
                     else - cd)
         scenarios.
Proof.
  unfold scenarios, entry. repeat constructor.
Qed.

End CatalogFacts.

(** ** Facts about the shapes the generators build *)

Module ShapeFacts.

Import Lra Genetic Geometry GeometryFacts ListFacts Examples.
Local Open Scope R_scope.

(** *** The genes a shape family reads *)

Lemma gene_or_find_value (gs : list Gene) (n : string) (d : Q) :
  gene_or gs n d
  = match find_value gs n with
    | Some v => if Qeq_bool v 0 then d else v
    | None => d
    end.
Proof.
  unfold gene_or, find_value. now destruct (find _ gs).
Qed.

Lemma generate_ext (baseGeometry : string) (gs gs' : list Gene) :
  (forall (n : string) (d : Q),
     In n (genes_read baseGeometry) -> gene_or gs n d = gene_or gs' n d) ->
  generate baseGeometry gs = generate baseGeometry gs'.
Proof.
  unfold generate, genes_read. intro H.
  destruct (String.eqb baseGeometry "naca");
    [|destruct (String.eqb baseGeometry "ogive");
      [|destruct (String.eqb baseGeometry "ahmed")]].
  - rewrite !(H "camber"%string), !(H "camberPos"%string),
      !(H "thickness"%string), !(H "chord"%string), !(H "span"%string)
      by (cbn; tauto).
    reflexivity.
  - rewrite !(H "length"%string), !(H "radius"%string) by (cbn; tauto).
    reflexivity.
  - rewrite !(H "slantAngle"%string) by (cbn; tauto). reflexivity.
  - reflexivity.
Qed.

(** X18.  The geometry built for a chromosome depends only on the genes
    its shape family looks up by name (camber, camberPos, thickness,
    chord and span for "naca"; length and radius for "ogive"; slantAngle
    for "ahmed"; none for any other tag): two chromosomes in which the
    first gene of each of these names has the same value give the same
    geometry, whatever their other genes are. *)
Theorem generate_reads_only_named_genes :
  forall (baseGeometry : string) (gs gs' : list Gene),
    (forall n : string,
       In n (genes_read baseGeometry) ->
       find_value gs n = find_value gs' n) ->
    generate baseGeometry gs = generate baseGeometry gs'.
Proof.
  intros b gs gs' H. apply generate_ext. intros n d Hn.
  now rewrite !gene_or_find_value, (H n Hn).
Qed.

Lemma find_without_other (n m : string) (gs : list Gene) :
  m <> n ->
  find (fun g => String.eqb (name g) m) (without n gs)
  = find (fun g => String.eqb (name g) m) gs.
Proof.
  intro Hne. unfold without.
  induction gs as [|g gs IH]; [reflexivity|].
  cbn [filter find].
  destruct (String.eqb (name g) n) eqn:En; cbn [negb find].
  - apply String.eqb_eq in En.
    destruct (String.eqb (name g) m) eqn:Em; [|exact IH].
    apply String.eqb_eq in Em. congruence.
  - now rewrite IH.
Qed.

Lemma find_without_same (n : string) (gs : list Gene) :
  find (fun g => String.eqb (name g) n) (without n gs) = None.
Proof.
  unfold without. induction gs as [|g gs IH]; [reflexivity|].
  cbn [filter].
  destruct (String.eqb (name g) n) eqn:En; cbn [negb find];
    [exact IH | now rewrite En].
Qed.

(** X19.  A gene whose value is exactly 0 counts as missing: if the
    first gene named [n] of a chromosome has value 0, the geometry is the
    one built for the chromosome without its genes named [n], so the
    generator takes the default of that parameter (25 degrees for the
    slant angle of the Ahmed body, whose lower bound in the catalog is
    0). *)
Theorem zero_gene_counts_as_missing :
  forall (baseGeometry n : string) (gs : list Gene) (g : Gene),
    find (fun h => String.eqb (name h) n) gs = Some g ->
    (value g == 0)%Q ->
    generate baseGeometry gs = generate baseGeometry (without n gs).
Proof.
  intros b n gs g Hf Hz. apply generate_ext. intros m d _.
  unfold gene_or.
  destruct (string_dec m n) as [->|Hne].
  - rewrite find_without_same, Hf.
    now rewrite (proj2 (Qeq_bool_iff _ _) Hz).
  - now rewrite (find_without_other n m gs Hne).
Qed.

Lemma generate_reads_only_named_genes_witness :
  generate "ogive" short_train = generate "ogive" coarse_train.
Proof.
  apply (generate_reads_only_named_genes "ogive" short_train coarse_train).
  intros n [<-|[<-|[]]]; reflexivity.
Defined.

Lemma zero_gene_counts_as_missing_witness :
  generate "ahmed" flat_back = generate "ahmed" (without "slantAngle" flat_back).
Proof.
  apply (zero_gene_counts_as_missing "ahmed" "slantAngle" flat_back
           (mkGene "slantAngle" 0 0 40)); reflexivity.
Defined.

(** *** Reading arrays built by [map] and in blocks *)

Lemma nth_map_seq {Y : Type} (f : nat -> Y) (k i : nat) (d : Y) :
  (i < k)%nat -> nth i (map f (seq 0 k)) d = f i.
Proof.
  intro H. rewrite (nth_indep _ d (f 0%nat))
    by (now rewrite length_map, length_seq).
  now rewrite map_nth, seq_nth.
Qed.

Lemma nth_map_rev_seq {Y : Type} (f : nat -> Y) (k i : nat) (d : Y) :
  (i < k)%nat -> nth i (map f (rev (seq 0 k))) d = f (k - S i)%nat.
Proof.
  intro H. rewrite (nth_indep _ d (f 0%nat))
    by (now rewrite length_map, length_rev, length_seq).
  rewrite map_nth, rev_nth by (now rewrite length_seq).
  rewrite length_seq, seq_nth by lia. reflexivity.
Qed.

(** Coordinate [c] of vertex [i * length l + j] of a position array
    filled section by section. *)
Lemma nth_grid {X : Type} (cell : nat -> X -> list R) (l : list X) (k : nat)
  (x0 : X) (i j c : nat) :
  (forall a x, List.length (cell a x) = 3%nat) ->
  (i < k)%nat -> (j < List.length l)%nat -> (c < 3)%nat ->
  nth (3 * (i * List.length l + j) + c)
      (flat_map (fun a => flat_map (cell a) l) (seq 0 k)) 0
  = nth c (cell i (nth j l x0)) 0.
Proof.
  intros Hc Hi Hj Hlt.
  replace (3 * (i * List.length l + j) + c)%nat
    with (3 * List.length l * i + (3 * j + c))%nat by lia.
  rewrite (nth_flat_map_blocks (fun a => flat_map (cell a) l)
             (3 * List.length l) 0%nat 0).
  - rewrite seq_nth by exact Hi. cbn [Nat.add].
    now rewrite (nth_flat_map_blocks (cell i) 3 x0 0 (Hc i)).
  - intro a. apply length_flat_map_blocks. apply Hc.
  - now rewrite length_seq.
  - lia.
Qed.

Lemma vertex_grid {X : Type} (cell : nat -> X -> list R) (l : list X)
  (k : nat) (x0 : X) (idx : list nat) (i j : nat) :
  (forall a x, List.length (cell a x) = 3%nat) ->
  (i < k)%nat -> (j < List.length l)%nat ->
  vertex {| position := flat_map (fun a => flat_map (cell a) l) (seq 0 k);
            index := idx |}
         (i * List.length l + j)
  = (nth 0 (cell i (nth j l x0)) 0, nth 1 (cell i (nth j l x0)) 0,
     nth 2 (cell i (nth j l x0)) 0).
Proof.
  intros Hc Hi Hj. unfold vertex. cbn [position].
  rewrite <- (Nat.add_0_r (3 * (i * List.length l + j))) at 1.
  now rewrite !(nth_grid cell l k x0 i j) by (assumption || lia).
Qed.

(** *** The airfoil *)

Lemma naca_camber_flat (M P xi : R) :
  M = 0 \/ P <= 0 -> naca_camber M P xi = (0, 0).
Proof.
  intros [->|HP]; unfold naca_camber.
  - destruct (Rltb xi P && Rltb 0 P); [|destruct (Rltb 0 P)];
      try reflexivity; f_equal; unfold Rdiv; ring.
  - assert (E : Rltb 0 P = false)
      by (unfold Rltb; destruct (Rlt_dec 0 P); [lra | reflexivity]).
    now rewrite E, andb_false_r.
Qed.

Lemma naca_point_flat (M P T : R) (n : nat) (upper : bool) (i : nat) :
  M = 0 \/ P <= 0 ->
  naca_point M P T n upper i
  = let xi := (1 - cos (INR i / INR n * PI)) / 2 in
    (xi, if upper then naca_yt T xi else - naca_yt T xi).
Proof.
  intro H. unfold naca_point. cbv zeta.
  rewrite (naca_camber_flat _ _ _ H), atan_0, sin_0, cos_0.
  destruct upper; f_equal; ring.
Qed.

(** X20.  With zero camber, or a camber position that is not positive,
    the airfoil is symmetric (over the reals): the lower surface repeats
    the abscissas of the upper surface in reverse order with the
    ordinates negated. *)
Theorem naca_flat_camber_is_symmetric :
  forall (m p t : R) (numPoints : nat),
    m = 0 \/ p <= 0 ->
    exists xs ys : list R,
      List.length xs = S numPoints /\
      List.length ys = S numPoints /\
      generateNACA4Airfoil m p t numPoints
      = (xs ++ rev xs, ys ++ rev (map Ropp ys)).
Proof.
  intros m p t n H.
  assert (H' : m / 100 = 0 \/ p / 10 <= 0) by (destruct H; [left | right]; lra).
  set (xi := fun i : nat => (1 - cos (INR i / INR n * PI)) / 2).
  exists (map xi (seq 0 (S n))),
         (map (fun i => naca_yt (t / 100) (xi i)) (seq 0 (S n))).
  split; [now rewrite length_map, length_seq|].
  split; [now rewrite length_map, length_seq|].
  unfold generateNACA4Airfoil. cbv zeta.
  rewrite !map_rev, !map_map.
  apply f_equal2; apply f_equal2; try apply f_equal;
    apply map_ext; intro i; now rewrite (naca_point_flat _ _ _ _ _ _ H').
Qed.

Lemma naca_point_leading (M P T : R) (n : nat) (upper : bool) :
  naca_point M P T n upper 0 = (0, 0).
Proof.
  unfold naca_point. cbv zeta. cbn [INR].
  replace (0 / INR n * PI) with 0 by (unfold Rdiv; ring).
  rewrite cos_0. replace ((1 - 1) / 2) with 0 by lra.
  assert (Hyt : naca_yt T 0 = 0)
    by (unfold naca_yt; rewrite sqrt_0; ring).
  assert (Hc : exists d, naca_camber M P 0 = (0, d)).
  { unfold naca_camber.
    destruct (Rltb 0 P && Rltb 0 P) eqn:E.
    - eexists. f_equal. ring.
    - destruct (Rltb 0 P); [discriminate|]. now eexists. }
  destruct Hc as [d ->]. rewrite Hyt.
  destruct upper; f_equal; ring.
Qed.

Lemma naca_point_trailing (M P T : R) (n : nat) :
  (0 < n)%nat ->
  exists yc theta : R,
    naca_point M P T n true n
    = (1 - 0.0105 * T * sin theta, yc + 0.0105 * T * cos theta) /\
    naca_point M P T n false n
    = (1 + 0.0105 * T * sin theta, yc - 0.0105 * T * cos theta).
Proof.
  intro Hn. unfold naca_point. cbv zeta.
  assert (Hi : INR n <> 0) by (apply not_0_INR; lia).
  replace (INR n / INR n * PI) with PI by (field; exact Hi).
  rewrite cos_PI. replace ((1 - -1) / 2) with 1 by lra.
  assert (Hyt : naca_yt T 1 = 0.0105 * T)
    by (unfold naca_yt; rewrite sqrt_1; lra).
  rewrite Hyt. destruct (naca_camber M P 1) as [yc d].
  exists yc, (atan d). split; reflexivity.
Qed.

(** X21.  The outline of the airfoil, for at least one point per
    surface: its first and its last point are both the leading edge
    [(0, 0)], so the outline closes there; for a thickness that is not
    zero and a camber position other than 10 (where the source divides
    by zero), the last point of the upper surface and the first point of
    the lower surface, both at the trailing edge, differ, so the outline
    stays open there. *)
Theorem naca_outline_closed_in_front_open_behind :
  forall (m p t : R) (numPoints : nat),
    (0 < numPoints)%nat ->
    let x := fst (generateNACA4Airfoil m p t numPoints) in
    let y := snd (generateNACA4Airfoil m p t numPoints) in
    let last := (2 * numPoints + 1)%nat in
    (nth 0 x 0, nth 0 y 0) = (0, 0) /\
    (nth last x 0, nth last y 0) = (0, 0) /\
    (t <> 0 -> p <> 10 ->
     (nth (S numPoints) x 0, nth (S numPoints) y 0)
     <> (nth numPoints x 0, nth numPoints y 0)).
Proof.
  intros m p t n Hn x y last. subst x y last.
  unfold generateNACA4Airfoil. cbv zeta. cbn [fst snd].
  rewrite !map_map.
  set (M := m / 100). set (P := p / 10). set (T := t / 100).
  assert (Hup : forall (h : R * R -> R) (i : nat),
            (i <= n)%nat ->
            nth i (map (fun a => h (naca_point M P T n true a))
                       (seq 0 (S n))
                   ++ map (fun a => h (naca_point M P T n false a))
                          (rev (seq 0 (S n)))) 0
            = h (naca_point M P T n true i)).
  { intros h i Hi. rewrite app_nth1 by (rewrite length_map, length_seq; lia).
    apply (nth_map_seq (fun a => h (naca_point M P T n true a))). lia. }
  assert (Hlo : forall (h : R * R -> R) (i : nat),
            (i <= n)%nat ->
            nth (S n + i)
                (map (fun a => h (naca_point M P T n true a))
                     (seq 0 (S n))
                 ++ map (fun a => h (naca_point M P T n false a))
                        (rev (seq 0 (S n)))) 0
            = h (naca_point M P T n false (n - i))).
  { intros h i Hi. rewrite app_nth2 by (rewrite length_map, length_seq; lia).
    rewrite length_map, length_seq.
    replace (S n + i - S n)%nat with i by lia.
    rewrite (nth_map_rev_seq (fun a => h (naca_point M P T n false a)))
      by lia.
    f_equal. }
  split; [|split].
  - rewrite !Hup by lia. now rewrite naca_point_leading.
  - replace (2 * n + 1)%nat with (S n + n)%nat by lia.
    rewrite !Hlo by lia. rewrite Nat.sub_diag.
    now rewrite naca_point_leading.
  - intros Ht _.
    pose proof (Hlo fst 0%nat (Nat.le_0_l n)) as Hx.
    pose proof (Hlo snd 0%nat (Nat.le_0_l n)) as Hy.
    rewrite Nat.add_0_r, Nat.sub_0_r in Hx, Hy.
    rewrite Hx, Hy, !Hup by lia.
    destruct (naca_point_trailing M P T n Hn) as (yc & theta & -> & ->).
    cbn [fst snd]. intro E. injection E as Ex Ey.
    pose proof (sin2_cos2 theta) as Hsc. unfold Rsqr in Hsc.
    assert (HT : T <> 0) by (unfold T; lra).
    assert (Hs : T * sin theta = 0) by lra.
    assert (Hc : T * cos theta = 0) by lra.
    apply Rmult_integral in Hs. apply Rmult_integral in Hc.
    destruct Hs as [Hs|Hs]; [contradiction|].
    destruct Hc as [Hc|Hc]; [contradiction|].
    rewrite Hs, Hc in Hsc. lra.
Qed.

(** *** The ogive *)



(** *** The Ahmed body and the wing *)


Lemma wing_vertex (airfoilX airfoilY : list R) (span chord : R)
  (segments i j : nat) :
  (i <= segments)%nat -> (j < List.length airfoilX)%nat ->
  vertex (createWingGeometry airfoilX airfoilY span chord segments)
         (i * List.length airfoilX + j)
  = (nth j airfoilX 0 * chord, nth j airfoilY 0 * chord,
     (INR i / INR segments - 0.5) * span).
Proof.
  intros Hi Hj. unfold createWingGeometry. cbv zeta.
  match goal with
  | |- context [ {| position := _; index := ?ix |} ] => set (idx := ix)
  end.
  pose proof (vertex_grid
                (fun (s b : nat) =>
                   [nth b airfoilX 0 * chord; nth b airfoilY 0 * chord;
                    (INR s / INR segments - 0.5) * span])
                (seq 0 (List.length airfoilX)) (S segments) 0%nat idx i j)
    as Hv.
  rewrite length_seq in Hv.
  rewrite Hv; [|reflexivity|lia|exact Hj].
  rewrite seq_nth by exact Hj. reflexivity.
Qed.

(** X25.  The layout of the wing: every section is a copy of the first
    one moved along the span.  Vertex [j] of section [i] has the [x] and
    the [y] of vertex [j] of the first section, and the [z] of the first
    vertex of its own section. *)
Theorem wing_sections_copy_the_profile :
  forall (airfoilX airfoilY : list R) (span chord : R)
         (segments i j : nat),
    (i <= segments)%nat -> (j < List.length airfoilX)%nat ->
    let g := createWingGeometry airfoilX airfoilY span chord segments in
    let '(x, y, z) := vertex g (i * List.length airfoilX + j) in
    let '(x0, y0, _) := vertex g j in
    let '(_, _, zi) := vertex g (i * List.length airfoilX) in
    x = x0 /\ y = y0 /\ z = zi.
Proof.
  intros X Y span chord segments i j Hi Hj g. subst g.
  rewrite (wing_vertex X Y span chord segments i j Hi Hj).
  pose proof (wing_vertex X Y span chord segments 0 j (Nat.le_0_l _) Hj)
    as H0.
  cbn [Nat.mul Nat.add] in H0. rewrite H0.
  pose proof (wing_vertex X Y span chord segments i 0 Hi) as Hz.
  rewrite Nat.add_0_r in Hz. rewrite Hz by lia.
  repeat split.
Qed.

(** *** The properties on example shapes *)

Lemma naca_flat_camber_is_symmetric_witness :
  exists xs ys : list R,
    List.length xs = 51%nat /\
    List.length ys = 51%nat /\
    generateNACA4Airfoil 0 4 12 50
    = (xs ++ rev xs, ys ++ rev (map Ropp ys)).
Proof.
  apply (naca_flat_camber_is_symmetric 0 4 12 50). left. reflexivity.
Defined.

Lemma naca_outline_closed_in_front_open_behind_witness :
  let x := fst (generateNACA4Airfoil 4 4 12 50) in
  let y := snd (generateNACA4Airfoil 4 4 12 50) in
  (nth 0 x 0, nth 0 y 0) = (0, 0) /\
  (nth 101 x 0, nth 101 y 0) = (0, 0) /\
  (12 <> 0 -> 4 <> 10 ->
   (nth 51 x 0, nth 51 y 0) <> (nth 50 x 0, nth 50 y 0)).
Proof.
  apply (naca_outline_closed_in_front_open_behind 4 4 12 50). lia.
Defined.

Lemma wing_sections_copy_the_profile_witness :
  let g := createWingGeometry [0; 1] [0; 0.1] 2 1 20 in
  let '(x, y, z) := vertex g (20 * 2 + 1) in
  let '(x0, y0, _) := vertex g 1 in
  let '(_, _, zi) := vertex g (20 * 2) in
  x = x0 /\ y = y0 /\ z = zi.
Proof.
  apply (wing_sections_copy_the_profile [0; 1] [0; 0.1] 2 1 20 20 1);
    cbn; lia.
Defined.

End ShapeFacts.

(** ** Facts about the triangles of the generated shapes *)

Module MeshFacts.

Import Lra Genetic Objective Geometry GeometryFacts ListFacts ShapeFacts.
Import Examples Page.
Local Open Scope R_scope.

(** *** Triangles of zero area *)







(** *** The wing *)



(** *** The outline of the airfoil *)




(** *** The ogive *)






(** *** The Ahmed body *)



(** *** The shapes the page builds *)







(** *** Chromosomes of the catalog *)











End MeshFacts.

(** ** Facts about the forces and the coefficients of the solver *)

Module SolverFacts.

Import Stdlib.Floats.Floats.
Import CFD CFDFacts SolverTerms.
Local Open Scope float_scope.
Set Warnings "-inexact-float".

(** *** Non-finite numbers in the arithmetic of the solver *)

Lemma wild_of_not_finite (x : float) : is_finite x = false -> wild x.
Proof.
  unfold is_finite, is_nan, is_infinity, wild.
  rewrite !eqb_spec, abs_spec.
  change (Prim2SF infinity) with (S754_infinity false).
  destruct (Prim2SF x) as [s|s| |s m e].
  - cbn. discriminate.
  - intros _. right. now exists s.
  - intros _. now left.
  - unfold SFeqb, SFcompare, SFabs.
    rewrite Z.compare_refl, Pos.compare_cont_refl.
    destruct s; cbn; discriminate.
Qed.

Lemma wild_not_finite (x : float) : wild x -> is_finite x = false.
Proof.
  apply not_finite_of_spec.
Qed.

Lemma zeroish_eqb (z : float) : zeroish z -> (z =? 0) = true.
Proof.
  intros [s E]. rewrite eqb_spec, E. reflexivity.
Qed.

Lemma mul_by_zero (q z : float) :
  zeroish z -> zeroish (q * z) \/ Prim2SF (q * z) = S754_nan.
Proof.
  intros [s E]. unfold zeroish. rewrite mul_spec, E.
  destruct (Prim2SF q) as [sq|sq| |sq m e]; cbn; eauto.
Qed.

Lemma div_by_nan (l z : float) :
  Prim2SF z = S754_nan -> Prim2SF (l / z) = S754_nan.
Proof.
  intro E. rewrite div_spec, E. now destruct (Prim2SF l).
Qed.

Lemma div_zero_product (l q area : float) :
  (area =? 0) = true -> is_finite (l / (q * area)) = false.
Proof.
  intro Hz. apply not_finite_of_spec.
  destruct (mul_by_zero q area (eqb_zero_spec area Hz)) as [Hq|Hq].
  - apply div_zero_spec. now apply zeroish_eqb.
  - left. now apply div_by_nan.
Qed.

(** X26.  The division by the reference area is not guarded: for every
    solver and geometry, a reference area of zero (either sign) makes the
    drag and the lift coefficient NaN or infinite. *)
Theorem coefficients_at_zero_reference_area :
  forall (s : PanelMethodSolver) (g : BufferGeometry)
         (referenceArea : float),
    (referenceArea =? 0) = true ->
    is_finite (calculateDragCoefficient s g referenceArea) = false /\
    is_finite (calculateLiftCoefficient s g referenceArea) = false.
Proof.
  intros s g area Hz.
  unfold calculateDragCoefficient, calculateLiftCoefficient. cbv zeta.
  split; now apply div_zero_product.
Qed.

Lemma sub_wild (x y : float) : wild y -> wild (x - y).
Proof.
  unfold wild. rewrite sub_spec. intros [E|[s E]]; rewrite E.
  - left. now destruct (Prim2SF x).
  - destruct (Prim2SF x) as [sx|sx| |sx m e]; cbn; eauto.
    destruct sx, s; eauto.
Qed.

Lemma square_wild (d : float) : wild d -> blown (d * d).
Proof.
  unfold wild, blown. rewrite mul_spec. intros [E|[s E]]; rewrite E.
  - now left.
  - right. now destruct s.
Qed.

Lemma add_blown_l (a b : float) : blown a -> blown (a + b).
Proof.
  unfold blown. rewrite add_spec. intros [E|E]; rewrite E.
  - now left.
  - destruct (Prim2SF b) as [sb|sb| |sb m e]; cbn; auto.
    destruct sb; auto.
Qed.

Lemma add_blown_r (a b : float) : blown b -> blown (a + b).
Proof.
  unfold blown. rewrite add_spec. intros [E|E]; rewrite E.
  - left. now destruct (Prim2SF a).
  - destruct (Prim2SF a) as [sa|sa| |sa m e]; cbn; auto.
    destruct sa; auto.
Qed.

Lemma sqrt_blown (a : float) : blown a -> blown (sqrt a).
Proof.
  unfold blown. rewrite sqrt_spec. intros [E|E]; rewrite E; auto.
Qed.

Lemma blown_not_small (a : float) : blown a -> (a <? 0.001) = false.
Proof.
  unfold blown. rewrite ltb_spec. intros [E|E]; now rewrite E.
Qed.

Lemma zeroish_small (a : float) : zeroish a -> (a <? 0.001) = true.
Proof.
  intros [s E]. rewrite ltb_spec, E. reflexivity.
Qed.

Lemma distanceTo_wild (a b : Vector3) :
  wild (vx b) \/ wild (vy b) \/ wild (vz b) -> blown (distanceTo a b).
Proof.
  intro H. unfold distanceTo, vlength, lengthSq, subVectors.
  cbn [vx vy vz]. apply sqrt_blown.
  destruct H as [H|[H|H]].
  - apply add_blown_l, add_blown_l, square_wild, sub_wild, H.
  - apply add_blown_l, add_blown_r, square_wild, sub_wild, H.
  - apply add_blown_r, square_wild, sub_wild, H.
Qed.

(** *** The scan of the force loop *)

Lemma center_panel_of (g : BufferGeometry)
  (t : option nat * option nat * option nat) :
  center (panel_of g t) = centroid g t.
Proof.
  now destruct t as [[i0 i1] i2].
Qed.

Lemma find_avgCp_finds (g : BufferGeometry) (cps : list float)
  (t : option nat * option nat * option nat) :
  is_finite (vx (centroid g t)) = true ->
  is_finite (vy (centroid g t)) = true ->
  is_finite (vz (centroid g t)) = true ->
  forall ts : list (option nat * option nat * option nat),
    In t ts ->
    exists avgCp, find_avgCp g cps ts (panel_of g t) = Some avgCp.
Proof.
  intros Hx Hy Hz ts. induction ts as [|u ts IH]; intro Hin;
    [destruct Hin|].
  cbn [find_avgCp].
  destruct (distanceTo (centroid g u) (center (panel_of g t)) <? 0.001)
    eqn:E.
  - destruct u as [[i0 i1] i2]. now eexists.
  - destruct Hin as [->|Hin]; [|now apply IH].
    rewrite center_panel_of in E.
    rewrite (zeroish_small _ (distanceTo_self _ Hx Hy Hz)) in E.
    discriminate.
Qed.

Lemma find_avgCp_misses (g : BufferGeometry) (cps : list float)
  (panel : Panel) :
  wild (vx (center panel)) \/ wild (vy (center panel)) \/
  wild (vz (center panel)) ->
  forall ts : list (option nat * option nat * option nat),
    find_avgCp g cps ts panel = None.
Proof.
  intros H ts. induction ts as [|u ts IH]; [reflexivity|].
  cbn [find_avgCp].
  now rewrite (blown_not_small _ (distanceTo_wild (centroid g u) _ H)).
Qed.

(** X27.  The force loop of [solve] counts the panels with a finite
    centre and only those: the panel of a triangle of the index whose
    centroid has finite coordinates always finds a triangle with a
    centroid within 0.001 of its own (itself at the latest), so it adds
    its force; a panel whose centre has a NaN or infinite coordinate
    matches no triangle and leaves the forces as they are. *)
Theorem force_loop_counts_finite_panels_only :
  forall (s : PanelMethodSolver) (g : BufferGeometry) (cps : list float),
    (forall t : option nat * option nat * option nat,
       In t (geometry_triples g) ->
       is_finite (vx (centroid g t)) = true ->
       is_finite (vy (centroid g t)) = true ->
       is_finite (vz (centroid g t)) = true ->
       exists avgCp,
         find_avgCp g cps (geometry_triples g) (panel_of g t)
         = Some avgCp) /\
    (forall (panel : Panel) (forces : float * float),
       is_finite (vx (center panel)) = false \/
       is_finite (vy (center panel)) = false \/
       is_finite (vz (center panel)) = false ->
       add_force s g cps forces panel = forces).
Proof.
  intros s g cps. split.
  - intros t Hin Hx Hy Hz. now apply find_avgCp_finds.
  - intros panel forces H. unfold add_force.
    rewrite find_avgCp_misses; [reflexivity|].
    destruct H as [H|[H|H]]; [left | right; left | right; right];
      now apply wild_of_not_finite.
Qed.

Lemma coefficients_at_zero_reference_area_witness :
  is_finite (calculateDragCoefficient cruise one_triangle 0) = false /\
  is_finite (calculateLiftCoefficient cruise one_triangle 0) = false.
Proof.
  apply (coefficients_at_zero_reference_area cruise one_triangle 0).
  reflexivity.
Defined.

Lemma force_loop_counts_finite_panels_only_witness :
  (exists avgCp,
     find_avgCp one_triangle [0; 0; 0] (geometry_triples one_triangle)
                (panel_of one_triangle (Some 0%nat, Some 1%nat, Some 2%nat))
     = Some avgCp) /\
  add_force cruise one_triangle [0; 0; 0] (1, 2)
            (mkPanel (mkVector3 nan 0 0) (mkVector3 0 0 1) 0.5)
  = (1, 2).
Proof.
  destruct (force_loop_counts_finite_panels_only cruise one_triangle
              [0; 0; 0]) as [Hfinds Hskips].
  split.
  - apply Hfinds; [now left | reflexivity | reflexivity | reflexivity].
  - apply Hskips. left. reflexivity.
Defined.

End SolverFacts.

(** ** Facts about the numeric steps of the optimizer in binary64 *)

Module Genetic64Facts.

Import Stdlib.Floats.Floats.
Import Genetic64.
Local Open Scope float_scope.
Set Warnings "-inexact-float".

(** *** The order of binary64 numbers *)

Lemma SFcompare_antisym (x y : spec_float) :
  SFcompare y x = option_map CompOpp (SFcompare x y).
Proof.
  destruct x as [sx|sx| |sx mx ex], y as [sy|sy| |sy my ey]; cbn;
    try reflexivity; try (destruct sx; reflexivity);
    try (destruct sy; reflexivity);
    try (destruct sx, sy; reflexivity).
  destruct sx, sy; cbn; try reflexivity.
  - rewrite (Z.compare_antisym ex ey).
    destruct (ex ?= ey)%Z; cbn; try reflexivity.
    now rewrite (Pos.compare_cont_antisym mx my Eq).
  - rewrite (Z.compare_antisym ex ey).
    destruct (ex ?= ey)%Z; cbn; try reflexivity.
    now rewrite (Pos.compare_cont_antisym mx my Eq).
Qed.

Lemma SFcompare_refl (x : spec_float) :
  x <> S754_nan -> SFcompare x x = Some Eq.
Proof.
  destruct x as [s|s| |s m e]; cbn; intro H; try reflexivity.
  - now destruct s.
  - congruence.
  - rewrite Z.compare_refl, Pos.compare_cont_refl. now destruct s.
Qed.

Lemma is_nan_spec (a : float) : is_nan a = true <-> Prim2SF a = S754_nan.
Proof.
  unfold is_nan. split.
  - rewrite FloatAxioms.eqb_spec. unfold SFeqb.
    destruct (Prim2SF a) as [s|s| |s m e] eqn:E; try reflexivity;
      rewrite SFcompare_refl by discriminate; discriminate.
  - intro E. rewrite FloatAxioms.eqb_spec, E. reflexivity.
Qed.

Lemma not_nan_spec (a : float) : is_nan a = false <-> Prim2SF a <> S754_nan.
Proof.
  rewrite <- is_nan_spec. now destruct (is_nan a).
Qed.

Lemma compare_defined (a b : float) :
  is_nan a = false -> is_nan b = false ->
  exists c, SFcompare (Prim2SF a) (Prim2SF b) = Some c.
Proof.
  intros Ha Hb. apply not_nan_spec in Ha. apply not_nan_spec in Hb.
  destruct (Prim2SF a) as [sa|sa| |sa ma ea], (Prim2SF b) as [sb|sb| |sb mb eb];
    cbn; try congruence; eauto.
Qed.

Lemma leb_of_not_ltb (a b : float) :
  is_nan a = false -> is_nan b = false ->
  (a <? b) = false -> (b <=? a) = true.
Proof.
  intros Ha Hb. rewrite FloatAxioms.ltb_spec, FloatAxioms.leb_spec. unfold SFltb, SFleb.
  rewrite (SFcompare_antisym (Prim2SF a) (Prim2SF b)).
  destruct (compare_defined a b Ha Hb) as [c ->]. now destruct c.
Qed.

Lemma ltb_leb (a b : float) : (a <? b) = true -> (a <=? b) = true.
Proof.
  rewrite FloatAxioms.ltb_spec, FloatAxioms.leb_spec. unfold SFltb, SFleb.
  destruct (SFcompare _ _) as [[| |]|]; congruence.
Qed.

Lemma leb_refl (a : float) : is_nan a = false -> (a <=? a) = true.
Proof.
  intro Ha. apply not_nan_spec in Ha. rewrite FloatAxioms.leb_spec. unfold SFleb.
  now rewrite SFcompare_refl.
Qed.

Lemma leb_not_nan (a b : float) :
  (a <=? b) = true -> is_nan a = false /\ is_nan b = false.
Proof.
  rewrite FloatAxioms.leb_spec. unfold SFleb. intro H.
  split; apply not_nan_spec; intro E; rewrite E in H.
  - discriminate.
  - now destruct (Prim2SF a).
Qed.

Lemma Math_min_cases (a b : float) :
  is_nan a = false -> is_nan b = false ->
  (Math_min a b = a /\ (a <=? b) = true) \/
  (Math_min a b = b /\ (b <=? a) = true).
Proof.
  intros Ha Hb. unfold Math_min. rewrite Ha, Hb. cbn [orb].
  destruct (a <? b) eqn:Eab; [left; split; [reflexivity | now apply ltb_leb]|].
  destruct (b <? a) eqn:Eba; [right; split; [reflexivity | now apply ltb_leb]|].
  destruct (classify a);
    try (left; split; [reflexivity | now apply leb_of_not_ltb]).
  right. split; [reflexivity | now apply leb_of_not_ltb].
Qed.

Lemma Math_max_cases (a b : float) :
  is_nan a = false -> is_nan b = false ->
  (Math_max a b = a /\ (b <=? a) = true) \/
  (Math_max a b = b /\ (a <=? b) = true).
Proof.
  intros Ha Hb. unfold Math_max. rewrite Ha, Hb. cbn [orb].
  destruct (a <? b) eqn:Eab; [right; split; [reflexivity | now apply ltb_leb]|].
  destruct (b <? a) eqn:Eba; [left; split; [reflexivity | now apply ltb_leb]|].
  destruct (classify a);
    try (left; split; [reflexivity | now apply leb_of_not_ltb]).
  right. split; [reflexivity | now apply leb_of_not_ltb].
Qed.

Lemma clamp_within (lo hi x : float) :
  (lo <=? hi) = true -> is_nan x = false ->
  (lo <=? clamp lo hi x) = true /\ (clamp lo hi x <=? hi) = true.
Proof.
  intros Hb Hx. destruct (leb_not_nan _ _ Hb) as [Hlo Hhi]. unfold clamp.
  destruct (Math_min_cases hi x Hhi Hx) as [[Em Hm]|[Em Hm]]; rewrite Em.
  - destruct (Math_max_cases lo hi Hlo Hhi) as [[EM HM]|[EM HM]]; rewrite EM.
    + split; [now apply leb_refl | exact Hb].
    + split; [exact Hb | now apply leb_refl].
  - destruct (Math_max_cases lo x Hlo Hx) as [[EM HM]|[EM HM]]; rewrite EM.
    + split; [now apply leb_refl | exact Hb].
    + split; [exact HM | exact Hm].
Qed.

(** *** Mutation and crossover *)

Lemma clamp_nan (lo hi x : float) :
  is_nan x = true -> is_nan (clamp lo hi x) = true.
Proof.
  intro H. unfold clamp, Math_min. rewrite H, orb_true_r.
  unfold Math_max. change (is_nan nan) with true. now rewrite orb_true_r.
Qed.

Lemma mutate_gene_cases (mutationRate : float) (gene : Gene) (rng : Rng) :
  exists gene' rng',
    mutate_gene mutationRate gene rng = Some (gene', rng') /\
    (gene' = gene \/
     exists r : Draw,
       gene' = {| name := name gene; value := mutated gene r;
                  min := min gene; max := max gene |}).
Proof.
  unfold mutate_gene, bind, random, ret.
  destruct (_ <? mutationRate); eexists _, _; split; try reflexivity.
  - right. now eexists.
  - now left.
Qed.

(** C1.  In binary64 the clamp of [mutate] does what the claim says: a
    gene with ordered bounds on which mutation fires ends within its
    bounds (unless the perturbed value is NaN), and a gene on which it
    does not fire is left as it is.  The blend of [crossover] has no
    clamp and rounds.  Crossing the bullet-train chromosome [fine], whose
    genes are all within their bounds and whose fineness is 0.9, its
    maximum, with itself under the page's rate 0.7 and [alpha = 0.1875]
    gives a child whose fineness is 0.9000000000000001, above the
    maximum; crossing the venturi chromosome [narrow], whose outlet
    diameter is 0.08, its minimum, with itself and
    [alpha = 0.051025390625] gives a child whose outlet diameter is
    0.07999999999999999, below the minimum. *)
Theorem crossover_blend_leaves_bounds :
  (forall (mutationRate : float) (gene : Gene) (rng : Rng),
     (min gene <=? max gene) = true ->
     exists gene' rng',
       mutate_gene mutationRate gene rng = Some (gene', rng') /\
       min gene' = min gene /\ max gene' = max gene /\
       (gene' = gene \/ is_nan (value gene') = true \/
        in_bounds gene' = true)) /\
  (map in_bounds (genes fine) = [true; true; true] /\
   exists child rng',
     crossover 0.7 (Some fine) (Some fine) blending = Some (child, rng') /\
     map value (genes child) = [8; 1.5; 0.9000000000000001] /\
     map in_bounds (genes child) = [true; true; false] /\
     Exists (fun g => (max g <? value g) = true) (genes child)) /\
  (map in_bounds (genes narrow) = [true; true; true; true] /\
   exists child rng',
     crossover 0.7 (Some narrow) (Some narrow) blending_low
     = Some (child, rng') /\
     map value (genes child) = [0.1; 0.05; 0.07999999999999999; 0.3] /\
     map in_bounds (genes child) = [true; true; false; true] /\
     Exists (fun g => (value g <? min g) = true) (genes child)).
Proof.
  split; [|split].
  - intros rate gene rng Hb.
    destruct (mutate_gene_cases rate gene rng)
      as (gene' & rng' & E & [->|[r ->]]).
    + exists gene, rng'. auto.
    + eexists _, rng'. split; [exact E|]. cbn [min max value].
      split; [reflexivity|]. split; [reflexivity|]. right.
      unfold mutated. cbv zeta.
      set (x := value gene + (r - 0.5) * (max gene - min gene) * 0.2).
      destruct (is_nan x) eqn:Ex.
      * left. now apply clamp_nan.
      * right. unfold in_bounds. cbn [min max value].
        destruct (clamp_within (min gene) (max gene) x Hb Ex) as [-> ->].
        reflexivity.
  - split; [reflexivity|].
    eexists _, _. split; [vm_compute; reflexivity|].
    split; [reflexivity|]. split; [reflexivity|].
    do 2 apply Exists_cons_tl. apply Exists_cons_hd. reflexivity.
  - split; [reflexivity|].
    eexists _, _. split; [vm_compute; reflexivity|].
    split; [reflexivity|]. split; [reflexivity|].
    do 2 apply Exists_cons_tl. apply Exists_cons_hd. reflexivity.
Qed.

(** *** The mean fitness *)

Lemma fold_left_map_sum (l : list Individual) (a : float) :
  fold_left (fun acc x => acc + x) (map fitness l) a
  = fold_left (fun acc ind => acc + fitness ind) l a.
Proof.
  revert a. induction l as [|i l IH]; intro a; [reflexivity|].
  cbn [map fold_left]. apply IH.
Qed.

(** C9.  In binary64, where [0 / 0] is NaN: on an empty population
    [getAverageFitness] returns exactly 0, which is a number, although
    the quotient it returns otherwise would be NaN there; on a population
    that is not empty it returns the arithmetic mean of the fitness
    values, their sum in population order divided by their count. *)
Theorem getAverageFitness_guarded_mean :
  forall population : list Individual,
    (population = [] ->
     getAverageFitness population = 0 /\
     is_nan (getAverageFitness population) = false /\
     is_nan (sum_over_length population) = true) /\
    (population <> [] ->
     getAverageFitness population
     = arithmetic_mean (map fitness population)).
Proof.
  intro population. split.
  - intros ->. repeat split.
  - intro Hne. destruct population as [|i l]; [congruence|].
    unfold getAverageFitness, arithmetic_mean, sum_over_length.
    now rewrite fold_left_map_sum, length_map.
Qed.

Lemma getAverageFitness_guarded_mean_witness :
  (getAverageFitness [] = 0 /\
   is_nan (getAverageFitness []) = false /\
   is_nan (sum_over_length []) = true) /\
  getAverageFitness [mkIndividual [] 1; mkIndividual [] 2; mkIndividual [] 6]
  = 3.
Proof.
  split.
  - apply (getAverageFitness_guarded_mean []). reflexivity.
  - rewrite (proj2 (getAverageFitness_guarded_mean
                      [mkIndividual [] 1; mkIndividual [] 2;
                       mkIndividual [] 6])) by discriminate.
    reflexivity.
Defined.

End Genetic64Facts.
